(** * Matrix stuffing for parameterized cone programs

    A shallow embedding of
    - [cvxpy/reductions/dcp2cone/cone_matrix_stuffing.py]
      ([ParamConeProg], [ConeMatrixStuffing]),
    - [cvxpy/reductions/matrix_stuffing.py] ([MatrixStuffing]),
    - [cvxpy/expressions/constants/parameter.py]
      ([treat_params_as_affine]).

    Conventions of the embedding.
    - Python exceptions are the [Raise] branch of [result].
    - A Python [dict] is an association list in insertion order: the code
      iterates over [items()] and reads [list(values())[0]], both of which
      depend on that order.
    - Numeric entries live in a type [R] with the operations of class [Num];
      the algebraic theorems assume the ring laws for them, i.e. they are
      about exact arithmetic. The entry [nan] stands for NaN; where it is
      stored is modelled, how it propagates through the products is not.
    - A NumPy array is its shape together with its entries in Fortran
      (column-major) order, so [np.reshape(_, shape, order='F')] and
      [flatten(order='F')] only touch the shape. *)

From Stdlib Require Import String.
From Stdlib Require Import List ZArith Lia Bool Permutation Ring FinFun.
From Stdlib Require Import DecimalString DecimalZ.
Import ListNotations.

Set Implicit Arguments.

(** ** Exceptions *)

Inductive pyerr : Set := KeyError | IndexError | ValueError | TypeError.

Inductive result (T : Type) : Type :=
| Ok (a : T)
| Raise (e : pyerr).

Arguments Ok {T} a.
Arguments Raise {T} e.

Definition bind {T U : Type} (m : result T) (k : T -> result U) : result U :=
  match m with
  | Ok a => k a
  | Raise e => Raise e
  end.

Notation "v <- m ;; k" := (bind m (fun v => k))
  (at level 61, m at next level, right associativity).

Definition is_ok {T : Type} (m : result T) : bool :=
  match m with Ok _ => true | Raise _ => false end.

(** ** Scalars

    The entries of the float arrays. [nan] is the entry that NumPy stores
    when [None] is assigned into a float array. *)

Class Num (R : Type) : Type := {
  zero : R;
  one : R;
  add : R -> R -> R;
  mul : R -> R -> R;
  sub : R -> R -> R;
  neg : R -> R;
  nan : R
}.

(** The integers, for the examples in which every parameter has a value;
    they have no NaN, and [nan] is not read there. *)
#[export] Instance Num_Z : Num Z := {
  zero := 0%Z;
  one := 1%Z;
  add := Z.add;
  mul := Z.mul;
  sub := Z.sub;
  neg := Z.opp;
  nan := 0%Z
}.

(** ** Python dictionaries keyed by integer ids *)

Definition dict (V : Type) : Type := list (Z * V).

Fixpoint dict_get {V : Type} (k : Z) (d : dict V) : option V :=
  match d with
  | [] => None
  | (k', v) :: d' => if Z.eqb k k' then Some v else dict_get k d'
  end.

(** [d[k]] *)
Definition dict_getitem {V : Type} (k : Z) (d : dict V) : result V :=
  match dict_get k d with
  | Some v => Ok v
  | None => Raise KeyError
  end.

(** [d[k] = v]: an existing key keeps its position, a new one goes last. *)
Fixpoint dict_set {V : Type} (k : Z) (v : V) (d : dict V) : dict V :=
  match d with
  | [] => [(k, v)]
  | (k', v') :: d' =>
      if Z.eqb k k' then (k, v) :: d' else (k', v') :: dict_set k v d'
  end.

Definition dict_keys {V : Type} (d : dict V) : list Z := map fst d.
Definition dict_values {V : Type} (d : dict V) : list V := map snd d.

(** [k in s] for a set or list of ids *)
Definition id_in (k : Z) (s : list Z) : bool := existsb (Z.eqb k) s.

(** ** NumPy arrays *)

Record ndarray (R : Type) : Type := {
  shape : list nat;
  data : list R
}.

(** [np.prod(shape)] *)
Definition shape_size (s : list nat) : nat := fold_right Nat.mul 1 s.

(** [np.reshape(value, shape, order='F')] of a one-dimensional [value] *)
Definition np_reshape {R : Type} (value : list R) (s : list nat)
  : result (ndarray R) :=
  if Nat.eqb (length value) (shape_size s)
  then Ok {| shape := s; data := value |}
  else Raise ValueError.

(** [a.flatten(order='F')] *)
Definition flatten {R : Type} (a : ndarray R) : list R := data a.

(** Position denoted by a slice bound [i] in a sequence of length [n]:
    negative bounds count from the end, and everything is clipped. *)
Definition py_index (n : nat) (i : Z) : nat :=
  Z.to_nat (if (i <? 0)%Z then Z.max (i + Z.of_nat n) 0
            else Z.min i (Z.of_nat n)).

(** [v[a:b]] *)
Definition py_slice {R : Type} (v : list R) (a b : Z) : list R :=
  let lo := py_index (length v) a in
  let hi := py_index (length v) b in
  firstn (hi - lo) (skipn lo v).

(** [v[a:b] = w] on an array (no resizing): [w] must have the length of the
    slice, or length one, in which case it is broadcast. *)
Definition set_slice {R : Type} (v : list R) (a b : Z) (w : list R)
  : result (list R) :=
  let lo := py_index (length v) a in
  let hi := py_index (length v) b in
  let len := hi - lo in
  if Nat.eqb (length w) len
  then Ok (firstn lo v ++ w ++ skipn (lo + len) v)
  else match w with
       | [e] => Ok (firstn lo v ++ repeat e len ++ skipn (lo + len) v)
       | _ => Raise ValueError
       end.

(** [v[i] = e] with an integer index *)
Definition set_item {R : Type} (v : list R) (i : Z) (e : R)
  : result (list R) :=
  let n := Z.of_nat (length v) in
  let j := if (i <? 0)%Z then (i + n)%Z else i in
  if ((0 <=? j) && (j <? n))%Z
  then Ok (firstn (Z.to_nat j) v ++ e :: skipn (S (Z.to_nat j)) v)
  else Raise IndexError.

(** ** Leaves: variables and parameters *)

Record variable : Type := {
  var_id : Z;
  var_shape : list nat
}.

(** Modelled from the spec: the [size] attribute of a leaf, which the
    [Leaf] class (not among the sources) computes; the spec gives
    [size = prod(shape)]. *)
Definition var_size (v : variable) : nat := shape_size (var_shape v).

(** [sum([v.size for v in vs])] *)
Definition total_size (vs : list variable) : nat :=
  fold_right (fun v n => var_size v + n) 0 vs.

(** A parameter; [value = None] is an unset value. *)
Record parameter (R : Type) : Type := {
  param_id : Z;
  param_shape : list nat;
  value : option (ndarray R)
}.

(** Modelled from the spec: [size = prod(shape)], as for variables. *)
Definition param_size {R : Type} (p : parameter R) : nat :=
  shape_size (param_shape p).

(** ** Vectors and matrices

    A matrix is dense, given by its rows; [ncols] is kept apart so that a
    matrix without rows still has a column count, as a SciPy matrix has. *)

Record matrix (R : Type) : Type := {
  ncols : nat;
  rows : list (list R)
}.

Definition nrows {R : Type} (M : matrix R) : nat := length (rows M).

Definition well_shaped {R : Type} (M : matrix R) : bool :=
  forallb (fun r => Nat.eqb (length r) (ncols M)) (rows M).

Fixpoint dot {R : Type} `{Num R} (u v : list R) : R :=
  match u, v with
  | a :: u', b :: v' => add (mul a b) (dot u' v')
  | _, _ => zero
  end.

Definition vadd {R : Type} `{Num R} (u v : list R) : list R :=
  map (fun p => add (fst p) (snd p)) (combine u v).

Definition vsub {R : Type} `{Num R} (u v : list R) : list R :=
  map (fun p => sub (fst p) (snd p)) (combine u v).

Definition vscale {R : Type} `{Num R} (a : R) (v : list R) : list R :=
  map (mul a) v.

(** [M @ v] for a vector [v] *)
Definition matvec {R : Type} `{Num R} (M : matrix R) (v : list R)
  : result (list R) :=
  if well_shaped M && Nat.eqb (ncols M) (length v)
  then Ok (map (fun r => dot r v) (rows M))
  else Raise ValueError.

(** [u @ M] for a vector [u]: the combination of the rows of [M] with the
    entries of [u] as weights. *)
Fixpoint rows_comb {R : Type} `{Num R} (k : nat) (u : list R)
  (rs : list (list R)) : list R :=
  match u, rs with
  | a :: u', r :: rs' => vadd (vscale a r) (rows_comb k u' rs')
  | _, _ => repeat zero k
  end.

Definition vecmat {R : Type} `{Num R} (u : list R) (M : matrix R)
  : result (list R) :=
  if well_shaped M && Nat.eqb (length u) (nrows M)
  then Ok (rows_comb (ncols M) u (rows M))
  else Raise ValueError.

(** [v.reshape((m, k), order='F')] as a matrix: entry [(i, j)] is
    [v[i + j*m]]. *)
Definition reshape_F {R : Type} `{Num R} (v : list R) (m k : nat)
  : result (matrix R) :=
  if Nat.eqb (length v) (m * k)
  then Ok {| ncols := k;
             rows := map (fun i => map (fun j => nth (i + j * m) v zero)
                                       (seq 0 k))
                         (seq 0 m) |}
  else Raise ValueError.

(** Column [j] of a matrix. *)
Definition column {R : Type} `{Num R} (j : nat) (M : matrix R) : list R :=
  map (fun r => nth j r zero) (rows M).

(** [M.reshape((prod(M.shape), 1), order='F')]: the columns of [M], one
    after the other. *)
Definition flatten_F {R : Type} `{Num R} (M : matrix R) : list R :=
  flat_map (fun j => column j M) (seq 0 (ncols M)).

(** [a*u + b*v] *)
Definition vlincomb {R : Type} `{Num R} (a : R) (u : list R) (b : R)
  (v : list R) : list R :=
  map (fun p => add (mul a (fst p)) (mul b (snd p))) (combine u v).

(** [a*X + b*Y] *)
Definition mlincomb {R : Type} `{Num R} (a : R) (X : matrix R) (b : R)
  (Y : matrix R) : matrix R :=
  {| ncols := ncols X;
     rows := map (fun p => vlincomb a (fst p) b (snd p))
               (combine (rows X) (rows Y)) |}.

(** [X - Y] *)
Definition msub {R : Type} `{Num R} (X Y : matrix R) : matrix R :=
  {| ncols := ncols X;
     rows := map (fun p => vsub (fst p) (snd p))
               (combine (rows X) (rows Y)) |}.

(** The inner product of two matrices, summed column by column over the
    columns of [X]. *)
Definition mat_inner {R : Type} `{Num R} (X Y : matrix R) : R :=
  fold_right (fun j s => add (dot (column j X) (column j Y)) s) zero
    (seq 0 (ncols X)).

(** ** Constraints *)

Inductive constr_kind : Set :=
| Zero | NonPos | SOC | PSD | ExpCone | Equality | Inequality.

Definition constr_kind_eqb (a b : constr_kind) : bool :=
  match a, b with
  | Zero, Zero | NonPos, NonPos | SOC, SOC | PSD, PSD
  | ExpCone, ExpCone | Equality, Equality | Inequality, Inequality => true
  | _, _ => false
  end.

(** The expressions that occur as constraint arguments, as far as the
    reductions build them. *)
Inductive expr : Type :=
| ELeaf (id : Z) (s : list nat)
| ESub (lhs rhs : expr)
| ETranspose (e : expr)
| EStuffed (offset : nat) (s : list nat).

Fixpoint expr_shape (e : expr) : list nat :=
  match e with
  | ELeaf _ s => s
  | ESub l _ => expr_shape l
  | ETranspose a => rev (expr_shape a)
  | EStuffed _ s => s
  end.

Definition expr_size (e : expr) : nat := shape_size (expr_shape e).

Record constraint : Type := {
  kind : constr_kind;
  constr_id : Z;
  args : list expr;
  axis : Z;
  dual_variables : list variable
}.

(** ** ParamConeProg *)

Record ParamConeProg (R : Type) : Type := {
  prog_c : matrix R;
  prog_x : variable;
  prog_A : matrix R;
  variables : list variable;
  var_id_to_col : dict Z;
  constraints : list constraint;
  parameters : list (parameter R);
  param_id_to_col : dict Z
}.

Section ParamConeProgMethods.
Context {R : Type} `{Num R}.
Variable self : ParamConeProg R.

(** [{p.id: p for p in self.parameters}] *)
Definition id_to_param : dict (parameter R) :=
  fold_left (fun d p => dict_set (param_id p) p d) (parameters self) [].

(** [sum([p.size for p in self.parameters])] *)
Definition total_param_size : nat :=
  fold_right (fun p n => param_size p + n) 0 (parameters self).

(** [{v.id: v for v in self.variables}] *)
Definition id_to_var : dict variable :=
  fold_left (fun d v => dict_set (var_id v) v d) (variables self) [].

(** *** [split_solution] *)

Fixpoint split_solution_loop (sltn : list R) (active_vars : list Z)
  (items : list (Z * Z)) (sltn_dict : dict (ndarray R))
  : result (dict (ndarray R)) :=
  match items with
  | [] => Ok sltn_dict
  | (var_id, col) :: items' =>
      if id_in var_id active_vars then
        var <- dict_getitem var_id id_to_var ;;
        let value := py_slice sltn col (Z.of_nat (var_size var) + col) in
        arr <- np_reshape value (var_shape var) ;;
        split_solution_loop sltn active_vars items'
          (dict_set var_id arr sltn_dict)
      else split_solution_loop sltn active_vars items' sltn_dict
  end.

Definition split_solution (sltn : list R) (active_vars : option (list Z))
  : result (dict (ndarray R)) :=
  let active_vars :=
    match active_vars with
    | None => map var_id (variables self)
    | Some s => s
    end in
  split_solution_loop sltn active_vars (var_id_to_col self) [].

(** *** [split_adjoint] *)

Fixpoint split_adjoint_loop (items : list (Z * ndarray R))
  (var_vec : list R) : result (list R) :=
  match items with
  | [] => Ok var_vec
  | (var_id, delta) :: items' =>
      var <- dict_getitem var_id id_to_var ;;
      col <- dict_getitem var_id (var_id_to_col self) ;;
      var_vec' <- set_slice var_vec col (Z.of_nat (var_size var) + col)
                    (flatten delta) ;;
      split_adjoint_loop items' var_vec'
  end.

Definition split_adjoint (del_vars : dict (ndarray R)) : result (list R) :=
  split_adjoint_loop del_vars (repeat zero (var_size (prog_x self))).

(** The column ranges [(col, size)] that [var_id_to_col] assigns to the
    variables of the program. *)
Definition var_ranges : list (Z * nat) :=
  flat_map (fun e => match dict_get (fst e) id_to_var with
                     | Some v => [(snd e, var_size v)]
                     | None => []
                     end)
           (var_id_to_col self).
End ParamConeProgMethods.

Definition in_range (i : Z) (r : Z * nat) : bool :=
  ((fst r <=? i) && (i <? fst r + Z.of_nat (snd r)))%Z.

(** A range lies within [[0, n)]; an empty range lies anywhere. Such a
    range is read by a slice in full, and written in full. *)
Definition range_okb (n : nat) (r : Z * nat) : bool :=
  Nat.eqb (snd r) 0
  || ((0 <=? fst r) && (fst r + Z.of_nat (snd r) <=? Z.of_nat n))%Z.

Definition range_ok (n : nat) (r : Z * nat) : Prop :=
  snd r = 0 \/ (0 <= fst r /\ fst r + Z.of_nat (snd r) <= Z.of_nat n)%Z.

Definition ranges_within (n : nat) (rs : list (Z * nat)) : bool :=
  forallb (range_okb n) rs.

(** Every index of [[0, n)] lies in at least one range (no gaps). *)
Definition ranges_cover (n : nat) (rs : list (Z * nat)) : bool :=
  forallb (fun i => existsb (in_range (Z.of_nat i)) rs) (seq 0 n).

(** No index of [[0, n)] lies in two ranges (no overlaps). *)
Definition ranges_disjoint (n : nat) (rs : list (Z * nat)) : bool :=
  forallb (fun i => Nat.leb (length (filter (in_range (Z.of_nat i)) rs)) 1)
          (seq 0 n).

(** The ranges cover [[0, n)] without gaps or overlaps. *)
Definition ranges_partition (n : nat) (rs : list (Z * nat)) : bool :=
  ranges_within n rs && ranges_cover n rs && ranges_disjoint n rs.

(** What [split_solution] stores for the variable with id [k]: the slice
    of [v] at the column range that the program gives to [k]. *)
Definition slice_of {R : Type} (self : ParamConeProg R) (v : list R)
  (k : Z) (arr : ndarray R) : Prop :=
  exists col var,
    dict_get k (var_id_to_col self) = Some col /\
    dict_get k (id_to_var self) = Some var /\
    range_ok (length v) (col, var_size var) /\
    flatten arr = py_slice v col (Z.of_nat (var_size var) + col).

(** ** Parameter values as NumPy sees them

    [np.array(None)] is a zero-dimensional object array holding [None]; its
    [flatten] has one entry, [None], which a float array stores as NaN. *)

Inductive pyarray (R : Type) : Type :=
| NumArray (a : ndarray R)
| NoneArray.

Arguments NoneArray {R}.

(** [np.array(v)] for a stored parameter value [v] *)
Definition np_array {R : Type} (v : option (ndarray R)) : pyarray R :=
  match v with
  | Some a => NumArray a
  | None => NoneArray
  end.

(** [v[a:b] = w.flatten(order='F')] on a float array [v]. The one entry
    [None] of a flattened [np.array(None)] is converted to NaN and, like
    every array of one entry, broadcast over the slice. *)
Definition set_slice_flat {R : Type} `{Num R} (v : list R) (a b : Z)
  (w : pyarray R) : result (list R) :=
  match w with
  | NumArray arr => set_slice v a b (flatten arr)
  | NoneArray => set_slice v a b [nan]
  end.

(** [u += t] on a one-dimensional array [u], where [t] may have been
    squeezed to a scalar. *)
Definition iadd {R : Type} `{Num R} (u t : list R) : result (list R) :=
  if Nat.eqb (length t) (length u) then Ok (vadd u t)
  else match t with
       | [e] => Ok (map (fun a => add a e) u)
       | _ => Raise ValueError
       end.

Section ParamConeProgParameters.
Context {R : Type} `{Num R}.
(** [lo.CONSTANT_ID], the id of the column of the constant term. *)
Variable CONSTANT_ID : Z.
Variable self : ParamConeProg R.

(** *** [apply_parameters] *)

Definition param_value (id_to_param_value : option (dict (ndarray R)))
  (idx : Z) : result (pyarray R) :=
  match id_to_param_value with
  | None => p <- dict_getitem idx (id_to_param self) ;;
            Ok (np_array (value p))
  | Some m => a <- dict_getitem idx m ;; Ok (NumArray a)
  end.

Fixpoint param_vec_loop (id_to_param_value : option (dict (ndarray R)))
  (items : list (Z * Z)) (param_vec : list R) : result (list R) :=
  match items with
  | [] => Ok param_vec
  | (param_id, col) :: items' =>
      if Z.eqb param_id CONSTANT_ID then
        param_vec' <- set_item param_vec col one ;;
        param_vec_loop id_to_param_value items' param_vec'
      else
        val <- param_value id_to_param_value param_id ;;
        param <- dict_getitem param_id (id_to_param self) ;;
        param_vec' <- set_slice_flat param_vec col
                        (Z.of_nat (param_size param) + col) val ;;
        param_vec_loop id_to_param_value items' param_vec'
  end.

(** The flattened parameter vector built by the first half of
    [apply_parameters]. *)
Definition flat_param_vec (id_to_param_value : option (dict (ndarray R)))
  : result (list R) :=
  param_vec_loop id_to_param_value (param_id_to_col self)
    (repeat zero (total_param_size self + 1)).

Definition apply_parameters (id_to_param_value : option (dict (ndarray R)))
  : result (list R * matrix R) :=
  param_vec <- flat_param_vec id_to_param_value ;;
  c <- matvec (prog_c self) param_vec ;;
  let var_size := var_size (prog_x self) + 1 in
  Av <- matvec (prog_A self) param_vec ;;
  A <- reshape_F Av (nrows (prog_A self) / var_size) var_size ;;
  Ok (c, A).

(** *** [apply_param_jac] *)

Fixpoint apply_param_jac_loop (del_param_vec : list R)
  (active_params : list Z) (items : list (Z * Z))
  (del_param_dict : dict (ndarray R)) : result (dict (ndarray R)) :=
  match items with
  | [] => Ok del_param_dict
  | (param_id, col) :: items' =>
      if id_in param_id active_params then
        param <- dict_getitem param_id (id_to_param self) ;;
        (* after [np.squeeze] a vector of length one has no axis left
           to slice *)
        delta <- (if Nat.eqb (length del_param_vec) 1
                  then Raise IndexError
                  else Ok (py_slice del_param_vec col
                             (Z.of_nat (param_size param) + col))) ;;
        arr <- np_reshape delta (param_shape param) ;;
        apply_param_jac_loop del_param_vec active_params items'
          (dict_set param_id arr del_param_dict)
      else
        apply_param_jac_loop del_param_vec active_params items'
          del_param_dict
  end.

Definition apply_param_jac (delc : list R) (delA : matrix R)
  (delb : list R) (active_params : option (list Z))
  : result (dict (ndarray R)) :=
  let active_params :=
    match active_params with
    | None => map (@param_id R) (parameters self)
    | Some s => s
    end in
  (* self.c[:-1] *)
  let c_top := {| ncols := ncols (prog_c self);
                  rows := removelast (rows (prog_c self)) |} in
  del_param_vec <- vecmat delc c_top ;;
  let flatdelA := flatten_F delA in
  let delAb := flatdelA ++ delb in
  t <- vecmat delAb (prog_A self) ;;
  del_param_vec <- iadd del_param_vec t ;;
  apply_param_jac_loop del_param_vec active_params
    (param_id_to_col self) [].
End ParamConeProgParameters.

(** ** Solutions and inverse data *)

Record Solution (R : Type) : Type := {
  status : string;
  opt_val : option R;
  primal_vars : dict (ndarray R);
  dual_vars : option (dict (ndarray R));
  attr : list (string * string)
}.

(** The part of [InverseData] that the two reductions read and write.
    Dual variables are hashed by identity, so [dv_id_map] is keyed by the id
    of the new dual variable and holds the old dual variable. *)
Record InverseData : Type := {
  var_offsets : dict Z;
  var_shapes : dict (list nat);
  param_id_map : dict Z;
  dv_id_map : dict variable;
  inv_constraints : list constraint;
  minimize : bool
}.

Definition status_in (st : string) (l : list string) : bool :=
  existsb (String.eqb st) l.

(** [list(d.values())[0]] *)
Definition first_value {V : Type} (d : dict V) : result V :=
  match dict_values d with
  | v :: _ => Ok v
  | [] => Raise IndexError
  end.

Section Invert.
Context {R : Type} `{Num R}.
(** [s.ERROR] and [s.SOLUTION_PRESENT] of [cvxpy.settings] *)
Variables ERROR SOLUTION_PRESENT : list string.

(** Lines 103-106: the sign of the optimal value; [-None] raises. *)
Definition invert_opt_val (solution : Solution R)
  (inverse_data : InverseData) : result (option R) :=
  if negb (status_in (status solution) ERROR)
     && negb (minimize inverse_data)
  then match opt_val solution with
       | Some v => Ok (Some (neg v))
       | None => Raise TypeError
       end
  else Ok (opt_val solution).

Fixpoint invert_primal_loop (inverse_data : InverseData) (x_opt : list R)
  (items : list (Z * Z)) (primal : dict (ndarray R))
  : result (dict (ndarray R)) :=
  match items with
  | [] => Ok primal
  | (var_id, offset) :: items' =>
      s <- dict_getitem var_id (var_shapes inverse_data) ;;
      let size := Z.of_nat (shape_size s) in
      arr <- np_reshape (py_slice x_opt offset (offset + size)) s ;;
      invert_primal_loop inverse_data x_opt items'
        (dict_set var_id arr primal)
  end.

(** The inner loop over [constr.dual_variables]; the running [offset] is
    threaded through. *)
Fixpoint invert_dv_loop (inverse_data : InverseData) (dual_var : list R)
  (dvs : list variable) (offset : Z) (dual : dict (ndarray R))
  : result (Z * dict (ndarray R)) :=
  match dvs with
  | [] => Ok (offset, dual)
  | dv :: dvs' =>
      dv_old <- dict_getitem (var_id dv) (dv_id_map inverse_data) ;;
      let size := Z.of_nat (var_size dv) in
      arr <- np_reshape (py_slice dual_var offset (offset + size))
               (var_shape dv) ;;
      invert_dv_loop inverse_data dual_var dvs' (offset + size)%Z
        (dict_set (var_id dv_old) arr dual)
  end.

Fixpoint invert_dual_loop (inverse_data : InverseData) (dual_var : list R)
  (constrs : list constraint) (offset : Z) (dual : dict (ndarray R))
  : result (dict (ndarray R)) :=
  match constrs with
  | [] => Ok dual
  | constr :: constrs' =>
      od <- invert_dv_loop inverse_data dual_var (dual_variables constr)
              offset dual ;;
      invert_dual_loop inverse_data dual_var constrs' (fst od) (snd od)
  end.

Definition invert (solution : Solution R) (inverse_data : InverseData)
  : result (Solution R) :=
  let var_map := var_offsets inverse_data in
  opt <- invert_opt_val solution inverse_data ;;
  if negb (status_in (status solution) SOLUTION_PRESENT) then
    Ok {| status := status solution; opt_val := opt;
          primal_vars := []; dual_vars := Some [];
          attr := attr solution |}
  else
    x_opt <- first_value (primal_vars solution) ;;
    primal <- invert_primal_loop inverse_data (flatten x_opt) var_map [] ;;
    dual <- match dual_vars solution with
            | Some dvs =>
                dual_var <- first_value dvs ;;
                invert_dual_loop inverse_data (flatten dual_var)
                  (inv_constraints inverse_data) 0%Z []
            | None => Ok []
            end ;;
    Ok {| status := status solution; opt_val := opt;
          primal_vars := primal; dual_vars := Some dual;
          attr := attr solution |}.
End Invert.

(** ** The scope [treat_params_as_affine]

    Parameters are shared objects: the store maps a parameter id to its
    [_is_constant] flag. The expression keeps a cached constancy. The
    enclosing [perf.disable_caches()] is not among the sources and is left
    out. *)

Record scope_expr : Type := {
  expr_parameters : list Z;      (* expr.parameters(), by id *)
  expr_has_variables : bool
}.

Record store : Type := {
  is_constant_flag : dict bool;  (* p._is_constant *)
  cached_constant : bool         (* the expression's cached constancy *)
}.

Definition flag_of (st : store) (p : Z) : bool :=
  match dict_get p (is_constant_flag st) with
  | Some b => b
  | None => true                 (* set by Parameter.__init__ *)
  end.

Definition set_flag (p : Z) (b : bool) (st : store) : store :=
  {| is_constant_flag := dict_set p b (is_constant_flag st);
     cached_constant := cached_constant st |}.

(** Modelled from the spec: [expr._check_is_constant(recompute=True)] of the
    expression class (not among the sources) recomputes the cached constancy
    of the expression from its leaves; a parameter answers with its flag
    ([Parameter._check_is_constant]). *)
Definition check_is_constant (e : scope_expr) (st : store) : store :=
  {| is_constant_flag := is_constant_flag st;
     cached_constant := negb (expr_has_variables e)
                        && forallb (flag_of st) (expr_parameters e) |}.

(** The generator up to [yield]. *)
Fixpoint save_and_clear (ps : list Z) (st : store) : list bool * store :=
  match ps with
  | [] => ([], st)
  | p :: ps' =>
      let old := flag_of st p in
      let r := save_and_clear ps' (set_flag p false st) in
      (old :: fst r, snd r)
  end.

Definition scope_enter (e : scope_expr) (st : store) : list bool * store :=
  let r := save_and_clear (expr_parameters e) st in
  (fst r, check_is_constant e (snd r)).

(** The generator after [yield]. *)
Fixpoint restore_flags (l : list (Z * bool)) (st : store) : store :=
  match l with
  | [] => st
  | (p, flag) :: l' => restore_flags l' (set_flag p flag st)
  end.

Definition scope_resume (e : scope_expr) (old_constant_flags : list bool)
  (st : store) : store :=
  check_is_constant e
    (restore_flags (combine (expr_parameters e) old_constant_flags) st).

Inductive outcome : Set := Normal | Exception (e : pyerr).

(** [with treat_params_as_affine(expr): body]. On a normal exit
    [contextlib] resumes the generator; on an exception it throws the
    exception into the generator at [yield], where no handler or [finally]
    encloses it, so the generator ends there and the exception goes on. *)
Definition treat_params_as_affine (e : scope_expr)
  (body : store -> store * outcome) (st : store) : store * outcome :=
  let entered := scope_enter e st in
  let r := body (snd entered) in
  match snd r with
  | Normal => (scope_resume e (fst entered) (fst r), Normal)
  | Exception exn => (fst r, Exception exn)
  end.

(** ** Problems and the constructors the reductions call *)

Record Problem (R : Type) : Type := {
  objective_is_minimize : bool;   (* type(problem.objective) == Minimize *)
  objective_expr : expr;
  problem_constraints : list constraint;
  problem_variables : list variable;
  problem_parameters : list (parameter R)
}.

(** [lu.get_id()]: ids come from a process-wide counter, threaded here as
    the next free id. *)
Definition get_id (next : Z) : Z * Z := (next, (next + 1)%Z).

(** One fresh variable per shape. *)
Fixpoint new_variables (shapes : list (list nat)) (next : Z)
  : list variable * Z :=
  match shapes with
  | [] => ([], next)
  | s :: shapes' =>
      let i := get_id next in
      let r := new_variables shapes' (snd i) in
      ({| var_id := fst i; var_shape := s |} :: fst r, snd r)
  end.

(** Modelled from the spec: the constraint classes are not among the
    sources. A constraint carries "one dual variable per structural role":
    an equality or inequality has one, for [lhs - rhs]; a cone constraint
    has one per argument. *)
Definition dual_shapes (k : constr_kind) (a : list expr) : list (list nat) :=
  match k with
  | Equality | Inequality =>
      match a with
      | lhs :: _ => [expr_shape lhs]
      | [] => []
      end
  | _ => map expr_shape a
  end.

(** Modelled from the spec: constructing a constraint creates its dual
    variables afresh. *)
Definition new_constraint (k : constr_kind) (a : list expr) (ax : Z)
  (cid : Z) (next : Z) : constraint * Z :=
  let dv := new_variables (dual_shapes k a) next in
  ({| kind := k; constr_id := cid; args := a; axis := ax;
      dual_variables := fst dv |}, snd dv).

Definition difference (a : list expr) : list expr :=
  match a with
  | [lhs; rhs] => [ESub lhs rhs]
  | _ => a
  end.

(** Modelled from the spec: [lower_equality] of [cvxpy.reductions.utilities]
    (not among the sources) turns an equality into a [Zero] constraint, a
    new object with the same constraint id and fresh dual variables. *)
Definition lower_equality (con : constraint) (next : Z) : constraint * Z :=
  new_constraint Zero (difference (args con)) (axis con) (constr_id con) next.

(** Modelled from the spec: [lower_inequality], likewise, to [NonPos]. *)
Definition lower_inequality (con : constraint) (next : Z) : constraint * Z :=
  new_constraint NonPos (difference (args con)) (axis con) (constr_id con)
    next.

(** [SOC(con.args[0], con.args[1].T, axis=0, constr_id=con.constr_id)] *)
Definition soc_axis0 (con : constraint) (next : Z) : constraint * Z :=
  new_constraint SOC
    (match args con with
     | t :: X :: _ => [t; ETranspose X]
     | a => a
     end) 0%Z (constr_id con) next.

(** Modelled from the spec: [con.copy(arg_list)] builds a constraint of the
    class of [con] over the new arguments, again with fresh dual variables.
    Which id the copy carries is up to the constraint classes, which are
    not among the sources, and is left open: [copy_id con next] is that id,
    with the next free id after it (a class that hands its own id to the
    copy draws none, another class draws a fresh one). *)
Definition copy (copy_id : constraint -> Z -> Z * Z) (con : constraint)
  (arg_list : list expr) (next : Z) : constraint * Z :=
  let i := copy_id con next in
  new_constraint (kind con) arg_list (axis con) (fst i) (snd i).

(** The branch on the constraint class that both [apply] methods share. *)
Definition lower (con : constraint) (next : Z) : constraint * Z :=
  match kind con with
  | Equality => lower_equality con next
  | Inequality => lower_inequality con next
  | SOC => if Z.eqb (axis con) 1 then soc_axis0 con next else (con, next)
  | _ => (con, next)
  end.

(** [for dv_old, dv_new in zip(old, new): dv_id_map[dv_new] = dv_old] *)
Fixpoint record_duals (old new : list variable) (m : dict variable)
  : dict variable :=
  match old, new with
  | dv_old :: old', dv_new :: new' =>
      record_duals old' new' (dict_set (var_id dv_new) dv_old m)
  | _, _ => m
  end.

(** Modelled from the spec: [group_constraints] of
    [cvxpy.reductions.utilities] (not among the sources) partitions the
    constraints by kind, keeping their order within a kind. *)
Definition group_constraints (cons : list constraint) (k : constr_kind)
  : list constraint :=
  filter (fun con => constr_kind_eqb (kind con) k) cons.

(** Modelled from the spec: [InverseData(problem)] (not among the sources)
    lays the variables out in declaration order, and the parameters
    likewise, followed by the column of the constant term. *)
Fixpoint offsets_from (sizes : list (Z * nat)) (offset : Z) : dict Z :=
  match sizes with
  | [] => []
  | (i, n) :: sizes' =>
      (i, offset) :: offsets_from sizes' (offset + Z.of_nat n)%Z
  end.

Definition new_inverse_data {R : Type} (CONSTANT_ID : Z)
  (problem : Problem R) : InverseData :=
  let vs := problem_variables problem in
  let ps := problem_parameters problem in
  {| var_offsets :=
       fold_left (fun d e => dict_set (fst e) (snd e) d)
         (offsets_from (map (fun v => (var_id v, var_size v)) vs) 0%Z) [];
     var_shapes :=
       fold_left (fun d v => dict_set (var_id v) (var_shape v) d) vs [];
     param_id_map :=
       fold_left (fun d e => dict_set (fst e) (snd e) d)
         (offsets_from (map (fun p => (param_id p, param_size p)) ps
                        ++ [(CONSTANT_ID, 1)]) 0%Z) [];
     dv_id_map := [];
     inv_constraints := [];
     minimize := true |}.

Definition x_length {R : Type} (problem : Problem R) : nat :=
  total_size (problem_variables problem).

(** ** [ConeMatrixStuffing.apply] *)

Section ConeMatrixStuffing.
Context {R : Type} `{Num R}.
Variable CONSTANT_ID : Z.
(** [CoeffExtractor.affine], which is not among the sources: the
    coefficient matrix of a batch of expressions. *)
Variable affine : InverseData -> list expr -> matrix R.

(** Lines 183-195: lowering, and the record of the dual variables. *)
Fixpoint cone_lower_loop (cs : list constraint) (cons : list constraint)
  (dv_map : dict variable) (next : Z)
  : list constraint * dict variable * Z :=
  match cs with
  | [] => (cons, dv_map, next)
  | orig_con :: cs' =>
      let r := lower orig_con next in
      let con := fst r in
      cone_lower_loop cs' (cons ++ [con])
        (record_duals (dual_variables orig_con) (dual_variables con)
           dv_map)
        (snd r)
  end.

Definition cone_apply (problem : Problem R) (next : Z)
  : (ParamConeProg R * InverseData) * Z :=
  let inverse_data := new_inverse_data CONSTANT_ID problem in
  (* stuffed_objective *)
  let c := affine inverse_data [objective_expr problem] in
  let xid := get_id next in
  let x := {| var_id := fst xid; var_shape := [x_length problem] |} in
  let lowered :=
    cone_lower_loop (problem_constraints problem) []
      (dv_id_map inverse_data) (snd xid) in
  let cons := fst (fst lowered) in
  let constr_map := group_constraints cons in
  let ordered_cons :=
    constr_map Zero ++ constr_map NonPos ++ constr_map SOC
    ++ constr_map PSD ++ constr_map ExpCone in
  let expr_list := flat_map args ordered_cons in
  let A := affine inverse_data expr_list in
  let inverse_data :=
    {| var_offsets := var_offsets inverse_data;
       var_shapes := var_shapes inverse_data;
       param_id_map := param_id_map inverse_data;
       dv_id_map := snd (fst lowered);
       inv_constraints := ordered_cons;
       minimize := objective_is_minimize problem |} in
  (({| prog_c := c; prog_x := x; prog_A := A;
       variables := problem_variables problem;
       var_id_to_col := var_offsets inverse_data;
       constraints := ordered_cons;
       parameters := problem_parameters problem;
       param_id_to_col := param_id_map inverse_data |},
    inverse_data), snd lowered).
End ConeMatrixStuffing.

(** The five kinds of constraint after lowering, in the order of the
    stuffed rows. *)
Definition cone_kinds : list constr_kind := [Zero; NonPos; SOC; PSD; ExpCone].

(** The list [cons] that [ConeMatrixStuffing.apply] builds from the
    constraints of the problem, before grouping. *)
Definition cone_lowered {R : Type} (problem : Problem R) (next : Z)
  : list constraint :=
  fst (fst (cone_lower_loop (problem_constraints problem) [] []
              (snd (get_id next)))).

(** A constraint with the arguments and dual variables of its kind: two
    sides and one dual variable for an equality or inequality, two
    arguments for a second-order cone, and one dual variable per argument
    of a cone constraint. *)
Definition constraint_wf (con : constraint) : bool :=
  match kind con with
  | Equality | Inequality =>
      Nat.eqb (length (args con)) 2
      && Nat.eqb (length (dual_variables con)) 1
  | SOC =>
      Nat.eqb (length (args con)) 2
      && Nat.eqb (length (dual_variables con)) 2
  | _ => Nat.eqb (length (dual_variables con)) (length (args con))
  end.

(** The ids of the dual variables of a list of constraints, in order. *)
Definition dual_ids (cs : list constraint) : list Z :=
  map var_id (flat_map dual_variables cs).

(** ** [MatrixStuffing.apply] *)

Section MatrixStuffing.
Context {R : Type}.
Variable CONSTANT_ID : Z.
(** The abstract method [stuffed_objective] of the subclass: the new
    objective, the new variable and the offset [r]. *)
Variable stuffed_objective : Problem R -> Z -> (expr * variable * R) * Z.
(** The id that [copy] gives to the copy of a constraint. *)
Variable copy_id : constraint -> Z -> Z * Z.

(** Lines 67-75: lowering only. *)
Fixpoint stuffing_lower_loop (cs : list constraint)
  (cons : list constraint) (next : Z) : list constraint * Z :=
  match cs with
  | [] => (cons, next)
  | con :: cs' =>
      let r := lower con next in
      stuffing_lower_loop cs' (cons ++ [fst r]) (snd r)
  end.

(** Lines 85-89: the arguments of one constraint, rebuilt over the new
    variable from their rows of [Afull], [bfull]. *)
Fixpoint stuffed_args (a : list expr) (offset : nat)
  : list expr * nat :=
  match a with
  | [] => ([], offset)
  | arg :: a' =>
      let r := stuffed_args a' (offset + expr_size arg) in
      (EStuffed offset (expr_shape arg) :: fst r, snd r)
  end.

(** Lines 83-93. *)
Fixpoint stuffing_copy_loop (cons : list constraint) (offset : nat)
  (new_cons : list constraint) (dv_map : dict variable) (next : Z)
  : list constraint * dict variable * Z :=
  match cons with
  | [] => (new_cons, dv_map, next)
  | con :: cons' =>
      let al := stuffed_args (args con) offset in
      let r := copy copy_id con (fst al) next in
      stuffing_copy_loop cons' (snd al) (new_cons ++ [fst r])
        (record_duals (dual_variables con) (dual_variables (fst r))
           dv_map)
        (snd r)
  end.

Definition stuffing_apply (problem : Problem R) (next : Z)
  : (Problem R * InverseData) * Z :=
  let inverse_data := new_inverse_data CONSTANT_ID problem in
  let so := stuffed_objective problem next in
  let new_obj := fst (fst (fst so)) in
  let new_var := snd (fst (fst so)) in
  let lowered :=
    stuffing_lower_loop (problem_constraints problem) [] (snd so) in
  let copied :=
    stuffing_copy_loop (fst lowered) 0 [] (dv_id_map inverse_data)
      (snd lowered) in
  let inverse_data :=
    {| var_offsets := var_offsets inverse_data;
       var_shapes := var_shapes inverse_data;
       param_id_map := param_id_map inverse_data;
       dv_id_map := snd (fst copied);
       inv_constraints := inv_constraints inverse_data;
       minimize := objective_is_minimize problem |} in
  (({| objective_is_minimize := true;
       objective_expr := new_obj;
       problem_constraints := fst (fst copied);
       problem_variables := [new_var];
       problem_parameters := [] |},
    inverse_data), snd copied).
End MatrixStuffing.

(** ** Layouts that [invert] can split

    The flat primal vector holds every variable at its recorded offset, and
    the flat dual vector holds the dual variables of the constraints one
    after the other. *)

Definition primal_fits {R : Type} (inverse_data : InverseData)
  (x_opt : list R) : bool :=
  forallb (fun e => match dict_get (fst e) (var_shapes inverse_data) with
                    | Some s => range_okb (length x_opt) (snd e, shape_size s)
                    | None => false
                    end)
          (var_offsets inverse_data).

Definition dual_fits {R : Type} (inverse_data : InverseData)
  (dual_var : list R) : bool :=
  let dvs := flat_map dual_variables (inv_constraints inverse_data) in
  forallb (fun dv => match dict_get (var_id dv) (dv_id_map inverse_data) with
                     | Some _ => true
                     | None => false
                     end) dvs
  && Nat.leb (total_size dvs) (length dual_var).

Definition solution_fits {R : Type} (solution : Solution R)
  (inverse_data : InverseData) : bool :=
  match first_value (primal_vars solution) with
  | Ok x_opt => primal_fits inverse_data (flatten x_opt)
  | Raise _ => false
  end
  && match dual_vars solution with
     | None => true
     | Some dvs => match first_value dvs with
                   | Ok dual_var => dual_fits inverse_data (flatten dual_var)
                   | Raise _ => false
                   end
     end.

(** ** Arithmetic on parameter values, and the pairings of the adjoint
    check *)

Definition arr_lincomb {R : Type} `{Num R} (a : R) (x : ndarray R) (b : R)
  (y : ndarray R) : ndarray R :=
  {| shape := shape x; data := vlincomb a (data x) b (data y) |}.

(** [a*p1 + b*p2], entry by entry, for two assignments of values to ids *)
Definition dict_lincomb {R : Type} `{Num R} (a : R) (p1 : dict (ndarray R))
  (b : R) (p2 : dict (ndarray R)) : dict (ndarray R) :=
  map (fun e => (fst e, match dict_get (fst e) p2 with
                        | Some y => arr_lincomb a (snd e) b y
                        | None => snd e
                        end)) p1.

(** Values for the same id have the same number of entries. *)
Definition same_sizes {R : Type} (p1 p2 : dict (ndarray R)) : Prop :=
  forall k x y, dict_get k p1 = Some x -> dict_get k p2 = Some y ->
                length (data x) = length (data y).

Definition arr_add {R : Type} `{Num R} (x d : ndarray R) : ndarray R :=
  {| shape := shape x; data := vadd (data x) (data d) |}.

(** [p + dp], entry by entry *)
Definition dict_add {R : Type} `{Num R} (p dp : dict (ndarray R))
  : dict (ndarray R) :=
  map (fun e => (fst e, match dict_get (fst e) dp with
                        | Some d => arr_add (snd e) d
                        | None => snd e
                        end)) p.

(** [t*dp], entry by entry *)
Definition dict_scale {R : Type} `{Num R} (t : R) (dp : dict (ndarray R))
  : dict (ndarray R) :=
  map (fun e => (fst e, {| shape := shape (snd e);
                           data := vscale t (data (snd e)) |})) dp.

(** The inner product of two assignments of arrays to ids, over the ids of
    the first. *)
Definition dict_inner {R : Type} `{Num R} (g dp : dict (ndarray R)) : R :=
  fold_right (fun e s => add (match dict_get (fst e) dp with
                              | Some d => dot (flatten (snd e)) (flatten d)
                              | None => zero
                              end) s) zero g.

(** The inner product of a coefficient perturbation [(delc, delA, delb)]
    with coefficients [(c, A)] as [apply_parameters] returns them: [delc]
    pairs with [c] without its last entry, the offset [d]; [delA] pairs with
    the first columns of [A], and [delb] with its last column, the offset
    [b]. *)
Definition coeff_inner {R : Type} `{Num R} (delc : list R) (delA : matrix R)
  (delb : list R) (cA : list R * matrix R) : R :=
  add (add (dot delc (removelast (fst cA))) (mat_inner delA (snd cA)))
      (dot delb (column (ncols delA) (snd cA))).

(** [a*g1 + b*g2] for two results of [apply_param_jac], which list the same
    ids in the same order *)
Definition dict_lincomb_zip {R : Type} `{Num R} (a : R)
  (g1 : dict (ndarray R)) (b : R) (g2 : dict (ndarray R))
  : dict (ndarray R) :=
  map (fun e => (fst (fst e), arr_lincomb a (snd (fst e)) b (snd (snd e))))
      (combine g1 g2).

(** The ranges of the parameter vector that the items of [param_id_to_col]
    assign: one column to the constant term and [size] columns to a
    parameter. *)
Definition item_ranges {R : Type} (CONSTANT_ID : Z)
  (self : ParamConeProg R) (items : list (Z * Z)) : list (Z * nat) :=
  flat_map (fun e => if Z.eqb (fst e) CONSTANT_ID then [(snd e, 1)]
                     else match dict_get (fst e) (id_to_param self) with
                          | Some p => [(snd e, param_size p)]
                          | None => []
                          end)
           items.

Definition param_ranges {R : Type} (CONSTANT_ID : Z)
  (self : ParamConeProg R) : list (Z * nat) :=
  item_ranges CONSTANT_ID self (param_id_to_col self).

Fixpoint nodupb (l : list Z) : bool :=
  match l with
  | [] => true
  | k :: l' => negb (id_in k l') && nodupb l'
  end.

(** The layout of a well-formed program: [param_id_to_col] is a dictionary,
    the id of the constant term is not the id of a parameter, no parameter
    is empty, the column ranges lie within the parameter vector and do not
    overlap, and [c] has one row per column of [x] and one for the
    offset. *)
Definition param_layout_ok {R : Type} (CONSTANT_ID : Z)
  (self : ParamConeProg R) : bool :=
  nodupb (dict_keys (param_id_to_col self))
  && negb (id_in CONSTANT_ID (map (@param_id R) (parameters self)))
  && forallb (fun p => negb (Nat.eqb (param_size p) 0)) (parameters self)
  && ranges_within (total_param_size self + 1)
       (param_ranges CONSTANT_ID self)
  && ranges_disjoint (total_param_size self + 1)
       (param_ranges CONSTANT_ID self)
  && Nat.eqb (nrows (prog_c self)) (var_size (prog_x self) + 1).

(** A coefficient perturbation of the shape of the coefficients: [delc] has
    an entry per column of [x], [delA] a row per constraint row and a
    column per column of [x], [delb] an entry per constraint row. *)
Definition coeff_shapes_ok {R : Type} (self : ParamConeProg R)
  (delc : list R) (delA : matrix R) (delb : list R) : bool :=
  let n := var_size (prog_x self) in
  let m := nrows (prog_A self) / (n + 1) in
  Nat.eqb (length delc) n
  && well_shaped delA && Nat.eqb (ncols delA) n && Nat.eqb (nrows delA) m
  && Nat.eqb (length delb) m.

(** Every value given for a parameter has as many entries as the
    parameter. *)
Definition values_fit {R : Type} (self : ParamConeProg R)
  (p : dict (ndarray R)) : bool :=
  forallb (fun e => match dict_get (fst e) (id_to_param self) with
                    | Some pr => Nat.eqb (length (data (snd e)))
                                   (param_size pr)
                    | None => true
                    end) p.

(** The inner product of the slices of [y] at the ranges of the parameters
    with the values [dp]. *)
Fixpoint jac_pairing {R : Type} `{Num R} (CONSTANT_ID : Z)
  (self : ParamConeProg R) (y : list R) (dp : dict (ndarray R))
  (items : list (Z * Z)) : R :=
  match items with
  | [] => zero
  | (k, col) :: items' =>
      add (if Z.eqb k CONSTANT_ID then zero
           else match dict_get k (id_to_param self), dict_get k dp with
                | Some p, Some d =>
                    dot (py_slice y col (Z.of_nat (param_size p) + col))
                        (flatten d)
                | _, _ => zero
                end)
          (jac_pairing CONSTANT_ID self y dp items')
  end.

(** The values stored in the parameters, as an assignment of values to
    ids. *)
Definition stored_values {R : Type} (self : ParamConeProg R)
  : dict (ndarray R) :=
  flat_map (fun e => match value (snd e) with
                     | Some a => [(fst e, a)]
                     | None => []
                     end)
           (id_to_param self).

(** The values that a call without a mapping reads: the stored value of a
    parameter, and for a parameter without one the zero-dimensional array
    that holds NaN. *)
Definition read_values {R : Type} `{Num R} (self : ParamConeProg R)
  : dict (ndarray R) :=
  map (fun e => (fst e, match value (snd e) with
                        | Some a => a
                        | None => {| shape := []; data := [nan] |}
                        end))
      (id_to_param self).

(** ** Values of the shapes of their variables *)

(** An entry of [del_vars] whose id is the id of a variable with a column,
    and whose value has the shape of that variable. *)
Definition fits_variable {R : Type} (self : ParamConeProg R)
  (e : Z * ndarray R) : Prop :=
  exists var col,
    dict_get (fst e) (id_to_var self) = Some var /\
    dict_get (fst e) (var_id_to_col self) = Some col /\
    shape (snd e) = var_shape var /\
    length (data (snd e)) = var_size var.

(** ** The dual variables that [invert] reports *)

(** The ids under which [invert] stores the dual values: those of the old
    dual variables that [dv_id_map] gives for the dual variables of the
    constraints, in the order of the constraints. *)
Definition old_ids (inverse_data : InverseData) (dvs : list variable)
  : list Z :=
  flat_map (fun dv => match dict_get (var_id dv) (dv_id_map inverse_data) with
                      | Some dv_old => [var_id dv_old]
                      | None => []
                      end) dvs.

Definition old_dual_ids (inverse_data : InverseData) : list Z :=
  old_ids inverse_data
    (flat_map dual_variables (inv_constraints inverse_data)).

(** [solution] with other primal values, and with other dual values. *)
Definition with_primal_vars {R : Type} (solution : Solution R)
  (pv : dict (ndarray R)) : Solution R :=
  {| status := status solution; opt_val := opt_val solution;
     primal_vars := pv; dual_vars := dual_vars solution;
     attr := attr solution |}.

Definition with_dual_vars {R : Type} (solution : Solution R)
  (dv : option (dict (ndarray R))) : Solution R :=
  {| status := status solution; opt_val := opt_val solution;
     primal_vars := primal_vars solution; dual_vars := dv;
     attr := attr solution |}.

(** ** [extract_mip_idx] *)

(** A variable with its boolean and integer index sets, each a list of
    multi-indices into the shape of the variable. *)
Record mip_variable : Type := {
  mip_var : variable;
  boolean_idx : list (list Z);
  integer_idx : list (list Z)
}.

(** [a < b] on tuples of integers, which Python compares
    lexicographically. *)
Fixpoint tuple_ltb (a b : list nat) : bool :=
  match a, b with
  | _, [] => false
  | [], _ :: _ => true
  | x :: a', y :: b' => (x <? y) || ((x =? y) && tuple_ltb a' b')
  end.

(** [max(shape, (1,))]: the first argument stays unless the second is
    greater. *)
Definition max_shape (s : list nat) : list nat :=
  if tuple_ltb s [1] then [1] else s.

(** The length of the shortest of some tuples. *)
Definition min_length (idx : list (list Z)) : nat :=
  match idx with
  | [] => 0
  | t :: ts => fold_right (fun m n => Nat.min (length m) n) (length t) ts
  end.

(** [list(zip( * idx))]: one tuple per position, as many positions as the
    shortest multi-index has. *)
Definition zip_star (idx : list (list Z)) : list (list Z) :=
  map (fun k => map (fun m => nth k m 0%Z) idx) (seq 0 (min_length idx)).

(** [np.intp], the type of an index, and [np.uint64] have 64 bits. *)
Definition intp_max : Z := 9223372036854775807.
Definition uint64_max : Z := 18446744073709551615.

(** The strides of order 'F', the running products [d0], [d0*d1], ... of
    the dimensions from [s] on, fit an [intp]. *)
Fixpoint strides_fit (dims : list nat) (s : Z) : bool :=
  match dims with
  | [] => true
  | d :: dims' =>
      (s * Z.of_nat d <=? intp_max)%Z
      && strides_fit dims' (s * Z.of_nat d)%Z
  end.

(** The dimensions that [np.ravel_multi_index] takes: fewer than
    [NPY_MAXARGS] of them (32 in the NumPy releases of this code), each an
    [intp], with strides and a size that fit an [intp]; it raises
    [ValueError] for others. *)
Definition dims_ok (dims : list nat) : bool :=
  (length dims <? 32)
  && forallb (fun d => (Z.of_nat d <=? intp_max)%Z) dims
  && strides_fit dims 1%Z.

(** The coordinates of one dimension, a tuple of Python integers, make an
    array of integers when all of them fit [int64], or all of them are
    non-negative and fit [uint64]; any other tuple makes an array of
    floats or of objects, which [np.ravel_multi_index] rejects with
    [TypeError]. An array of [uint64] is cast to [intp]; entries beyond
    [intp_max] are out of bounds before and after. *)
Definition int_coords (c : list Z) : bool :=
  forallb (fun i => (- intp_max - 1 <=? i) && (i <=? intp_max))%Z c
  || forallb (fun i => (0 <=? i) && (i <=? uint64_max))%Z c.

(** One point of [np.ravel_multi_index(_, dims, order='F')], once the
    dimensions and the coordinate arrays are accepted: there is one
    coordinate per dimension, each within its dimension, and the first
    coordinate varies fastest. *)
Fixpoint ravel_F (dims : list nat) (coords : list Z) : result Z :=
  match dims, coords with
  | [], [] => Ok 0%Z
  | d :: dims', i :: coords' =>
      if ((0 <=? i) && (i <? Z.of_nat d))%Z
      then r <- ravel_F dims' coords' ;; Ok (i + Z.of_nat d * r)%Z
      else Raise ValueError
  | _, _ => Raise ValueError
  end.

Fixpoint map_result {A B : Type} (f : A -> result B) (l : list A)
  : result (list B) :=
  match l with
  | [] => Ok []
  | a :: l' => b <- f a ;; bs <- map_result f l' ;; Ok (b :: bs)
  end.

(** [np.ravel_multi_index(multi_index, dims, order='F')] for a list of
    tuples of one length, one tuple of coordinates per dimension. The
    dimensions are checked first, then the number of tuples, then the
    tuples are converted to arrays of indices, and then every point is
    checked against the dimensions. *)
Definition np_ravel_multi_index (multi_index : list (list Z))
  (dims : list nat) : result (list Z) :=
  if dims_ok dims then
    if Nat.eqb (length multi_index) (length dims) then
      if forallb int_coords multi_index
      then map_result
             (fun j => ravel_F dims (map (fun c => nth j c 0%Z) multi_index))
             (seq 0 (match multi_index with
                     | [] => 0
                     | c :: _ => length c
                     end))
      else Raise TypeError
    else Raise ValueError
  else Raise ValueError.

(** The inner function of [extract_mip_idx]; an index of the result is the
    one-entry tuple [(vert_offset + idx,)]. *)
Definition ravel_multi_index (multi_index : list (list Z))
  (x : mip_variable) (vert_offset : Z) : result (list (list Z)) :=
  ravel_idx <- np_ravel_multi_index multi_index
                 (max_shape (var_shape (mip_var x))) ;;
  Ok (map (fun idx => [(vert_offset + idx)%Z]) ravel_idx).

(** [acc += ravel_multi_index(list(zip( * idx)), x, vert_offset)], under
    [if idx]. *)
Definition extend_mip_idx (idx : list (list Z)) (x : mip_variable)
  (vert_offset : Z) (acc : list (list Z)) : result (list (list Z)) :=
  match idx with
  | [] => Ok acc
  | _ :: _ =>
      r <- ravel_multi_index (zip_star idx) x vert_offset ;;
      Ok (acc ++ r)
  end.

Fixpoint extract_mip_loop (variables : list mip_variable) (vert_offset : Z)
  (boolean_acc integer_acc : list (list Z))
  : result (list (list Z) * list (list Z)) :=
  match variables with
  | [] => Ok (boolean_acc, integer_acc)
  | x :: variables' =>
      b <- extend_mip_idx (boolean_idx x) x vert_offset boolean_acc ;;
      i <- extend_mip_idx (integer_idx x) x vert_offset integer_acc ;;
      extract_mip_loop variables'
        (vert_offset + Z.of_nat (var_size (mip_var x)))%Z b i
  end.

Definition extract_mip_idx (variables : list mip_variable)
  : result (list (list Z) * list (list Z)) :=
  extract_mip_loop variables 0%Z [] [].

(** The entry that a multi-index [m] of the variable [x] gets when [x]
    starts at [off]: the Fortran-order position of [m] in the shape of [x],
    moved by [off]. Coordinates beyond the dimensions are not read. *)
Definition mip_entry (x : mip_variable) (off : Z) (m t : list Z) : Prop :=
  exists r,
    ravel_F (max_shape (var_shape (mip_var x)))
      (firstn (length (max_shape (var_shape (mip_var x)))) m) = Ok r /\
    t = [(off + r)%Z].

(** The blocks of entries of a list of variables laid out from [off] on,
    one block per variable and one entry per multi-index. *)
Inductive blocks_of (idx_of : mip_variable -> list (list Z))
  : Z -> list mip_variable -> list (list (list Z)) -> Prop :=
| blocks_nil (off : Z) : blocks_of idx_of off [] []
| blocks_cons (off : Z) (x : mip_variable) (xs : list mip_variable)
    (blk : list (list Z)) (blks : list (list (list Z))) :
    Forall2 (mip_entry x off) (idx_of x) blk ->
    blocks_of idx_of (off + Z.of_nat (var_size (mip_var x)))%Z xs blks ->
    blocks_of idx_of off (x :: xs) (blk :: blks).


(** A multi-index with one coordinate per dimension of the variable, each
    within its dimension. *)
Definition mip_index_ok (x : mip_variable) (m : list Z) : bool :=
  is_ok (ravel_F (max_shape (var_shape (mip_var x))) m).

(** A variable with indices has dimensions that [np.ravel_multi_index]
    takes. *)
Definition mip_dims_ok (x : mip_variable) : bool :=
  match boolean_idx x, integer_idx x with
  | [], [] => true
  | _, _ => dims_ok (max_shape (var_shape (mip_var x)))
  end.

(** An integer that fits [int64]. *)
Definition fits_int64 (i : Z) : Prop :=
  (- intp_max - 1 <= i <= intp_max)%Z.


(** Every multi-index has one coordinate per dimension. *)
Definition exact_arity (idx_of : mip_variable -> list (list Z))
  (variables : list mip_variable) : Prop :=
  forall x m, In x variables -> In m (idx_of x) ->
              length m = length (max_shape (var_shape (mip_var x))).

(** ** [Parameter] *)

(** ["%d" % n] *)
Definition str_of_int (n : Z) : string :=
  NilEmpty.string_of_int (Z.to_int n).

(** What [Parameter.__init__] sets itself: the id, the name and the
    constancy flag. *)
Record parameter_leaf : Type := {
  leaf_id : Z;
  leaf_name : string;
  leaf_is_constant : bool
}.

(** Lines 63-70 and 74 of [Parameter.__init__]; the initialisation of the
    leaf in between (line 73, not among the sources) is taken to return.
    [PARAM_PREFIX] is [s.PARAM_PREFIX], and [next] the next free id of
    [lu.get_id]. *)
Definition Parameter_init (PARAM_PREFIX : string) (name : option string)
  (id : option Z) (next : Z) : parameter_leaf * Z :=
  let r := match id with
           | None => get_id next
           | Some i => (i, next)
           end in
  ({| leaf_id := fst r;
      leaf_name := match name with
                   | None => PARAM_PREFIX ++ str_of_int (fst r)
                   | Some n => n
                   end;
      leaf_is_constant := true |}, snd r).

(** ** Layouts laid out one after the other *)

(** The column ranges of blocks of the given sizes, one after the other
    from [offset] on. *)
Fixpoint ranges_from (sizes : list nat) (offset : Z) : list (Z * nat) :=
  match sizes with
  | [] => []
  | n :: sizes' => (offset, n) :: ranges_from sizes' (offset + Z.of_nat n)%Z
  end.

(** ** Concrete data for the examples below *)

Definition ERROR_ex : list string := ["solver_error"%string].
Definition SOLUTION_PRESENT_ex : list string :=
  ["optimal"%string; "optimal_inaccurate"%string].

Definition flat (l : list Z) : ndarray Z :=
  {| shape := [length l]; data := l |}.

(** Two variables, a vector of two entries at column 0 and a scalar at
    column 2. *)
Definition inverse_data_ex (is_min : bool) : InverseData :=
  {| var_offsets := [(1, 0); (2, 2)]%Z;
     var_shapes := [(1%Z, [2]); (2%Z, [])];
     param_id_map := [];
     dv_id_map := [(21%Z, {| var_id := 11; var_shape := [2] |})];
     inv_constraints :=
       [{| kind := NonPos; constr_id := 5;
           args := [ELeaf 1 [2]]; axis := 0;
           dual_variables := [{| var_id := 21; var_shape := [2] |}] |}];
     minimize := is_min |}.

Definition solution_ex (st : string) (v : option Z) : Solution Z :=
  {| status := st; opt_val := v;
     primal_vars := [(100%Z, flat [1; 2; 3]%Z)];
     dual_vars := Some [(200%Z, flat [7; 8]%Z)];
     attr := [] |}.

(** The same solution with further entries in both maps. *)
Definition solution_ex_more (st : string) (v : option Z) : Solution Z :=
  {| status := st; opt_val := v;
     primal_vars := [(100%Z, flat [1; 2; 3]%Z); (101%Z, flat [9]%Z)];
     dual_vars := Some [(200%Z, flat [7; 8]%Z); (201%Z, flat [0]%Z)];
     attr := [] |}.

(** An expression over two parameters, both constant at first, and a block
    that raises. *)
Definition scope_expr_ex : scope_expr :=
  {| expr_parameters := [1; 2]%Z; expr_has_variables := false |}.

Definition store_ex : store :=
  {| is_constant_flag := [(1%Z, true); (2%Z, true)];
     cached_constant := true |}.

Definition raising_body (st : store) : store * outcome :=
  (st, Exception ValueError).

(** A problem with one equality constraint, whose dual variable has id 11,
    and a [stuffed_objective] for it. *)
Definition dual_11 : variable := {| var_id := 11; var_shape := [2] |}.

Definition problem_eq : Problem Z :=
  {| objective_is_minimize := true;
     objective_expr := ELeaf 1 [2];
     problem_constraints :=
       [{| kind := Equality; constr_id := 10;
           args := [ELeaf 1 [2]; ELeaf 2 [2]]; axis := 0;
           dual_variables := [dual_11] |}];
     problem_variables :=
       [{| var_id := 1; var_shape := [2] |};
        {| var_id := 2; var_shape := [2] |}];
     problem_parameters := [] |}.

Definition stuffed_objective_ex (problem : Problem Z) (next : Z)
  : (expr * variable * Z) * Z :=
  let i := get_id next in
  ((EStuffed 0 [], {| var_id := fst i; var_shape := [x_length problem] |},
    0%Z), snd i).

Definition affine_ex (_ : InverseData) (l : list expr) : matrix Z :=
  {| ncols := 1; rows := [] |}.

(** A program over one scalar variable with two scalar parameters [p]
    (id 7) and [q] (id 8), both with a stored value:
    minimize [(p + q + 3) x + 4] subject to one constraint with coefficients
    [2 p x + (q + 5)]. *)
Definition scalar (a : Z) : ndarray Z := {| shape := []; data := [a] |}.

Definition prog_ex : ParamConeProg Z :=
  {| prog_c := {| ncols := 3; rows := [[1; 1; 3]; [0; 0; 4]]%Z |};
     prog_x := {| var_id := 100; var_shape := [1] |};
     prog_A := {| ncols := 3; rows := [[2; 0; 0]; [0; 1; 5]]%Z |};
     variables := [{| var_id := 1; var_shape := [] |}];
     var_id_to_col := [(1, 0)]%Z;
     constraints := [];
     parameters :=
       [{| param_id := 7; param_shape := []; value := Some (scalar 2) |};
        {| param_id := 8; param_shape := []; value := Some (scalar 6) |}];
     param_id_to_col := [(7, 0); (8, 1); (-1, 2)]%Z |}.

(** Numbers with NaN, for an example with an unset value; every operation
    on NaN gives NaN. *)
Inductive xnum : Set := Fin (z : Z) | NaN.

Definition xnum_op2 (f : Z -> Z -> Z) (a b : xnum) : xnum :=
  match a, b with
  | Fin x, Fin y => Fin (f x y)
  | _, _ => NaN
  end.

#[export] Instance Num_xnum : Num xnum | 10 := {
  zero := Fin 0;
  one := Fin 1;
  add := xnum_op2 Z.add;
  mul := xnum_op2 Z.mul;
  sub := xnum_op2 Z.sub;
  neg := fun a => match a with Fin x => Fin (- x) | NaN => NaN end;
  nan := NaN
}.

(** A program of the layout of [prog_ex] over these numbers, in which [p]
    has the value 2 and [q] has none. *)
Definition prog_unset : ParamConeProg xnum :=
  {| prog_c := {| ncols := 3;
                  rows := map (map Fin) [[1; 1; 3]; [2; 1; 4]]%Z |};
     prog_x := {| var_id := 100; var_shape := [1] |};
     prog_A := {| ncols := 3;
                  rows := map (map Fin) [[2; 3; 1]; [1; 1; 5]]%Z |};
     variables := [{| var_id := 1; var_shape := [] |}];
     var_id_to_col := [(1, 0)]%Z;
     constraints := [];
     parameters :=
       [{| param_id := 7; param_shape := [];
           value := Some {| shape := []; data := [Fin 2] |} |};
        {| param_id := 8; param_shape := []; value := None |}];
     param_id_to_col := [(7, 0); (8, 1); (-1, 2)]%Z |}.

(** Two assignments of values to [p] and [q]. *)
Definition values_1 : dict (ndarray Z) := [(7%Z, scalar 1); (8%Z, scalar 1)].
Definition values_2 : dict (ndarray Z) := [(7%Z, scalar 2); (8%Z, scalar 2)].

(** A perturbation of the coefficients of [prog_ex]. *)
Definition delA_ex : matrix Z := {| ncols := 1; rows := [[1%Z]] |}.

(** A program whose three variables fill the five columns of [x]. *)
Definition prog_split : ParamConeProg Z :=
  {| prog_c := {| ncols := 1; rows := [] |};
     prog_x := {| var_id := 9; var_shape := [5] |};
     prog_A := {| ncols := 1; rows := [] |};
     variables :=
       [{| var_id := 1; var_shape := [2] |};
        {| var_id := 2; var_shape := [] |};
        {| var_id := 3; var_shape := [1; 2] |}];
     var_id_to_col := [(1, 0); (2, 2); (3, 3)]%Z;
     constraints := [];
     parameters := [];
     param_id_to_col := [] |}.

(** Three variables with index sets: a 2 by 3 matrix with two boolean
    entries, a scalar that is an integer, and a vector of four entries with
    one boolean and two integer entries. *)
Definition mip_vars_ex : list mip_variable :=
  [{| mip_var := {| var_id := 1; var_shape := [2; 3] |};
      boolean_idx := [[0; 0]; [1; 2]]%Z; integer_idx := [] |};
   {| mip_var := {| var_id := 2; var_shape := [] |};
      boolean_idx := []; integer_idx := [[0]]%Z |};
   {| mip_var := {| var_id := 3; var_shape := [4] |};
      boolean_idx := [[3]]%Z; integer_idx := [[1]; [2]]%Z |}].

(** A problem with one second-order cone constraint along axis 1. *)
Definition problem_soc : Problem Z :=
  {| objective_is_minimize := true;
     objective_expr := ELeaf 1 [2];
     problem_constraints :=
       [{| kind := SOC; constr_id := 20;
           args := [ELeaf 1 [2]; ELeaf 3 [2; 3]]; axis := 1;
           dual_variables :=
             [{| var_id := 21; var_shape := [2] |};
              {| var_id := 22; var_shape := [2; 3] |}] |}];
     problem_variables :=
       [{| var_id := 1; var_shape := [2] |};
        {| var_id := 3; var_shape := [2; 3] |}];
     problem_parameters := [] |}.

(** What a solver returns for the stuffed [problem_eq]: four primal and
    two dual entries. *)
Definition solution_eq : Solution Z :=
  {| status := "optimal"; opt_val := Some 5%Z;
     primal_vars := [(100%Z, flat [1; 2; 3; 4]%Z)];
     dual_vars := Some [(101%Z, flat [7; 8]%Z)];
     attr := [] |}.

(** A problem over two parameters, a vector of two entries and a scalar. *)
Definition problem_params : Problem Z :=
  {| objective_is_minimize := true;
     objective_expr := ELeaf 1 [2];
     problem_constraints := [];
     problem_variables := [{| var_id := 1; var_shape := [2] |}];
     problem_parameters :=
       [{| param_id := 7; param_shape := [2]; value := None |};
        {| param_id := 8; param_shape := []; value := Some (scalar 6) |}] |}.

Unset Implicit Arguments.

(** * Properties *)

(** ** Dictionaries *)

Lemma dict_get_set {V : Type} (k k' : Z) (v : V) (d : dict V) :
  dict_get k (dict_set k' v d) = if Z.eqb k k' then Some v else dict_get k d.
Proof.
  induction d as [|[k0 v0] d IH]; simpl.
  - destruct (Z.eqb_spec k k'); reflexivity.
  - destruct (Z.eqb_spec k' k0) as [->|Hne]; simpl.
    + destruct (Z.eqb_spec k k0); reflexivity.
    + rewrite IH. destruct (Z.eqb_spec k k0) as [->|]; [|reflexivity].
      destruct (Z.eqb_spec k0 k'); congruence.
Qed.

Lemma dict_set_In_inv {V : Type} (k k' : Z) (v v' : V) (d : dict V) :
  In (k', v') (dict_set k v d) -> (k' = k /\ v' = v) \/ In (k', v') d.
Proof.
  induction d as [|[k0 v0] d IH]; simpl.
  - intros [E|[]]. inversion E. auto.
  - destruct (Z.eqb_spec k k0) as [->|Hne]; simpl.
    + intros [E|Hin]; [inversion E|]; auto.
    + intros [E|Hin]; [auto|]. destruct (IH Hin); auto.
Qed.

Lemma dict_set_In_same {V : Type} (k : Z) (v : V) (d : dict V) :
  In (k, v) (dict_set k v d).
Proof.
  induction d as [|[k0 v0] d IH]; simpl; [auto|].
  destruct (Z.eqb_spec k k0); simpl; auto.
Qed.

Lemma dict_set_In_other {V : Type} (k k' : Z) (v v' : V) (d : dict V) :
  k' <> k -> In (k', v') d -> In (k', v') (dict_set k v d).
Proof.
  intros Hne. induction d as [|[k0 v0] d IH]; simpl; [tauto|].
  intros [E|Hin].
  - inversion E; subst. destruct (Z.eqb_spec k k'); [congruence|].
    simpl; auto.
  - destruct (Z.eqb_spec k k0); simpl; auto.
Qed.

Lemma dict_set_key_kept {V : Type} (k k' : Z) (v : V) (d : dict V) :
  In k' (dict_keys d) -> In k' (dict_keys (dict_set k v d)).
Proof.
  unfold dict_keys. induction d as [|[k0 v0] d IH]; simpl; [tauto|].
  destruct (Z.eqb_spec k k0) as [->|]; simpl; tauto.
Qed.

Lemma dict_get_In {V : Type} (k : Z) (v : V) (d : dict V) :
  NoDup (dict_keys d) -> In (k, v) d -> dict_get k d = Some v.
Proof.
  unfold dict_keys. induction d as [|[k0 v0] d IH]; simpl; [tauto|].
  intros Hnd [E|Hin].
  - inversion E; subst. now rewrite Z.eqb_refl.
  - inversion Hnd as [|? ? Hnot Hnd']; subst.
    destruct (Z.eqb_spec k k0) as [->|].
    + exfalso. apply Hnot. now apply (in_map fst) in Hin.
    + auto.
Qed.

Lemma dict_get_Some_In {V : Type} (k : Z) (v : V) (d : dict V) :
  dict_get k d = Some v -> In (k, v) d.
Proof.
  induction d as [|[k0 v0] d IH]; simpl; [discriminate|].
  destruct (Z.eqb_spec k k0) as [->|]; [intros [= ->]|]; auto.
Qed.

Lemma dict_set_fresh {V : Type} (k : Z) (v : V) (d : dict V) :
  ~ In k (dict_keys d) -> dict_set k v d = d ++ [(k, v)].
Proof.
  unfold dict_keys. induction d as [|[k0 v0] d IH]; intros Hk; simpl;
    [reflexivity|].
  destruct (Z.eqb_spec k k0) as [->|Hne].
  - exfalso. apply Hk. now left.
  - rewrite IH; [reflexivity|]. intros Hin. apply Hk. now right.
Qed.

Lemma id_in_spec (k : Z) (s : list Z) : id_in k s = true <-> In k s.
Proof.
  unfold id_in. rewrite existsb_exists. split.
  - intros [y [Hy E]]. apply Z.eqb_eq in E. now subst.
  - intros Hin. exists k. split; [assumption|apply Z.eqb_refl].
Qed.

(** The dictionary comprehension [{f(e): e for e in l}] has exactly the
    keys [f(e)]. *)
Lemma dict_of_list_get {V : Type} (key : V -> Z) (l : list V) (d0 : dict V)
  (k : Z) :
  (exists v, dict_get k
               (fold_left (fun d e => dict_set (key e) e d) l d0) = Some v)
  <-> In k (map key l) \/ exists v, dict_get k d0 = Some v.
Proof.
  revert d0. induction l as [|e l IH]; intros d0; simpl.
  - tauto.
  - rewrite IH. rewrite dict_get_set.
    destruct (Z.eqb_spec k (key e)) as [->|Hne].
    + split; [auto|]. intros _. right. eauto.
    + split.
      * intros [Hin|Hex]; auto.
      * intros [[E|Hin]|Hex]; [congruence|auto|auto].
Qed.

(** ** Slices *)

Lemma range_okb_spec (n : nat) (r : Z * nat) :
  range_okb n r = true <-> range_ok n r.
Proof.
  unfold range_okb, range_ok.
  rewrite orb_true_iff, andb_true_iff, Nat.eqb_eq, !Z.leb_le. tauto.
Qed.

Lemma py_index_inside (n : nat) (i : Z) :
  (0 <= i <= Z.of_nat n)%Z -> py_index n i = Z.to_nat i.
Proof.
  intros Hi. unfold py_index.
  destruct (Z.ltb_spec i 0); [lia|]. f_equal. lia.
Qed.

Lemma slice_bounds (n : nat) (col : Z) (sz : nat) :
  range_ok n (col, sz) ->
  py_index n (Z.of_nat sz + col) - py_index n col = sz /\
  (sz <> 0 -> py_index n col = Z.to_nat col /\ Z.to_nat col + sz <= n).
Proof.
  intros [Hz|[H0 Hn]]; simpl in *.
  - subst sz. simpl. split; [lia|congruence].
  - rewrite !py_index_inside by lia. split; lia.
Qed.

Lemma py_slice_length {R : Type} (v : list R) (col : Z) (sz : nat) :
  range_ok (length v) (col, sz) ->
  length (py_slice v col (Z.of_nat sz + col)) = sz.
Proof.
  intros Hok. unfold py_slice.
  destruct (slice_bounds _ _ _ Hok) as [-> Hin].
  destruct sz as [|sz]; [reflexivity|].
  destruct Hin as [Hlo Hle]; [congruence|].
  rewrite length_firstn, length_skipn. lia.
Qed.

Lemma in_range_nat (i : nat) (col : Z) (sz : nat) :
  (0 <= col)%Z ->
  in_range (Z.of_nat i) (col, sz) = true <->
  Z.to_nat col <= i < Z.to_nat col + sz.
Proof.
  intros H0. unfold in_range; simpl.
  rewrite andb_true_iff, Z.leb_le, Z.ltb_lt. lia.
Qed.

(** Writing back the slice of [v] that was read at a range makes the target
    agree with [v] on the range and leaves it alone elsewhere. *)
Lemma set_slice_of_slice {R : Type} (u v : list R) (col : Z) (sz : nat) :
  length u = length v ->
  range_ok (length v) (col, sz) ->
  exists u',
    set_slice u col (Z.of_nat sz + col)
      (py_slice v col (Z.of_nat sz + col)) = Ok u' /\
    length u' = length v /\
    forall i, nth_error u' i =
              if in_range (Z.of_nat i) (col, sz)
              then nth_error v i else nth_error u i.
Proof.
  intros Hlen Hok. unfold set_slice.
  rewrite (py_slice_length v _ _ Hok). rewrite Hlen.
  destruct (slice_bounds _ _ _ Hok) as [Hsz Hin]. rewrite Hsz, Nat.eqb_refl.
  eexists. split; [reflexivity|].
  destruct sz as [|sz].
  - assert (Hnil : py_slice v col (Z.of_nat 0 + col) = []).
    { apply length_zero_iff_nil. apply (py_slice_length v _ _ Hok). }
    rewrite Hnil, Nat.add_0_r. simpl. rewrite firstn_skipn.
    split; [assumption|]. intros i.
    replace (in_range (Z.of_nat i) (col, 0)) with false; [reflexivity|].
    unfold in_range; simpl. symmetry. apply andb_false_iff.
    rewrite Z.leb_gt, Z.ltb_ge. lia.
  - destruct Hin as [Hlo Hle]; [congruence|].
    assert (H0 : (0 <= col)%Z).
    { destruct Hok as [Hz|[H0 _]]; simpl in *; [discriminate|assumption]. }
    unfold py_slice. rewrite Hsz, Hlo.
    set (lo := Z.to_nat col) in *. set (n := S sz) in *.
    split.
    + rewrite !length_app, length_firstn, length_firstn, !length_skipn. lia.
    + intros i.
      destruct (in_range (Z.of_nat i) (col, n)) eqn:Hr.
      * apply in_range_nat in Hr; [|assumption]. fold lo in Hr.
        rewrite nth_error_app2 by (rewrite length_firstn; lia).
        rewrite length_firstn, Hlen, Nat.min_l by lia.
        rewrite nth_error_app1
          by (rewrite length_firstn, length_skipn; lia).
        rewrite nth_error_firstn.
        destruct (Nat.ltb_spec (i - lo) n); [|lia].
        rewrite nth_error_skipn. f_equal. lia.
      * assert (Hout : i < lo \/ lo + n <= i).
        { destruct (Nat.lt_ge_cases i lo); [auto|].
          destruct (Nat.lt_ge_cases i (lo + n)); [|auto].
          assert (in_range (Z.of_nat i) (col, n) = true)
            by (apply in_range_nat; [assumption|fold lo; lia]).
          congruence. }
        destruct Hout as [Hlt|Hge].
        -- rewrite nth_error_app1 by (rewrite length_firstn; lia).
           rewrite nth_error_firstn.
           destruct (Nat.ltb_spec i lo); [reflexivity|lia].
        -- rewrite nth_error_app2 by (rewrite length_firstn; lia).
           rewrite length_firstn, Hlen, Nat.min_l by lia.
           rewrite nth_error_app2
             by (rewrite length_firstn, length_skipn; lia).
           rewrite length_firstn, length_skipn, Nat.min_l by lia.
           rewrite nth_error_skipn. f_equal. lia.
Qed.

(** ** [split_solution] and [split_adjoint] *)

Section SplitRoundTrip.
Context {R : Type} `{Num R}.
Variable self : ParamConeProg R.
Variable v : list R.

Hypothesis keys_distinct : NoDup (dict_keys (var_id_to_col self)).
Hypothesis within :
  ranges_within (length v) (var_ranges self) = true.

Lemma var_ranges_In (k col : Z) (var : variable) :
  In (k, col) (var_id_to_col self) ->
  dict_get k (id_to_var self) = Some var ->
  In (col, var_size var) (var_ranges self).
Proof.
  intros Hin Hvar. unfold var_ranges. apply in_flat_map.
  exists (k, col). split; [assumption|]. simpl. rewrite Hvar. now left.
Qed.

Lemma var_ranges_inv (r : Z * nat) :
  In r (var_ranges self) ->
  exists k var,
    In (k, snd (A:=Z) (B:=Z) (k, fst r)) (var_id_to_col self) /\
    dict_get k (id_to_var self) = Some var /\ snd r = var_size var.
Proof.
  unfold var_ranges. rewrite in_flat_map. intros [[k col] [Hin Hr]].
  simpl in Hr. destruct (dict_get k (id_to_var self)) as [var|] eqn:Hvar;
    [|contradiction].
  destruct Hr as [<-|[]]. exists k, var. simpl. auto.
Qed.

Lemma range_ok_of_within (r : Z * nat) :
  In r (var_ranges self) -> range_ok (length v) r.
Proof.
  intros Hin. unfold ranges_within in within.
  rewrite forallb_forall in within. now apply range_okb_spec, within.
Qed.

Lemma active_has_var (k : Z) :
  id_in k (map var_id (variables self)) = true <->
  exists var, dict_get k (id_to_var self) = Some var.
Proof.
  rewrite id_in_spec. unfold id_to_var. rewrite dict_of_list_get.
  simpl. split; [auto|]. intros [Hin|[var Hv]]; [assumption|discriminate].
Qed.

(** [split_solution] returns; each entry is the slice of its variable, and
    every variable of an item has an entry. *)
Lemma split_solution_loop_spec (items : list (Z * Z))
  (acc : dict (ndarray R)) :
  incl items (var_id_to_col self) ->
  (forall k arr, In (k, arr) acc -> slice_of self v k arr) ->
  exists d,
    split_solution_loop self v (map var_id (variables self)) items acc
    = Ok d /\
    (forall k arr, In (k, arr) d -> slice_of self v k arr) /\
    (forall k, In k (dict_keys acc) -> In k (dict_keys d)) /\
    (forall k col var, In (k, col) items ->
       dict_get k (id_to_var self) = Some var -> In k (dict_keys d)).
Proof.
  revert acc. induction items as [|[k col] items IH]; intros acc Hincl Hacc.
  - exists acc. simpl. repeat split; auto. intros ? ? ? [].
  - simpl.
    assert (Hin : In (k, col) (var_id_to_col self))
      by (apply Hincl; now left).
    assert (Hincl' : incl items (var_id_to_col self))
      by (intros e He; apply Hincl; now right).
    destruct (id_in k (map var_id (variables self))) eqn:Hact.
    + apply active_has_var in Hact. destruct Hact as [var Hvar].
      unfold dict_getitem at 1. rewrite Hvar. simpl.
      assert (Hok : range_ok (length v) (col, var_size var))
        by (apply range_ok_of_within; eapply var_ranges_In; eauto).
      unfold np_reshape. rewrite (py_slice_length v _ _ Hok).
      unfold var_size at 2. rewrite Nat.eqb_refl. simpl.
      destruct (IH (dict_set k
                      {| shape := var_shape var;
                         data := py_slice v col
                                   (Z.of_nat (var_size var) + col) |} acc)
                  Hincl') as [d [Hd [Hgood [Hkeys Hcov]]]].
      { intros k' arr' Hin'. apply dict_set_In_inv in Hin'.
        destruct Hin' as [[-> ->]|Hin']; [|auto].
        exists col, var. repeat split; auto.
        now apply dict_get_In. }
      exists d. split; [exact Hd|]. split; [exact Hgood|]. split.
      * intros k' Hk'. apply Hkeys. now apply dict_set_key_kept.
      * intros k' col' var' [E|Hin'] Hvar'.
        -- inversion E; subst. apply Hkeys. unfold dict_keys.
           apply (in_map fst _ _ (dict_set_In_same k' _ acc)).
        -- eapply Hcov; eauto.
    + destruct (IH acc Hincl' Hacc) as [d [Hd [Hgood [Hkeys Hcov]]]].
      exists d. split; [exact Hd|]. split; [exact Hgood|].
      split; [exact Hkeys|].
      intros k' col' var' [E|Hin'] Hvar'.
      * inversion E; subst.
        assert (id_in k' (map var_id (variables self)) = true)
          by (apply active_has_var; eauto).
        congruence.
      * eapply Hcov; eauto.
Qed.

(** [split_adjoint] on slices of [v] returns a vector that agrees with
    [v] wherever an entry covers, or where the start vector agreed. *)
Lemma split_adjoint_loop_spec (d : dict (ndarray R)) (u : list R) :
  (forall k arr, In (k, arr) d -> slice_of self v k arr) ->
  length u = length v ->
  exists u',
    split_adjoint_loop self d u = Ok u' /\
    length u' = length v /\
    forall i,
      nth_error u i = nth_error v i \/
      (exists k col var,
          In k (dict_keys d) /\
          dict_get k (var_id_to_col self) = Some col /\
          dict_get k (id_to_var self) = Some var /\
          in_range (Z.of_nat i) (col, var_size var) = true) ->
      nth_error u' i = nth_error v i.
Proof.
  revert u. induction d as [|[k arr] d IH]; intros u Hgood Hlen.
  - exists u. simpl. repeat split; auto.
    intros i [Hi|[k [col [var [[] _]]]]]. exact Hi.
  - simpl. destruct (Hgood k arr (or_introl eq_refl))
      as [col [var [Hcol [Hvar [Hok Hdata]]]]].
    unfold dict_getitem. rewrite Hvar, Hcol. simpl. rewrite Hdata.
    destruct (set_slice_of_slice u v _ _ Hlen Hok) as [u1 [Hset [Hlen1 Hnth]]].
    rewrite Hset. simpl.
    destruct (IH u1) as [u' [Hloop [Hlen' Hagree]]];
      [intros; apply Hgood; now right|assumption|].
    exists u'. split; [exact Hloop|]. split; [exact Hlen'|].
    intros i Hi. apply Hagree. rewrite Hnth.
    destruct (in_range (Z.of_nat i) (col, var_size var)) eqn:Hr;
      [now left|].
    destruct Hi as [Hi|[k' [col' [var' [[E|Hk'] [Hc' [Hv' Hr']]]]]]].
    + now left.
    + simpl in E. subst k'. congruence.
    + right. exists k', col', var'. auto.
Qed.
End SplitRoundTrip.

(** C1. For a program whose [var_id_to_col] ranges cover [[0, x.size)]
    without gaps or overlaps, and a flat vector [v] of length [x.size]:
    [split_solution(v)] with the default [active_vars] returns a map, and
    [split_adjoint] of that map returns [v]. *)
Theorem split_adjoint_split_solution {R : Type} `{Num R}
  (self : ParamConeProg R) (v : list R) :
  NoDup (dict_keys (var_id_to_col self)) ->
  ranges_partition (var_size (prog_x self)) (var_ranges self) = true ->
  length v = var_size (prog_x self) ->
  exists d, split_solution self v None = Ok d /\ split_adjoint self d = Ok v.
Proof.
  intros Hnd Hpart Hlen. unfold ranges_partition in Hpart.
  apply andb_true_iff in Hpart. destruct Hpart as [Hpart _].
  apply andb_true_iff in Hpart. destruct Hpart as [Hwithin Hcover].
  rewrite <- Hlen in Hwithin.
  destruct (split_solution_loop_spec self v Hnd Hwithin
              (var_id_to_col self) [])
    as [d [Hd [Hgood [_ Hcov]]]].
  { apply incl_refl. }
  { intros ? ? []. }
  exists d. split; [exact Hd|].
  destruct (split_adjoint_loop_spec self v Hwithin d
              (repeat zero (var_size (prog_x self))) Hgood)
    as [u' [Hadj [Hlen' Hagree]]].
  { now rewrite repeat_length. }
  unfold split_adjoint. rewrite Hadj. f_equal.
  apply nth_error_ext. intros i.
  destruct (Nat.lt_ge_cases i (var_size (prog_x self))) as [Hi|Hi].
  - apply Hagree. right.
    unfold ranges_cover in Hcover. rewrite forallb_forall in Hcover.
    specialize (Hcover i). rewrite in_seq in Hcover.
    assert (Hex := Hcover ltac:(lia)). apply existsb_exists in Hex.
    destruct Hex as [[col sz] [Hin Hr]].
    destruct (var_ranges_inv self _ Hin) as [k [var [Hkc [Hvar Hsz]]]].
    simpl in Hkc, Hsz. subst sz.
    exists k, col, var. repeat split; auto.
    + eapply Hcov; eauto.
    + now apply dict_get_In.
  - transitivity (@None R).
    + apply nth_error_None. lia.
    + symmetry. apply nth_error_None. lia.
Qed.

Lemma split_adjoint_split_solution_witness :
  exists d,
    split_solution prog_split [10; 20; 30; 40; 50]%Z None = Ok d /\
    split_adjoint prog_split d = Ok [10; 20; 30; 40; 50]%Z.
Proof.
  refine (split_adjoint_split_solution prog_split [10; 20; 30; 40; 50]%Z
            _ _ _).
  - repeat constructor; simpl; intuition discriminate.
  - reflexivity.
  - reflexivity.
Defined.

(** ** [MatrixStuffing.invert] *)

Section InvertProperties.
Context {R : Type} `{Num R}.
Variables ERROR SOLUTION_PRESENT : list string.

(** The optimal value that [invert] reports when it returns. *)
Lemma invert_returns_opt_val (solution : Solution R)
  (inverse_data : InverseData) (r : Solution R) :
  invert ERROR SOLUTION_PRESENT solution inverse_data = Ok r ->
  invert_opt_val ERROR solution inverse_data = Ok (opt_val r) /\
  status r = status solution /\ attr r = attr solution.
Proof.
  unfold invert.
  destruct (invert_opt_val ERROR solution inverse_data) as [opt|e];
    simpl; [|discriminate].
  destruct (negb (status_in (status solution) SOLUTION_PRESENT)).
  - intros [= <-]. simpl. auto.
  - destruct (first_value (primal_vars solution)); simpl; [|discriminate].
    destruct (invert_primal_loop _ _ _ _); simpl; [|discriminate].
    destruct (dual_vars solution) as [dvs|]; simpl.
    + destruct (first_value dvs); simpl; [|discriminate].
      destruct (invert_dual_loop _ _ _ _ _); simpl; [|discriminate].
      intros [= <-]. simpl. auto.
    + intros [= <-]. simpl. auto.
Qed.

(** Without a solution present, [invert] stops after the sign of the
    optimal value. *)
Lemma invert_short_circuit (solution : Solution R)
  (inverse_data : InverseData) :
  status_in (status solution) SOLUTION_PRESENT = false ->
  invert ERROR SOLUTION_PRESENT solution inverse_data =
  opt <- invert_opt_val ERROR solution inverse_data ;;
  Ok {| status := status solution; opt_val := opt;
        primal_vars := []; dual_vars := Some [];
        attr := attr solution |}.
Proof. intros Hsp. unfold invert. now rewrite Hsp. Qed.

(** [invert] reads the two maps of the solution through their first
    values only. *)
Lemma invert_reads_first_values (s1 s2 : Solution R)
  (inverse_data : InverseData) :
  status s1 = status s2 ->
  opt_val s1 = opt_val s2 ->
  attr s1 = attr s2 ->
  first_value (primal_vars s1) = first_value (primal_vars s2) ->
  match dual_vars s1, dual_vars s2 with
  | Some d1, Some d2 => first_value d1 = first_value d2
  | None, None => True
  | _, _ => False
  end ->
  invert ERROR SOLUTION_PRESENT s1 inverse_data =
  invert ERROR SOLUTION_PRESENT s2 inverse_data.
Proof.
  intros Hst Hopt Hattr Hp Hd. unfold invert, invert_opt_val.
  rewrite Hst, Hopt, Hattr, Hp.
  destruct (dual_vars s1) as [d1|], (dual_vars s2) as [d2|];
    try contradiction; [rewrite Hd|]; reflexivity.
Qed.
End InvertProperties.

Section InvertReturns.
Context {R : Type} `{Num R}.
Variable inverse_data : InverseData.

Lemma invert_primal_loop_returns (x_opt : list R) (items : list (Z * Z))
  (primal : dict (ndarray R)) :
  forallb (fun e => match dict_get (fst e) (var_shapes inverse_data) with
                    | Some s =>
                        range_okb (length x_opt) (snd e, shape_size s)
                    | None => false
                    end) items = true ->
  exists d, invert_primal_loop inverse_data x_opt items primal = Ok d.
Proof.
  revert primal. induction items as [|[k off] items IH]; intros primal Hfit.
  - simpl. eauto.
  - simpl in Hfit. apply andb_true_iff in Hfit. destruct Hfit as [Hk Hfit].
    simpl. unfold dict_getitem.
    destruct (dict_get k (var_shapes inverse_data)) as [s|];
      [|discriminate].
    simpl. apply range_okb_spec in Hk. unfold np_reshape.
    replace (off + Z.of_nat (shape_size s))%Z
      with (Z.of_nat (shape_size s) + off)%Z by lia.
    rewrite (py_slice_length x_opt _ _ Hk), Nat.eqb_refl. simpl.
    apply IH, Hfit.
Qed.

Lemma invert_dv_loop_returns (dual_var : list R) (dvs : list variable)
  (offset : Z) (dual : dict (ndarray R)) :
  forallb (fun dv =>
             match dict_get (var_id dv) (dv_id_map inverse_data) with
             | Some _ => true
             | None => false
             end) dvs = true ->
  (0 <= offset)%Z ->
  (offset + Z.of_nat (total_size dvs)
   <= Z.of_nat (length dual_var))%Z ->
  exists d,
    invert_dv_loop inverse_data dual_var dvs offset dual
    = Ok ((offset
           + Z.of_nat (total_size dvs))%Z,
          d).
Proof.
  revert offset dual.
  induction dvs as [|dv dvs IH]; intros offset dual Hmap H0 Hlen.
  - simpl. rewrite Z.add_0_r. eauto.
  - simpl in Hmap, Hlen. apply andb_true_iff in Hmap.
    destruct Hmap as [Hdv Hmap]. simpl. unfold dict_getitem.
    destruct (dict_get (var_id dv) (dv_id_map inverse_data)) as [old|];
      [|discriminate].
    simpl. unfold np_reshape.
    assert (Hok : range_ok (length dual_var) (offset, var_size dv))
      by (right; simpl; lia).
    replace (offset + Z.of_nat (var_size dv))%Z
      with (Z.of_nat (var_size dv) + offset)%Z by lia.
    rewrite (py_slice_length dual_var _ _ Hok).
    change (shape_size (var_shape dv)) with (var_size dv).
    rewrite Nat.eqb_refl. simpl.
    destruct (IH (Z.of_nat (var_size dv) + offset)%Z
                (dict_set (var_id old)
                   {| shape := var_shape dv;
                      data := py_slice dual_var offset
                                (Z.of_nat (var_size dv) + offset) |} dual)
                Hmap ltac:(lia) ltac:(lia)) as [d Hd].
    exists d. rewrite Hd. f_equal. f_equal. lia.
Qed.

Lemma invert_dual_loop_returns (dual_var : list R)
  (constrs : list constraint) (offset : Z) (dual : dict (ndarray R)) :
  forallb (fun dv =>
             match dict_get (var_id dv) (dv_id_map inverse_data) with
             | Some _ => true
             | None => false
             end) (flat_map dual_variables constrs) = true ->
  (0 <= offset)%Z ->
  (offset + Z.of_nat (total_size (flat_map dual_variables constrs))
   <= Z.of_nat (length dual_var))%Z ->
  exists d,
    invert_dual_loop inverse_data dual_var constrs offset dual = Ok d.
Proof.
  revert offset dual.
  induction constrs as [|con constrs IH]; intros offset dual Hmap H0 Hlen.
  - simpl. eauto.
  - simpl in Hmap, Hlen. rewrite forallb_app in Hmap.
    apply andb_true_iff in Hmap. destruct Hmap as [Hcon Hmap].
    assert (Hsum : forall l1 l2 : list variable,
               total_size (l1 ++ l2) = total_size l1 + total_size l2).
    { intros l1 l2. induction l1 as [|a l1 IHl]; simpl; [reflexivity|].
      rewrite IHl. lia. }
    rewrite Hsum in Hlen. simpl.
    destruct (invert_dv_loop_returns dual_var (dual_variables con)
                offset dual Hcon H0 ltac:(lia)) as [d Hd].
    rewrite Hd. simpl. apply IH; [assumption|lia|lia].
Qed.

(** When the vectors of the solver hold the recorded layout, only the
    sign of the optimal value can make [invert] fail. *)
Lemma invert_returns (ERROR SOLUTION_PRESENT : list string)
  (solution : Solution R) (opt : option R) :
  invert_opt_val ERROR solution inverse_data = Ok opt ->
  status_in (status solution) SOLUTION_PRESENT = false
  \/ solution_fits solution inverse_data = true ->
  exists r,
    invert ERROR SOLUTION_PRESENT solution inverse_data = Ok r.
Proof.
  intros Hopt Hcase. unfold invert. rewrite Hopt. simpl.
  destruct (status_in (status solution) SOLUTION_PRESENT) eqn:Hsp;
    simpl; [|eauto].
  destruct Hcase as [|Hfit]; [discriminate|].
  unfold solution_fits in Hfit. apply andb_true_iff in Hfit.
  destruct Hfit as [Hp Hd].
  destruct (first_value (primal_vars solution)) as [x_opt|];
    [|discriminate]. simpl.
  destruct (invert_primal_loop_returns (flatten x_opt)
              (var_offsets inverse_data) [] Hp) as [primal Hprimal].
  rewrite Hprimal. simpl.
  destruct (dual_vars solution) as [dvs|]; simpl; [|eauto].
  destruct (first_value dvs) as [dual_var|]; [|discriminate]. simpl.
  unfold dual_fits in Hd. apply andb_true_iff in Hd.
  destruct Hd as [Hmap Hlen]. apply Nat.leb_le in Hlen.
  destruct (invert_dual_loop_returns (flatten dual_var)
              (inv_constraints inverse_data) 0 [] Hmap ltac:(lia)
              ltac:(lia)) as [dual Hdual].
  rewrite Hdual. simpl. eauto.
Qed.
End InvertReturns.

(** What [invert] does for a status outside the solution-present set when
    the sign flip does not raise, that is, when the optimal value is a
    number, or the status is an error status, or the objective was a
    minimize: it returns a solution with that status, the optimal value
    (sign-adjusted) and attributes, and empty primal and dual maps; no
    entry of the input maps and no layout of the inverse data is read. *)
Theorem invert_without_solution {R : Type} `{Num R}
  (ERROR SOLUTION_PRESENT : list string) (solution : Solution R)
  (inverse_data : InverseData) :
  status_in (status solution) SOLUTION_PRESENT = false ->
  opt_val solution <> None
  \/ status_in (status solution) ERROR = true
  \/ minimize inverse_data = true ->
  invert ERROR SOLUTION_PRESENT solution inverse_data =
  Ok {| status := status solution;
        opt_val := if negb (status_in (status solution) ERROR)
                      && negb (minimize inverse_data)
                   then option_map neg (opt_val solution)
                   else opt_val solution;
        primal_vars := [];
        dual_vars := Some [];
        attr := attr solution |}.
Proof.
  intros Hsp Hnum. rewrite invert_short_circuit by assumption.
  unfold invert_opt_val.
  destruct (status_in (status solution) ERROR), (minimize inverse_data);
    simpl; try reflexivity.
  destruct (opt_val solution); [reflexivity|].
  destruct Hnum as [Hn|[Hn|Hn]]; [congruence|discriminate|discriminate].
Qed.

Lemma invert_without_solution_witness :
  invert ERROR_ex SOLUTION_PRESENT_ex
    (solution_ex "infeasible" (Some 5%Z)) (inverse_data_ex false)
  = Ok {| status := "infeasible"; opt_val := Some (-5)%Z;
          primal_vars := []; dual_vars := Some []; attr := [] |}.
Proof.
  refine (invert_without_solution ERROR_ex SOLUTION_PRESENT_ex
            (solution_ex "infeasible" (Some 5%Z)) (inverse_data_ex false)
            _ _).
  - reflexivity.
  - left. discriminate.
Defined.

(** C4 fails in the code. The sign flip of lines 104-106 runs before the
    short-circuit of lines 108-111 and is guarded by the error statuses
    only. For a status that is neither a solution-present nor an error
    status, a maximize objective and no optimal value, [-None] raises
    [TypeError] and no solution is returned, whatever the maps hold. With
    an error status the same input passes the missing value through and
    gets the empty solution, and so does a minimize objective. *)
Theorem invert_without_solution_raises :
  status_in "infeasible_inaccurate" SOLUTION_PRESENT_ex = false /\
  status_in "infeasible_inaccurate" ERROR_ex = false /\
  invert ERROR_ex SOLUTION_PRESENT_ex
    (solution_ex "infeasible_inaccurate" None) (inverse_data_ex false)
  = Raise TypeError /\
  invert ERROR_ex SOLUTION_PRESENT_ex
    {| status := "infeasible_inaccurate"; opt_val := None;
       primal_vars := []; dual_vars := None; attr := [] |}
    (inverse_data_ex false)
  = Raise TypeError /\
  invert ERROR_ex SOLUTION_PRESENT_ex
    (solution_ex "solver_error" None) (inverse_data_ex false)
  = Ok {| status := "solver_error"; opt_val := None;
          primal_vars := []; dual_vars := Some []; attr := [] |} /\
  invert ERROR_ex SOLUTION_PRESENT_ex
    (solution_ex "infeasible_inaccurate" None) (inverse_data_ex true)
  = Ok {| status := "infeasible_inaccurate"; opt_val := None;
          primal_vars := []; dual_vars := Some []; attr := [] |}.
Proof. repeat split. Qed.

(** C5. Whenever [invert] returns, the optimal value it reports is the
    negated incoming one if the objective was a maximize and the status is
    not an error status, and the incoming one unchanged otherwise, in
    particular for every error status. And [invert] does return, provided
    the value to negate is a number and either no solution is present or
    the solver's vectors hold the recorded layout. *)
Theorem invert_opt_val_sign {R : Type} `{Num R}
  (ERROR SOLUTION_PRESENT : list string) (solution : Solution R)
  (inverse_data : InverseData) :
  let flip := negb (status_in (status solution) ERROR)
              && negb (minimize inverse_data) in
  (forall r,
      invert ERROR SOLUTION_PRESENT solution inverse_data = Ok r ->
      opt_val r = if flip then option_map neg (opt_val solution)
                  else opt_val solution) /\
  ((flip = true -> opt_val solution <> None) ->
   status_in (status solution) SOLUTION_PRESENT = false
   \/ solution_fits solution inverse_data = true ->
   exists r,
     invert ERROR SOLUTION_PRESENT solution inverse_data = Ok r /\
     opt_val r = if flip then option_map neg (opt_val solution)
                 else opt_val solution).
Proof.
  intros flip.
  assert (Hval : forall r,
             invert ERROR SOLUTION_PRESENT solution inverse_data = Ok r ->
             opt_val r = if flip then option_map neg (opt_val solution)
                         else opt_val solution).
  { intros r Hr.
    destruct (invert_returns_opt_val ERROR SOLUTION_PRESENT solution
                inverse_data r Hr) as [Hopt _].
    unfold invert_opt_val in Hopt. fold flip in Hopt.
    destruct flip; [|congruence].
    destruct (opt_val solution); [simpl; congruence|discriminate]. }
  split; [exact Hval|].
  intros Hnum Hcase.
  assert (Hopt : exists opt,
             invert_opt_val ERROR solution inverse_data = Ok opt).
  { unfold invert_opt_val. fold flip. destruct flip; [|eauto].
    destruct (opt_val solution); [eauto|]. exfalso. now apply Hnum. }
  destruct Hopt as [opt Hopt].
  destruct (invert_returns inverse_data ERROR SOLUTION_PRESENT solution opt
              Hopt Hcase) as [r Hr].
  exists r. split; [exact Hr|]. apply Hval, Hr.
Qed.

Lemma invert_opt_val_sign_witness :
  exists r,
    invert ERROR_ex SOLUTION_PRESENT_ex
      (solution_ex "optimal" (Some 5%Z)) (inverse_data_ex false) = Ok r /\
    opt_val r = Some (-5)%Z.
Proof.
  refine (proj2 (invert_opt_val_sign ERROR_ex SOLUTION_PRESENT_ex
                   (solution_ex "optimal" (Some 5%Z))
                   (inverse_data_ex false)) _ _).
  - intros _. discriminate.
  - right. reflexivity.
Defined.

(** C10. With a solution present, [invert] depends on the two maps of the
    solution only through their first entries: two solutions that agree on
    status, optimal value, attributes and on the first value of
    [primal_vars] (and of [dual_vars], unless both are [None]) are
    inverted to the same result. *)
Theorem invert_depends_on_first_entries {R : Type} `{Num R}
  (ERROR SOLUTION_PRESENT : list string) (s1 s2 : Solution R)
  (inverse_data : InverseData) :
  status_in (status s1) SOLUTION_PRESENT = true ->
  status s1 = status s2 ->
  opt_val s1 = opt_val s2 ->
  attr s1 = attr s2 ->
  first_value (primal_vars s1) = first_value (primal_vars s2) ->
  match dual_vars s1, dual_vars s2 with
  | Some d1, Some d2 => first_value d1 = first_value d2
  | None, None => True
  | _, _ => False
  end ->
  invert ERROR SOLUTION_PRESENT s1 inverse_data =
  invert ERROR SOLUTION_PRESENT s2 inverse_data.
Proof.
  intros _. apply invert_reads_first_values.
Qed.

Lemma invert_depends_on_first_entries_witness :
  invert ERROR_ex SOLUTION_PRESENT_ex
    (solution_ex "optimal" (Some 5%Z)) (inverse_data_ex true) =
  invert ERROR_ex SOLUTION_PRESENT_ex
    (solution_ex_more "optimal" (Some 5%Z)) (inverse_data_ex true).
Proof.
  exact (invert_depends_on_first_entries ERROR_ex SOLUTION_PRESENT_ex
           (solution_ex "optimal" (Some 5%Z))
           (solution_ex_more "optimal" (Some 5%Z)) (inverse_data_ex true)
           eq_refl eq_refl eq_refl eq_refl eq_refl eq_refl).
Defined.

(** ** [treat_params_as_affine] *)

Lemma flag_of_set_flag (p q : Z) (b : bool) (st : store) :
  flag_of (set_flag p b st) q = if Z.eqb q p then b else flag_of st q.
Proof.
  unfold flag_of, set_flag. simpl. rewrite dict_get_set.
  destruct (Z.eqb q p); reflexivity.
Qed.

Lemma save_and_clear_other (ps : list Z) (st : store) (q : Z) :
  ~ In q ps -> flag_of (snd (save_and_clear ps st)) q = flag_of st q.
Proof.
  revert st. induction ps as [|p ps IH]; intros st Hq; simpl; [reflexivity|].
  rewrite IH by (intros Hin; apply Hq; now right).
  rewrite flag_of_set_flag. destruct (Z.eqb_spec q p); [|reflexivity].
  exfalso. apply Hq. now left.
Qed.

Lemma save_and_clear_clears (ps : list Z) (st : store) (q : Z) :
  In q ps -> flag_of (snd (save_and_clear ps st)) q = false.
Proof.
  revert st. induction ps as [|p ps IH]; intros st Hq; simpl; [easy|].
  destruct (in_dec Z.eq_dec q ps) as [Hin|Hout]; [now apply IH|].
  destruct Hq as [->|Hin]; [|contradiction].
  rewrite save_and_clear_other by assumption.
  rewrite flag_of_set_flag. now rewrite Z.eqb_refl.
Qed.

Lemma save_and_clear_saves (ps : list Z) (st : store) :
  NoDup ps -> fst (save_and_clear ps st) = map (flag_of st) ps.
Proof.
  revert st. induction ps as [|p ps IH]; intros st Hnd; simpl; [reflexivity|].
  inversion Hnd as [|? ? Hout Hnd']; subst. rewrite IH by assumption.
  f_equal. apply map_ext_in. intros q Hq. rewrite flag_of_set_flag.
  destruct (Z.eqb_spec q p); [subst; contradiction|reflexivity].
Qed.

Lemma restore_flags_other (l : list (Z * bool)) (st : store) (q : Z) :
  ~ In q (map fst l) -> flag_of (restore_flags l st) q = flag_of st q.
Proof.
  revert st. induction l as [|[p b] l IH]; intros st Hq; simpl; [reflexivity|].
  rewrite IH by (intros Hin; apply Hq; now right).
  rewrite flag_of_set_flag. destruct (Z.eqb_spec q p); [|reflexivity].
  exfalso. apply Hq. now left.
Qed.

Lemma restore_flags_restores (f : Z -> bool) (ps : list Z) (st : store)
  (q : Z) :
  NoDup ps -> In q ps ->
  flag_of (restore_flags (combine ps (map f ps)) st) q = f q.
Proof.
  revert st. induction ps as [|p ps IH]; intros st Hnd Hq; simpl; [easy|].
  inversion Hnd as [|? ? Hout Hnd']; subst.
  destruct Hq as [->|Hin]; [|now apply IH].
  rewrite restore_flags_other.
  - rewrite flag_of_set_flag. now rewrite Z.eqb_refl.
  - intros Hin. apply Hout. clear -Hin. revert Hin.
    generalize (map f ps). induction ps as [|a ps IH]; intros [|b bs];
      simpl; try tauto.
    intros [->|Hin]; [now left|right; eauto].
Qed.

Lemma forallb_agree {T : Type} (f g : T -> bool) (l : list T) :
  (forall a, In a l -> f a = g a) -> forallb f l = forallb g l.
Proof.
  induction l as [|a l IH]; intros Hfg; simpl; [reflexivity|].
  rewrite (Hfg a) by now left. rewrite IH; [reflexivity|].
  intros b Hb. apply Hfg. now right.
Qed.

(** Inside the block every parameter of the expression is non-constant, and
    the cached constancy of the expression has been recomputed. *)
Lemma scope_enter_clears (e : scope_expr) (st : store) (q : Z) :
  In q (expr_parameters e) ->
  flag_of (snd (scope_enter e st)) q = false.
Proof. intros Hq. unfold scope_enter. simpl. now apply save_and_clear_clears. Qed.

(** X18. On a normal exit the flags that the parameters had before the
    block are back, whatever the block did to the store, and the cached
    constancy is recomputed from them. *)
Lemma treat_params_as_affine_normal_exit (e : scope_expr)
  (body : store -> store * outcome) (st : store) :
  NoDup (expr_parameters e) ->
  snd (body (snd (scope_enter e st))) = Normal ->
  let st' := fst (treat_params_as_affine e body st) in
  (forall q, In q (expr_parameters e) -> flag_of st' q = flag_of st q) /\
  cached_constant st'
  = negb (expr_has_variables e)
    && forallb (flag_of st) (expr_parameters e).
Proof.
  intros Hnd Hnormal. unfold treat_params_as_affine. rewrite Hnormal.
  cbv zeta. unfold fst at 1. unfold scope_resume.
  replace (fst (scope_enter e st)) with (map (flag_of st) (expr_parameters e))
    by (symmetry; now apply save_and_clear_saves).
  assert (Hflags : forall q, In q (expr_parameters e) ->
            flag_of (restore_flags
                       (combine (expr_parameters e)
                          (map (flag_of st) (expr_parameters e)))
                       (fst (body (snd (scope_enter e st))))) q
            = flag_of st q).
  { intros q Hq. now apply restore_flags_restores. }
  split.
  - intros q Hq. apply Hflags, Hq.
  - simpl. f_equal. apply forallb_agree. exact Hflags.
Qed.

(** C7 fails on the exception path. A block that raises leaves both
    parameters non-constant and the cached constancy as computed inside the
    scope, although both parameters were constant before: nothing after
    [yield] runs. *)
Theorem treat_params_as_affine_exception_exit :
  let r := treat_params_as_affine scope_expr_ex raising_body store_ex in
  snd r = Exception ValueError /\
  map (flag_of store_ex) (expr_parameters scope_expr_ex) = [true; true] /\
  map (flag_of (fst r)) (expr_parameters scope_expr_ex) = [false; false] /\
  cached_constant store_ex = true /\
  cached_constant (fst r) = false.
Proof. repeat split. Qed.

(** ** [ConeMatrixStuffing.apply]: the order of the constraints *)

Lemma constr_kind_eqb_spec (a b : constr_kind) :
  constr_kind_eqb a b = true <-> a = b.
Proof. destruct a, b; simpl; split; congruence. Qed.

Lemma lower_kind_id (con : constraint) (next : Z) :
  In (kind (fst (lower con next))) cone_kinds /\
  constr_id (fst (lower con next)) = constr_id con.
Proof.
  unfold lower, cone_kinds.
  destruct (kind con) eqn:Hk; simpl; try (rewrite Hk; simpl; tauto);
    try tauto.
  destruct (Z.eqb (axis con) 1); simpl; [tauto|]. rewrite Hk. simpl. tauto.
Qed.

Lemma cone_lower_loop_cons (cs cons : list constraint)
  (dv_map : dict variable) (next : Z) :
  exists l,
    fst (fst (cone_lower_loop cs cons dv_map next)) = cons ++ l /\
    map constr_id l = map constr_id cs /\
    Forall (fun con => In (kind con) cone_kinds) l.
Proof.
  revert cons dv_map next.
  induction cs as [|con cs IH]; intros cons dv_map next; simpl.
  - exists []. rewrite app_nil_r. auto.
  - destruct (IH (cons ++ [fst (lower con next)])
                (record_duals (dual_variables con)
                   (dual_variables (fst (lower con next))) dv_map)
                (snd (lower con next))) as [l [Hl [Hid Hk]]].
    exists (fst (lower con next) :: l). rewrite Hl, <- app_assoc. simpl.
    destruct (lower_kind_id con next) as [Hkind Hcid].
    repeat split; [congruence|]. now constructor.
Qed.

Lemma group_constraints_In (cons : list constraint) (k : constr_kind)
  (con : constraint) :
  In con (group_constraints cons k) <-> In con cons /\ kind con = k.
Proof.
  unfold group_constraints. rewrite filter_In, constr_kind_eqb_spec. tauto.
Qed.

(** Concatenating the five buckets loses and repeats nothing. *)
Lemma buckets_permutation (cons : list constraint) :
  Forall (fun con => In (kind con) cone_kinds) cons ->
  Permutation cons
    (group_constraints cons Zero ++ group_constraints cons NonPos
     ++ group_constraints cons SOC ++ group_constraints cons PSD
     ++ group_constraints cons ExpCone).
Proof.
  induction 1 as [|con cons Hk _ IH]; [constructor|].
  unfold group_constraints in *. unfold cone_kinds in Hk. simpl in Hk.
  simpl. destruct Hk as [E|[E|[E|[E|[E|[]]]]]]; rewrite <- E; simpl.
  - now constructor.
  - now apply Permutation_cons_app.
  - rewrite app_assoc. apply Permutation_cons_app.
    rewrite <- app_assoc. exact IH.
  - do 2 rewrite app_assoc. apply Permutation_cons_app.
    rewrite <- !app_assoc. exact IH.
  - do 3 rewrite app_assoc. apply Permutation_cons_app.
    rewrite <- !app_assoc. exact IH.
Qed.

(** C8. The constraint list that [ConeMatrixStuffing.apply] stores in the
    inverse data and in the [ParamConeProg] is the concatenation of the
    five buckets of the lowered constraints, in the order Zero, NonPos, SOC,
    PSD, ExpCone; the lowered constraints are those of the problem, one for
    one with the same ids, and each of them lies in exactly one bucket, so
    that the stored list is a rearrangement of them. *)
Theorem cone_apply_constraint_order {R : Type} `{Num R} (CONSTANT_ID : Z)
  (affine : InverseData -> list expr -> matrix R) (problem : Problem R)
  (next : Z) :
  let r := fst (cone_apply CONSTANT_ID affine problem next) in
  let cons := cone_lowered problem next in
  constraints (fst r)
  = group_constraints cons Zero ++ group_constraints cons NonPos
    ++ group_constraints cons SOC ++ group_constraints cons PSD
    ++ group_constraints cons ExpCone /\
  inv_constraints (snd r) = constraints (fst r) /\
  map constr_id cons = map constr_id (problem_constraints problem) /\
  Permutation cons (constraints (fst r)) /\
  forall con, In con cons ->
    exists k, In k cone_kinds /\ In con (group_constraints cons k) /\
              forall k', In con (group_constraints cons k') -> k' = k.
Proof.
  intros r cons.
  destruct (cone_lower_loop_cons (problem_constraints problem) [] []
              (snd (get_id next))) as [l [Hl [Hid Hkinds]]].
  assert (Hcons : cons = l) by exact Hl.
  split; [reflexivity|]. split; [reflexivity|].
  split; [now rewrite Hcons|].
  split.
  - change (constraints (fst r))
      with (group_constraints cons Zero ++ group_constraints cons NonPos
            ++ group_constraints cons SOC ++ group_constraints cons PSD
            ++ group_constraints cons ExpCone).
    apply buckets_permutation. now rewrite Hcons.
  - intros con Hcon. exists (kind con). split; [|split].
    + rewrite Hcons in Hcon. rewrite Forall_forall in Hkinds. auto.
    + apply group_constraints_In. auto.
    + intros k' Hk'. apply group_constraints_In in Hk'. now destruct Hk'.
Qed.

(** ** The record of the dual variables *)

(** C9 fails for [MatrixStuffing.apply]. For a problem with one equality
    constraint, whose dual variable has id 11, the map records the dual
    variable of the copied constraint (id 102, when the copy draws no id
    for itself) against the one of the lowered [Zero] constraint (id 101),
    which was created in between; the dual variable of the constraint of
    the problem does not occur in the map. [ConeMatrixStuffing.apply] keeps
    [orig_con] and records the new dual variable against the original
    one. *)
Theorem stuffing_apply_dual_map_equality
  (copy_id : constraint -> Z -> Z * Z) :
  let r := fst (stuffing_apply (-1) stuffed_objective_ex copy_id
                  problem_eq 100) in
  let n := snd (copy_id
                  {| kind := Zero; constr_id := 10;
                     args := [ESub (ELeaf 1 [2]) (ELeaf 2 [2])]; axis := 0;
                     dual_variables :=
                       [{| var_id := 101; var_shape := [2] |}] |}
                  102%Z) in
  flat_map dual_variables (problem_constraints problem_eq) = [dual_11] /\
  flat_map dual_variables (problem_constraints (fst r))
  = [{| var_id := n; var_shape := [2] |}] /\
  dv_id_map (snd r) = [(n, {| var_id := 101; var_shape := [2] |})] /\
  ~ In dual_11 (dict_values (dv_id_map (snd r))) /\
  dv_id_map (snd (fst (cone_apply (-1) affine_ex problem_eq 100)))
  = [(101%Z, dual_11)].
Proof.
  repeat split. simpl. intros [E|[]]. discriminate.
Qed.

(** *** [ConeMatrixStuffing.apply] records every new dual variable against
    the original one *)

Lemma new_variables_spec (shapes : list (list nat)) (next : Z) :
  map var_id (fst (new_variables shapes next))
  = map (fun i => (next + Z.of_nat i)%Z) (seq 0 (length shapes)) /\
  snd (new_variables shapes next) = (next + Z.of_nat (length shapes))%Z.
Proof.
  revert next. induction shapes as [|s shapes IH]; intros next.
  - simpl. split; [reflexivity|lia].
  - cbn [new_variables get_id fst snd length map seq var_id].
    destruct (IH (next + 1)%Z) as [Hids Hnext]. split.
    + f_equal; [simpl; lia|]. rewrite Hids.
      rewrite <- seq_shift, map_map. apply map_ext. intros i. lia.
    + rewrite Hnext. lia.
Qed.

(** Lowering keeps the constraint, or builds one whose dual variables are
    as many as before and carry the next free ids. *)
Lemma lower_duals (con : constraint) (next : Z) :
  constraint_wf con = true ->
  (fst (lower con next) = con /\ snd (lower con next) = next) \/
  (map var_id (dual_variables (fst (lower con next)))
   = map (fun i => (next + Z.of_nat i)%Z)
       (seq 0 (length (dual_variables con))) /\
   snd (lower con next)
   = (next + Z.of_nat (length (dual_variables con)))%Z).
Proof.
  unfold constraint_wf, lower.
  destruct (kind con) eqn:Hk; try (intros _; left; split; reflexivity).
  - (* SOC *)
    rewrite andb_true_iff, !Nat.eqb_eq. intros [Ha Hd].
    destruct (Z.eqb (axis con) 1); [|left; split; reflexivity].
    right. unfold soc_axis0, new_constraint. cbn [fst snd dual_variables].
    destruct (args con) as [|t [|X [|? ?]]]; try discriminate.
    rewrite Hd.
    exact (new_variables_spec
             (dual_shapes SOC [t; ETranspose X]) next).
  - (* Equality *)
    rewrite andb_true_iff, !Nat.eqb_eq. intros [Ha Hd].
    right. unfold lower_equality, new_constraint.
    cbn [fst snd dual_variables].
    destruct (args con) as [|l [|r [|? ?]]]; try discriminate.
    rewrite Hd.
    exact (new_variables_spec (dual_shapes Zero (difference [l; r])) next).
  - (* Inequality *)
    rewrite andb_true_iff, !Nat.eqb_eq. intros [Ha Hd].
    right. unfold lower_inequality, new_constraint.
    cbn [fst snd dual_variables].
    destruct (args con) as [|l [|r [|? ?]]]; try discriminate.
    rewrite Hd.
    exact (new_variables_spec (dual_shapes NonPos (difference [l; r])) next).
Qed.

Lemma record_duals_fresh (old new : list variable) (m : dict variable) :
  length old = length new ->
  NoDup (dict_keys m ++ map var_id new) ->
  record_duals old new m = m ++ combine (map var_id new) old.
Proof.
  revert new m. induction old as [|o old IH]; intros [|v new] m E Hnd;
    try discriminate; simpl.
  - now rewrite app_nil_r.
  - simpl in E, Hnd.
    assert (Hv : ~ In (var_id v) (dict_keys m)).
    { apply NoDup_remove_2 in Hnd. intros Hin. apply Hnd.
      apply in_or_app. now left. }
    rewrite IH.
    + rewrite dict_set_fresh by assumption. now rewrite <- app_assoc.
    + lia.
    + rewrite dict_set_fresh by assumption. unfold dict_keys.
      rewrite map_app. simpl. rewrite <- app_assoc. exact Hnd.
Qed.

Lemma dict_keys_combine (ids : list Z) (vs : list variable) :
  length ids = length vs -> dict_keys (combine ids vs) = ids.
Proof.
  unfold dict_keys. revert vs. induction ids as [|i ids IH]; intros [|v vs] E;
    try discriminate; simpl; [reflexivity|]. f_equal. apply IH.
  simpl in E. lia.
Qed.

Lemma combine_app_eq {T U : Type} (l1 l2 : list T) (m1 m2 : list U) :
  length l1 = length m1 ->
  combine (l1 ++ l2) (m1 ++ m2) = combine l1 m1 ++ combine l2 m2.
Proof.
  revert m1. induction l1 as [|x l1 IH]; intros [|y m1] E; try discriminate;
    simpl; [reflexivity|]. f_equal. apply IH. simpl in E. lia.
Qed.

Lemma NoDup_fresh_ids (old : list Z) (next : Z) (k : nat) :
  NoDup old -> (forall i, In i old -> (i < next)%Z) ->
  NoDup (old ++ map (fun i => (next + Z.of_nat i)%Z) (seq 0 k)).
Proof.
  intros Hnd Hlt. apply NoDup_app; [assumption| |].
  - apply Injective_map_NoDup; [|apply seq_NoDup].
    intros i j Hij. lia.
  - intros i Hi Hin. apply in_map_iff in Hin. destruct Hin as [j [<- _]].
    specialize (Hlt _ Hi). lia.
Qed.

Lemma cone_lower_loop_dual_map (cs cons : list constraint)
  (done : list variable) (next : Z) :
  Forall (fun con => constraint_wf con = true) cs ->
  length (flat_map dual_variables cons) = length done ->
  NoDup (dual_ids cons ++ dual_ids cs) ->
  (forall i, In i (dual_ids cons ++ dual_ids cs) -> (i < next)%Z) ->
  let r := cone_lower_loop cs cons (combine (dual_ids cons) done) next in
  snd (fst r)
  = combine (dual_ids (fst (fst r))) (done ++ flat_map dual_variables cs) /\
  length (dual_ids (fst (fst r)))
  = length (done ++ flat_map dual_variables cs) /\
  NoDup (dual_ids (fst (fst r))).
Proof.
  revert cons done next.
  induction cs as [|con cs IH]; intros cons done next Hwf Hlen Hnd Hlt.
  - simpl. rewrite !app_nil_r in *. unfold dual_ids in *.
    rewrite length_map. auto.
  - inversion Hwf as [|? ? Hcon Hwf']; subst.
    cbn [cone_lower_loop]. cbv zeta.
    set (con' := fst (lower con next)). set (next' := snd (lower con next)).
    assert (Hids : dual_ids (cons ++ [con'])
                   = dual_ids cons ++ map var_id (dual_variables con')).
    { unfold dual_ids. rewrite flat_map_app, map_app. simpl.
      now rewrite app_nil_r. }
    assert (Hcs : dual_ids (con :: cs)
                  = map var_id (dual_variables con) ++ dual_ids cs).
    { unfold dual_ids. simpl. now rewrite map_app. }
    rewrite Hcs in Hnd, Hlt.
    assert (Hsame : length (dual_variables con')
                    = length (dual_variables con) /\
                    NoDup (dual_ids (cons ++ [con']) ++ dual_ids cs) /\
                    forall i, In i (dual_ids (cons ++ [con']) ++ dual_ids cs)
                              -> (i < next')%Z).
    { rewrite Hids, <- app_assoc.
      destruct (lower_duals con next Hcon) as [[Hc Hn]|[Hnew Hn]];
        fold con' in Hc || fold con' in Hnew; fold next' in Hn.
      - rewrite Hc, Hn. auto.
      - split; [|split].
        + apply (f_equal (@length Z)) in Hnew.
          now rewrite !length_map, length_seq in Hnew.
        + rewrite Hnew.
          assert (Hrest : NoDup (dual_ids cons ++ dual_ids cs)).
          { apply (NoDup_app_remove_l (map var_id (dual_variables con))).
            apply (Permutation_NoDup (Permutation_app_swap_app _ _ _)).
            exact Hnd. }
          apply (Permutation_NoDup
                   (l := (dual_ids cons ++ dual_ids cs)
                         ++ map (fun i => (next + Z.of_nat i)%Z)
                              (seq 0 (length (dual_variables con))))).
          * rewrite <- app_assoc. apply Permutation_app_head.
            apply Permutation_app_comm.
          * apply NoDup_fresh_ids; [exact Hrest|].
            intros i Hi. apply Hlt. rewrite !in_app_iff in *. tauto.
        + intros i Hi. rewrite Hn. rewrite !in_app_iff in Hi.
          destruct Hi as [Hi|[Hi|Hi]].
          * assert ((i < next)%Z) by (apply Hlt; rewrite !in_app_iff; tauto).
            lia.
          * rewrite Hnew in Hi. apply in_map_iff in Hi.
            destruct Hi as [j [<- Hj]]. apply in_seq in Hj. lia.
          * assert ((i < next)%Z) by (apply Hlt; rewrite !in_app_iff; tauto).
            lia. }
    destruct Hsame as [Hl' [Hnd' Hlt']].
    assert (Hrec : record_duals (dual_variables con) (dual_variables con')
                     (combine (dual_ids cons) done)
                   = combine (dual_ids (cons ++ [con']))
                       (done ++ dual_variables con)).
    { rewrite record_duals_fresh.
      - rewrite Hids. symmetry. apply combine_app_eq.
        unfold dual_ids. now rewrite length_map.
      - now symmetry.
      - rewrite dict_keys_combine
          by (unfold dual_ids; now rewrite length_map).
        rewrite Hids in Hnd'. apply NoDup_app_remove_r in Hnd'.
        exact Hnd'. }
    rewrite Hrec.
    destruct (IH (cons ++ [con']) (done ++ dual_variables con) next' Hwf')
      as [Hmap [Hlen' Hnd'']]; try assumption.
    { rewrite flat_map_app, !length_app. simpl. rewrite app_nil_r. lia. }
    cbv zeta in Hmap, Hlen', Hnd''. simpl.
    rewrite <- !app_assoc in Hmap, Hlen'. auto.
Qed.

(** X21. For a problem whose constraints are well-formed and whose dual
    variables are distinct, with ids below the next free id,
    [ConeMatrixStuffing.apply] leaves in [dv_id_map] exactly one entry per
    dual variable of the resulting constraints, in their order, each with
    the corresponding dual variable of the constraints of the problem. *)
Lemma cone_apply_dual_map {R : Type} `{Num R} (CONSTANT_ID : Z)
  (affine : InverseData -> list expr -> matrix R) (problem : Problem R)
  (next : Z) :
  Forall (fun con => constraint_wf con = true)
    (problem_constraints problem) ->
  NoDup (dual_ids (problem_constraints problem)) ->
  (forall i, In i (dual_ids (problem_constraints problem)) -> (i < next)%Z) ->
  let inverse_data := snd (fst (cone_apply CONSTANT_ID affine problem next)) in
  let cons := cone_lowered problem next in
  dv_id_map inverse_data
  = combine (dual_ids cons)
      (flat_map dual_variables (problem_constraints problem)) /\
  length (dual_ids cons)
  = length (flat_map dual_variables (problem_constraints problem)) /\
  NoDup (dual_ids cons).
Proof.
  intros Hwf Hnd Hlt.
  exact (cone_lower_loop_dual_map (problem_constraints problem)
           [] [] (snd (get_id next)) Hwf eq_refl Hnd
           (fun i Hi => Z.lt_trans _ _ _ (Hlt i Hi) (Z.lt_succ_diag_r next))).
Qed.

(** ** Linear algebra over the scalars *)

Lemma combine_skipn {T U : Type} (n : nat) (l : list T) (l' : list U) :
  skipn n (combine l l') = combine (skipn n l) (skipn n l').
Proof.
  revert l l'. induction n as [|n IH]; intros l l'; [reflexivity|].
  destruct l as [|a l]; [reflexivity|].
  destruct l' as [|b l']; simpl; [now destruct (skipn n l)|apply IH].
Qed.

Lemma py_index_le (n : nat) (i : Z) : py_index n i <= n.
Proof. unfold py_index. destruct (Z.ltb_spec i 0); lia. Qed.

Lemma set_slice_length {T : Type} (v : list T) (a b : Z) (w v' : list T) :
  set_slice v a b w = Ok v' -> length v' = length v.
Proof.
  unfold set_slice.
  pose proof (py_index_le (length v) a) as Ha.
  pose proof (py_index_le (length v) b) as Hb.
  destruct (Nat.eqb_spec (length w)
              (py_index (length v) b - py_index (length v) a)) as [E|E].
  - intros [= <-]. rewrite !length_app, length_firstn, length_skipn. lia.
  - destruct w as [|e [|e' w]]; try discriminate.
    intros [= <-].
    rewrite !length_app, length_firstn, repeat_length, length_skipn. lia.
Qed.

Lemma set_item_length {T : Type} (v : list T) (i : Z) (e : T) (v' : list T) :
  set_item v i e = Ok v' -> length v' = length v.
Proof.
  unfold set_item.
  destruct (_ && _)%bool eqn:Hb; [|discriminate].
  apply andb_true_iff in Hb. destruct Hb as [H0 Hn].
  apply Z.leb_le in H0. apply Z.ltb_lt in Hn.
  set (t := _ ++ _ :: _). intros [= <-]. subst t.
  rewrite length_app, length_firstn, length_cons, length_skipn. lia.
Qed.

Section Algebra.
Context {R : Type} `{Num R}.
Hypothesis Rth : ring_theory zero one add mul sub neg (@eq R).
Add Ring Rring : Rth.

Variables a b : R.

Lemma length_vlincomb (u v : list R) :
  length u = length v -> length (vlincomb a u b v) = length u.
Proof.
  intros E. unfold vlincomb. rewrite length_map, length_combine. lia.
Qed.

Lemma vlincomb_app (u1 u2 v1 v2 : list R) :
  length u1 = length v1 ->
  vlincomb a (u1 ++ u2) b (v1 ++ v2)
  = vlincomb a u1 b v1 ++ vlincomb a u2 b v2.
Proof.
  revert v1. induction u1 as [|x u1 IH]; intros [|y v1] E;
    try discriminate; [reflexivity|].
  simpl in E. unfold vlincomb in *. simpl. f_equal. apply IH. lia.
Qed.

Lemma vlincomb_firstn (n : nat) (u v : list R) :
  firstn n (vlincomb a u b v) = vlincomb a (firstn n u) b (firstn n v).
Proof. unfold vlincomb. now rewrite firstn_map, combine_firstn. Qed.

Lemma vlincomb_skipn (n : nat) (u v : list R) :
  skipn n (vlincomb a u b v) = vlincomb a (skipn n u) b (skipn n v).
Proof. unfold vlincomb. now rewrite skipn_map, combine_skipn. Qed.

Lemma vlincomb_repeat (e1 e2 : R) (n : nat) :
  vlincomb a (repeat e1 n) b (repeat e2 n)
  = repeat (add (mul a e1) (mul b e2)) n.
Proof.
  induction n as [|n IH]; [reflexivity|].
  unfold vlincomb in *. simpl. now rewrite IH.
Qed.

Lemma vlincomb_py_slice (u v : list R) (lo hi : Z) :
  length u = length v ->
  py_slice (vlincomb a u b v) lo hi
  = vlincomb a (py_slice u lo hi) b (py_slice v lo hi).
Proof.
  intros E. unfold py_slice. rewrite length_vlincomb by assumption.
  rewrite <- E. now rewrite vlincomb_skipn, vlincomb_firstn.
Qed.

Lemma nth_vlincomb (i : nat) (u v : list R) :
  length u = length v ->
  nth i (vlincomb a u b v) zero
  = add (mul a (nth i u zero)) (mul b (nth i v zero)).
Proof.
  revert i v. induction u as [|x u IH]; intros i [|y v] E;
    try discriminate.
  - destruct i; simpl; ring.
  - destruct i as [|i]; [reflexivity|]. simpl in E.
    unfold vlincomb in *. simpl. apply IH. lia.
Qed.

Lemma dot_vlincomb_r (r u v : list R) :
  length u = length v ->
  dot r (vlincomb a u b v) = add (mul a (dot r u)) (mul b (dot r v)).
Proof.
  revert u v. induction r as [|x r IH]; intros [|y u] [|z v] E;
    try discriminate; simpl; try ring.
  simpl in E. unfold vlincomb in *. simpl.
  rewrite IH by lia. ring.
Qed.

Lemma set_slice_lincomb (u1 u2 : list R) (lo hi : Z)
  (x1 x2 w1 w2 : list R) :
  length u1 = length u2 ->
  length x1 = length x2 ->
  set_slice u1 lo hi x1 = Ok w1 ->
  set_slice u2 lo hi x2 = Ok w2 ->
  set_slice (vlincomb a u1 b u2) lo hi (vlincomb a x1 b x2)
  = Ok (vlincomb a w1 b w2).
Proof.
  intros Eu Ex. unfold set_slice.
  rewrite !length_vlincomb by assumption. rewrite <- Eu, <- Ex.
  set (l := py_index (length u1) lo).
  set (n := py_index (length u1) hi - l).
  assert (Hl : l <= length u1) by apply py_index_le.
  assert (Hpre : length (firstn l u1) = length (firstn l u2))
    by (rewrite !length_firstn; lia).
  destruct (Nat.eqb_spec (length x1) n) as [E|E].
  - intros [= <-] [= <-].
    rewrite !vlincomb_app, vlincomb_firstn, vlincomb_skipn;
      auto.
  - destruct x1 as [|e1 [|? ?]], x2 as [|e2 [|? ?]]; try discriminate.
    intros [= <-] [= <-].
    rewrite !vlincomb_app, vlincomb_firstn, vlincomb_skipn,
      vlincomb_repeat; auto.
    now rewrite !repeat_length.
Qed.

Lemma set_item_lincomb (u1 u2 : list R) (i : Z) (e1 e2 : R)
  (w1 w2 : list R) :
  length u1 = length u2 ->
  set_item u1 i e1 = Ok w1 ->
  set_item u2 i e2 = Ok w2 ->
  set_item (vlincomb a u1 b u2) i (add (mul a e1) (mul b e2))
  = Ok (vlincomb a w1 b w2).
Proof.
  intros Eu. unfold set_item.
  rewrite !length_vlincomb by assumption. rewrite <- Eu.
  destruct (_ && _)%bool eqn:Hb; [|discriminate].
  apply andb_true_iff in Hb. destruct Hb as [H0 Hn].
  apply Z.leb_le in H0. apply Z.ltb_lt in Hn.
  set (j := Z.to_nat _).
  set (t1 := _ ++ _ :: _). set (t2 := _ ++ _ :: _).
  intros [= <-] [= <-]. subst t1 t2. f_equal.
  rewrite vlincomb_app
    by (rewrite !length_firstn; lia).
  rewrite vlincomb_firstn. f_equal.
  change (vlincomb a (e1 :: skipn (S j) u1) b (e2 :: skipn (S j) u2))
    with (add (mul a e1) (mul b e2)
          :: vlincomb a (skipn (S j) u1) b (skipn (S j) u2)).
  now rewrite vlincomb_skipn.
Qed.

Lemma combine_map_same {T U V : Type} (f : T -> U) (g : T -> V)
  (l : list T) :
  combine (map f l) (map g l) = map (fun x => (f x, g x)) l.
Proof. induction l as [|x l IH]; simpl; [reflexivity|now rewrite IH]. Qed.

Lemma vlincomb_map {T : Type} (f g : T -> R) (l : list T) :
  vlincomb a (map f l) b (map g l)
  = map (fun x => add (mul a (f x)) (mul b (g x))) l.
Proof. unfold vlincomb. now rewrite combine_map_same, map_map. Qed.

Lemma matvec_lincomb (M : matrix R) (v1 v2 c1 c2 : list R) :
  length v1 = length v2 ->
  matvec M v1 = Ok c1 ->
  matvec M v2 = Ok c2 ->
  matvec M (vlincomb a v1 b v2) = Ok (vlincomb a c1 b c2).
Proof.
  intros E. unfold matvec. rewrite length_vlincomb by assumption.
  destruct (well_shaped M && Nat.eqb (ncols M) (length v1))%bool eqn:Hw;
    [|discriminate].
  rewrite <- E, Hw. intros [= <-] [= <-]. f_equal.
  rewrite vlincomb_map. apply map_ext. intros r.
  now apply dot_vlincomb_r.
Qed.

Lemma reshape_F_lincomb (v1 v2 : list R) (m k : nat) (M1 M2 : matrix R) :
  reshape_F v1 m k = Ok M1 ->
  reshape_F v2 m k = Ok M2 ->
  reshape_F (vlincomb a v1 b v2) m k = Ok (mlincomb a M1 b M2).
Proof.
  unfold reshape_F.
  destruct (Nat.eqb_spec (length v1) (m * k)) as [E1|]; [|discriminate].
  destruct (Nat.eqb_spec (length v2) (m * k)) as [E2|]; [|discriminate].
  assert (E : length v1 = length v2) by congruence.
  rewrite length_vlincomb, E1, Nat.eqb_refl by assumption.
  intros [= <-] [= <-]. unfold mlincomb. simpl. f_equal. f_equal.
  rewrite combine_map_same, map_map. apply map_ext. intros i. simpl.
  rewrite vlincomb_map. apply map_ext. intros j.
  now apply nth_vlincomb.
Qed.

Lemma dict_get_lincomb (k : Z) (p1 p2 : dict (ndarray R)) :
  dict_get k (dict_lincomb a p1 b p2)
  = match dict_get k p1 with
    | Some x => Some match dict_get k p2 with
                     | Some y => arr_lincomb a x b y
                     | None => x
                     end
    | None => None
    end.
Proof.
  induction p1 as [|[k1 x] p1 IH]; simpl; [reflexivity|].
  destruct (Z.eqb_spec k k1) as [->|]; [reflexivity|apply IH].
Qed.

Lemma param_vec_loop_length (CONSTANT_ID : Z) (self : ParamConeProg R)
  (m : option (dict (ndarray R))) (items : list (Z * Z)) (u w : list R) :
  param_vec_loop CONSTANT_ID self m items u = Ok w -> length w = length u.
Proof.
  revert u. induction items as [|[k col] items IH]; intros u; simpl.
  - now intros [= <-].
  - destruct (Z.eqb k CONSTANT_ID).
    + destruct (set_item u col one) as [u'|] eqn:Hset; simpl;
        [|discriminate].
      intros Hw. rewrite (IH _ Hw). eapply set_item_length; eauto.
    + destruct (param_value self m k) as [val|]; simpl; [|discriminate].
      destruct (dict_getitem k (id_to_param self)) as [p|]; simpl;
        [|discriminate].
      destruct (set_slice_flat u col _ val) as [u'|] eqn:Hset; simpl;
        [|discriminate].
      intros Hw. rewrite (IH _ Hw). unfold set_slice_flat in Hset.
      destruct val as [arr|]; eapply set_slice_length; eauto.
Qed.

Lemma param_vec_loop_lincomb (CONSTANT_ID : Z) (self : ParamConeProg R)
  (p1 p2 : dict (ndarray R)) (items : list (Z * Z))
  (u1 u2 w1 w2 : list R) :
  add a b = one ->
  same_sizes p1 p2 ->
  length u1 = length u2 ->
  param_vec_loop CONSTANT_ID self (Some p1) items u1 = Ok w1 ->
  param_vec_loop CONSTANT_ID self (Some p2) items u2 = Ok w2 ->
  param_vec_loop CONSTANT_ID self (Some (dict_lincomb a p1 b p2)) items
    (vlincomb a u1 b u2) = Ok (vlincomb a w1 b w2).
Proof.
  intros Hab Hsz. revert u1 u2.
  induction items as [|[k col] items IH]; intros u1 u2 Eu; simpl.
  - now intros [= <-] [= <-].
  - destruct (Z.eqb k CONSTANT_ID).
    + destruct (set_item u1 col one) as [u1'|] eqn:H1; simpl;
        [|discriminate].
      destruct (set_item u2 col one) as [u2'|] eqn:H2; simpl;
        [|discriminate].
      intros Hw1 Hw2.
      pose proof (set_item_lincomb u1 u2 col one one u1' u2' Eu H1 H2)
        as Hset.
      replace (add (mul a one) (mul b one)) with one in Hset
        by (transitivity (add a b); [now symmetry|ring]).
      rewrite Hset. simpl. apply IH; [|assumption|assumption].
      rewrite (set_item_length _ _ _ _ H1), (set_item_length _ _ _ _ H2).
      exact Eu.
    + unfold param_value, dict_getitem. rewrite dict_get_lincomb.
      destruct (dict_get k p1) as [x|] eqn:Hx; simpl; [|discriminate].
      destruct (dict_get k p2) as [y|] eqn:Hy; simpl; [|discriminate].
      destruct (dict_get k (id_to_param self)) as [p|]; simpl;
        [|discriminate].
      unfold flatten.
      destruct (set_slice u1 col _ (data x)) as [u1'|] eqn:H1; simpl;
        [|discriminate].
      destruct (set_slice u2 col _ (data y)) as [u2'|] eqn:H2; simpl;
        [|discriminate].
      intros Hw1 Hw2.
      rewrite (set_slice_lincomb u1 u2 col _ (data x) (data y) u1' u2'
                 Eu (Hsz k x y Hx Hy) H1 H2).
      simpl. apply IH; [|assumption|assumption].
      rewrite (set_slice_length _ _ _ _ _ H1),
        (set_slice_length _ _ _ _ _ H2).
      exact Eu.
Qed.

Lemma apply_parameters_lincomb (CONSTANT_ID : Z) (self : ParamConeProg R)
  (p1 p2 : dict (ndarray R)) (cA1 cA2 : list R * matrix R) :
  add a b = one ->
  same_sizes p1 p2 ->
  apply_parameters CONSTANT_ID self (Some p1) = Ok cA1 ->
  apply_parameters CONSTANT_ID self (Some p2) = Ok cA2 ->
  apply_parameters CONSTANT_ID self (Some (dict_lincomb a p1 b p2))
  = Ok (vlincomb a (fst cA1) b (fst cA2),
        mlincomb a (snd cA1) b (snd cA2)).
Proof.
  intros Hab Hsz. unfold apply_parameters, flat_param_vec.
  destruct (param_vec_loop CONSTANT_ID self (Some p1) _ _) as [v1|] eqn:H1;
    simpl; [|discriminate].
  destruct (param_vec_loop CONSTANT_ID self (Some p2) _ _) as [v2|] eqn:H2;
    simpl; [|discriminate].
  assert (Ev : length v1 = length v2).
  { rewrite (param_vec_loop_length _ _ _ _ _ _ H1).
    now rewrite (param_vec_loop_length _ _ _ _ _ _ H2). }
  pose proof (param_vec_loop_lincomb CONSTANT_ID self p1 p2 _ _ _ _ _
                Hab Hsz eq_refl H1 H2) as H12.
  rewrite vlincomb_repeat in H12.
  replace (add (mul a zero) (mul b zero)) with zero in H12 by ring.
  rewrite H12. simpl.
  destruct (matvec (prog_c self) v1) as [c1|] eqn:Hc1; simpl;
    [|discriminate].
  destruct (matvec (prog_c self) v2) as [c2|] eqn:Hc2; simpl;
    [|discriminate].
  rewrite (matvec_lincomb _ _ _ _ _ Ev Hc1 Hc2). simpl.
  destruct (matvec (prog_A self) v1) as [A1|] eqn:HA1; simpl;
    [|discriminate].
  destruct (matvec (prog_A self) v2) as [A2|] eqn:HA2; simpl;
    [|discriminate].
  rewrite (matvec_lincomb _ _ _ _ _ Ev HA1 HA2). simpl.
  destruct (reshape_F A1 _ _) as [M1|] eqn:HM1; simpl; [|discriminate].
  destruct (reshape_F A2 _ _) as [M2|] eqn:HM2; simpl; [|discriminate].
  rewrite (reshape_F_lincomb _ _ _ _ _ _ HM1 HM2). simpl.
  now intros [= <-] [= <-].
Qed.

(** The linear part of [apply_param_jac]. *)

Lemma list_eq_nth (l1 l2 : list R) :
  length l1 = length l2 ->
  (forall i, nth i l1 zero = nth i l2 zero) -> l1 = l2.
Proof.
  revert l2. induction l1 as [|x l1 IH]; intros [|y l2] E Hn;
    try discriminate; [reflexivity|].
  f_equal; [exact (Hn 0)|].
  apply IH; [simpl in E; lia|]. intros i. exact (Hn (S i)).
Qed.

Lemma length_vadd (u v : list R) :
  length u = length v -> length (vadd u v) = length u.
Proof. intros E. unfold vadd. rewrite length_map, length_combine. lia. Qed.

Lemma nth_vadd (i : nat) (u v : list R) :
  length u = length v ->
  nth i (vadd u v) zero = add (nth i u zero) (nth i v zero).
Proof.
  revert i v. induction u as [|x u IH]; intros i [|y v] E;
    try discriminate.
  - destruct i; simpl; ring.
  - destruct i as [|i]; [reflexivity|]. simpl in E.
    unfold vadd in *. simpl. apply IH. lia.
Qed.

Lemma nth_vscale (i : nat) (x : R) (u : list R) :
  nth i (vscale x u) zero = mul x (nth i u zero).
Proof.
  revert i. induction u as [|y u IH]; intros [|i]; simpl;
    try ring; try reflexivity. apply IH.
Qed.

Lemma rows_comb_length (k : nat) (u : list R) (rs : list (list R)) :
  Forall (fun r => length r = k) rs -> length (rows_comb k u rs) = k.
Proof.
  revert rs. induction u as [|x u IH]; intros rs Hrs; simpl.
  - apply repeat_length.
  - destruct rs as [|r rs]; [apply repeat_length|].
    inversion Hrs; subst.
    rewrite length_vadd; unfold vscale; rewrite length_map;
      [reflexivity|]. now rewrite IH.
Qed.

Lemma rows_comb_lincomb (k : nat) (u1 u2 : list R) (rs : list (list R)) :
  length u1 = length u2 ->
  Forall (fun r => length r = k) rs ->
  rows_comb k (vlincomb a u1 b u2) rs
  = vlincomb a (rows_comb k u1 rs) b (rows_comb k u2 rs).
Proof.
  revert u2 rs. induction u1 as [|x u1 IH]; intros [|y u2] rs E Hrs;
    try discriminate.
  - simpl. rewrite vlincomb_repeat. f_equal. ring.
  - simpl in E. change (vlincomb a (x :: u1) b (y :: u2))
      with (add (mul a x) (mul b y) :: vlincomb a u1 b u2).
    simpl. destruct rs as [|r rs].
    + rewrite vlincomb_repeat. f_equal. ring.
    + inversion Hrs as [|? ? Hr Hrs']; subst.
      rewrite IH by (auto; lia).
      assert (L1 : length (rows_comb (length r) u1 rs) = length r)
        by now apply rows_comb_length.
      assert (L2 : length (rows_comb (length r) u2 rs) = length r)
        by now apply rows_comb_length.
      assert (Ls : forall z, length (vscale z r) = length r)
        by (intros z; unfold vscale; apply length_map).
      assert (A1 : length (vlincomb a (rows_comb (length r) u1 rs) b
                             (rows_comb (length r) u2 rs)) = length r)
        by (rewrite length_vlincomb; congruence).
      assert (A2 : forall z s, length s = length r ->
                     length (vadd (vscale z r) s) = length r)
        by (intros z s Hs; rewrite length_vadd; rewrite Ls; congruence).
      apply list_eq_nth.
      * rewrite A2 by exact A1.
        rewrite length_vlincomb; rewrite !A2; auto.
      * intros i.
        rewrite nth_vadd by (rewrite Ls; congruence).
        rewrite !nth_vlincomb by (rewrite ?A2; congruence).
        rewrite !nth_vadd by (rewrite Ls; congruence).
        rewrite !nth_vscale. ring.
Qed.

Lemma well_shaped_Forall (M : matrix R) :
  well_shaped M = true -> Forall (fun r => length r = ncols M) (rows M).
Proof.
  unfold well_shaped. rewrite forallb_forall, Forall_forall.
  intros Hw r Hr. now apply Nat.eqb_eq, Hw.
Qed.

Lemma vecmat_lincomb (u1 u2 : list R) (M : matrix R) (t1 t2 : list R) :
  length u1 = length u2 ->
  vecmat u1 M = Ok t1 ->
  vecmat u2 M = Ok t2 ->
  vecmat (vlincomb a u1 b u2) M = Ok (vlincomb a t1 b t2).
Proof.
  intros E. unfold vecmat. rewrite length_vlincomb by assumption.
  rewrite <- E.
  destruct (well_shaped M) eqn:Hw; simpl; [|discriminate].
  destruct (Nat.eqb (length u1) (nrows M)); [|discriminate].
  intros [= <-] [= <-]. f_equal.
  apply rows_comb_lincomb; [assumption|now apply well_shaped_Forall].
Qed.

Lemma vecmat_length (u : list R) (M : matrix R) (t : list R) :
  vecmat u M = Ok t -> length t = ncols M.
Proof.
  unfold vecmat. destruct (well_shaped M) eqn:Hw; simpl; [|discriminate].
  destruct (Nat.eqb (length u) (nrows M)); [|discriminate].
  intros [= <-]. now apply rows_comb_length, well_shaped_Forall.
Qed.

Lemma column_mlincomb (j : nat) (X1 X2 : matrix R) :
  Forall2 (fun r1 r2 => length r1 = length r2) (rows X1) (rows X2) ->
  column j (mlincomb a X1 b X2)
  = vlincomb a (column j X1) b (column j X2).
Proof.
  unfold column, mlincomb. simpl.
  induction 1 as [|r1 r2 rs1 rs2 Hr _ IH]; [reflexivity|].
  simpl. rewrite IH. rewrite nth_vlincomb by assumption. reflexivity.
Qed.

Lemma flatten_F_mlincomb (X1 X2 : matrix R) :
  ncols X1 = ncols X2 ->
  Forall2 (fun r1 r2 => length r1 = length r2) (rows X1) (rows X2) ->
  flatten_F (mlincomb a X1 b X2)
  = vlincomb a (flatten_F X1) b (flatten_F X2).
Proof.
  intros Ec Hrows. unfold flatten_F. rewrite <- Ec.
  change (ncols (mlincomb a X1 b X2)) with (ncols X1).
  induction (seq 0 (ncols X1)) as [|j js IH]; [reflexivity|].
  simpl. rewrite IH, column_mlincomb by assumption.
  rewrite vlincomb_app; [reflexivity|].
  unfold column. rewrite !length_map.
  now apply Forall2_length in Hrows.
Qed.

Lemma iadd_lincomb (u1 u2 t1 t2 s1 s2 : list R) :
  length u1 = length u2 ->
  length t1 = length t2 ->
  iadd u1 t1 = Ok s1 ->
  iadd u2 t2 = Ok s2 ->
  iadd (vlincomb a u1 b u2) (vlincomb a t1 b t2)
  = Ok (vlincomb a s1 b s2).
Proof.
  intros Eu Et. unfold iadd. rewrite !length_vlincomb by assumption.
  rewrite <- Eu, <- Et.
  destruct (Nat.eqb_spec (length t1) (length u1)) as [E|E].
  - intros [= <-] [= <-]. f_equal. apply list_eq_nth.
    + rewrite length_vadd, !length_vlincomb, ?length_vadd;
        rewrite ?length_vlincomb, ?length_vadd; congruence.
    + intros i. rewrite nth_vadd by (rewrite !length_vlincomb; congruence).
      rewrite !nth_vlincomb by (rewrite ?length_vadd; congruence).
      rewrite !nth_vadd by congruence. ring.
  - destruct t1 as [|e1 [|? ?]], t2 as [|e2 [|? ?]]; try discriminate.
    intros [= <-] [= <-].
    change (vlincomb a [e1] b [e2]) with [add (mul a e1) (mul b e2)].
    cbv iota. f_equal. clear E Et. revert u2 Eu.
    induction u1 as [|x u1 IH]; intros [|y u2] Eu; try discriminate;
      try reflexivity.
    simpl in Eu. unfold vlincomb in *. simpl. f_equal; [ring|].
    apply IH. lia.
Qed.

Lemma dict_set_lincomb_zip (k : Z) (x y : ndarray R)
  (acc1 acc2 : dict (ndarray R)) :
  dict_keys acc1 = dict_keys acc2 ->
  dict_set k (arr_lincomb a x b y) (dict_lincomb_zip a acc1 b acc2)
  = dict_lincomb_zip a (dict_set k x acc1) b (dict_set k y acc2).
Proof.
  unfold dict_keys. revert acc2.
  induction acc1 as [|[k1 x1] acc1 IH]; intros [|[k2 y1] acc2] E;
    try discriminate; [reflexivity|].
  simpl in E. injection E as <- E. unfold dict_lincomb_zip in *. simpl.
  destruct (Z.eqb k k1); simpl; [reflexivity|]. now rewrite IH.
Qed.

Lemma dict_set_keys {V : Type} (k : Z) (x y : V) (acc1 acc2 : dict V) :
  dict_keys acc1 = dict_keys acc2 ->
  dict_keys (dict_set k x acc1) = dict_keys (dict_set k y acc2).
Proof.
  unfold dict_keys. revert acc2.
  induction acc1 as [|[k1 x1] acc1 IH]; intros [|[k2 y1] acc2] E;
    try discriminate; [reflexivity|].
  simpl in E. injection E as <- E. simpl.
  destruct (Z.eqb k k1); simpl; f_equal; auto.
Qed.

Lemma apply_param_jac_loop_lincomb (self : ParamConeProg R)
  (d1 d2 : list R) (active : list Z) (items : list (Z * Z))
  (acc1 acc2 g1 g2 : dict (ndarray R)) :
  length d1 = length d2 ->
  dict_keys acc1 = dict_keys acc2 ->
  apply_param_jac_loop self d1 active items acc1 = Ok g1 ->
  apply_param_jac_loop self d2 active items acc2 = Ok g2 ->
  apply_param_jac_loop self (vlincomb a d1 b d2) active items
    (dict_lincomb_zip a acc1 b acc2)
  = Ok (dict_lincomb_zip a g1 b g2).
Proof.
  intros Ed. revert acc1 acc2.
  induction items as [|[k col] items IH]; intros acc1 acc2 Ek; simpl.
  - now intros [= <-] [= <-].
  - destruct (id_in k active); [|now apply IH].
    destruct (dict_getitem k (id_to_param self)) as [p|]; simpl;
      [|discriminate].
    rewrite length_vlincomb by assumption. rewrite <- Ed.
    destruct (Nat.eqb (length d1) 1); simpl; [discriminate|].
    unfold np_reshape. rewrite vlincomb_py_slice by assumption.
    assert (El : length (py_slice d1 col (Z.of_nat (param_size p) + col))
                 = length (py_slice d2 col
                             (Z.of_nat (param_size p) + col))).
    { unfold py_slice. rewrite <- Ed.
      rewrite !length_firstn, !length_skipn. lia. }
    rewrite length_vlincomb by assumption. rewrite <- El.
    destruct (Nat.eqb _ (shape_size (param_shape p))); simpl;
      [|discriminate].
    intros H1 H2.
    rewrite <- (IH _ _ (dict_set_keys k _ _ acc1 acc2 Ek) H1 H2).
    f_equal. rewrite <- dict_set_lincomb_zip by assumption.
    reflexivity.
Qed.

Lemma apply_param_jac_lincomb (self : ParamConeProg R)
  (delc1 delc2 : list R) (delA1 delA2 : matrix R) (delb1 delb2 : list R)
  (active_params : option (list Z)) (g1 g2 : dict (ndarray R)) :
  coeff_shapes_ok self delc1 delA1 delb1 = true ->
  coeff_shapes_ok self delc2 delA2 delb2 = true ->
  apply_param_jac self delc1 delA1 delb1 active_params = Ok g1 ->
  apply_param_jac self delc2 delA2 delb2 active_params = Ok g2 ->
  apply_param_jac self (vlincomb a delc1 b delc2)
    (mlincomb a delA1 b delA2) (vlincomb a delb1 b delb2) active_params
  = Ok (dict_lincomb_zip a g1 b g2).
Proof.
  unfold coeff_shapes_ok. rewrite !andb_true_iff, !Nat.eqb_eq.
  intros [[[[Hc1 Hw1] Hn1] Hm1] Hb1] [[[[Hc2 Hw2] Hn2] Hm2] Hb2].
  assert (Hrows : Forall2 (fun r1 r2 : list R => length r1 = length r2)
                    (rows delA1) (rows delA2)).
  { apply well_shaped_Forall in Hw1, Hw2. rewrite Hn1 in Hw1.
    rewrite Hn2 in Hw2. unfold nrows in Hm1, Hm2.
    assert (El : length (rows delA1) = length (rows delA2)) by congruence.
    clear -Hw1 Hw2 El. revert Hw1 Hw2 El.
    generalize (rows delA1) (rows delA2).
    induction l as [|r1 l IH]; intros [|r2 l2] H1 H2 El;
      try discriminate; constructor.
    - inversion H1; inversion H2; congruence.
    - inversion H1; inversion H2; apply IH; auto. }
  unfold apply_param_jac.
  destruct (vecmat delc1 _) as [t1|] eqn:Ht1; simpl; [|discriminate].
  destruct (vecmat delc2 _) as [t2|] eqn:Ht2; simpl; [|discriminate].
  rewrite (vecmat_lincomb delc1 delc2 _ t1 t2
             (eq_trans Hc1 (eq_sym Hc2)) Ht1 Ht2). simpl.
  rewrite flatten_F_mlincomb by (congruence || assumption).
  assert (Ef : length (flatten_F delA1) = length (flatten_F delA2)).
  { unfold flatten_F. rewrite Hn1, Hn2.
    induction (seq 0 (var_size (prog_x self))) as [|j js IHj];
      [reflexivity|].
    simpl. rewrite !length_app, IHj. unfold column.
    rewrite !length_map. apply Forall2_length in Hrows. lia. }
  rewrite <- vlincomb_app by assumption.
  destruct (vecmat (flatten_F delA1 ++ delb1) _) as [s1|] eqn:Hs1; simpl;
    [|discriminate].
  destruct (vecmat (flatten_F delA2 ++ delb2) _) as [s2|] eqn:Hs2; simpl;
    [|discriminate].
  assert (Eab : length (flatten_F delA1 ++ delb1)
                = length (flatten_F delA2 ++ delb2))
    by (rewrite !length_app; congruence).
  rewrite (vecmat_lincomb _ _ _ s1 s2 Eab Hs1 Hs2). simpl.
  destruct (iadd t1 s1) as [d1|] eqn:Hd1; simpl; [|discriminate].
  destruct (iadd t2 s2) as [d2|] eqn:Hd2; simpl; [|discriminate].
  assert (Et : length t1 = length t2).
  { rewrite (vecmat_length _ _ _ Ht1). now rewrite (vecmat_length _ _ _ Ht2). }
  assert (Es : length s1 = length s2).
  { rewrite (vecmat_length _ _ _ Hs1). now rewrite (vecmat_length _ _ _ Hs2). }
  rewrite (iadd_lincomb _ _ _ _ _ _ Et Es Hd1 Hd2). simpl.
  intros H1 H2.
  apply (apply_param_jac_loop_lincomb self d1 d2 _ _ [] [] g1 g2);
    auto.
  unfold iadd in Hd1, Hd2.
  destruct (Nat.eqb_spec (length s1) (length t1)) as [E1|E1].
  - destruct (Nat.eqb_spec (length s2) (length t2)) as [E2|E2];
      [|congruence].
    injection Hd1 as <-. injection Hd2 as <-.
    rewrite !length_vadd; congruence.
  - destruct (Nat.eqb_spec (length s2) (length t2)) as [E2|E2];
      [congruence|].
    destruct s1 as [|? [|? ?]], s2 as [|? [|? ?]]; try discriminate.
    injection Hd1 as <-. injection Hd2 as <-.
    now rewrite !length_map.
Qed.
End Algebra.

(** ** [apply_parameters]: dependence on the parameter values *)

(** C3, as stated, fails: the column of the constant term makes
    [apply_parameters] affine, not linear. For [prog_ex], whose objective
    coefficient is [p + q + 3], the values at [1*p1 + 1*p2] are not the sum
    of the values at [p1] and at [p2]. *)
Lemma apply_parameters_not_linear :
  apply_parameters (-1) prog_ex (Some values_1)
  = Ok ([5; 4]%Z, {| ncols := 2; rows := [[2; 6]%Z] |}) /\
  apply_parameters (-1) prog_ex (Some values_2)
  = Ok ([7; 4]%Z, {| ncols := 2; rows := [[4; 7]%Z] |}) /\
  apply_parameters (-1) prog_ex (Some (dict_lincomb 1%Z values_1 1%Z values_2))
  <> Ok (vlincomb 1%Z [5; 4]%Z 1%Z [7; 4]%Z,
         mlincomb 1%Z {| ncols := 2; rows := [[2; 6]%Z] |}
                  1%Z {| ncols := 2; rows := [[4; 7]%Z] |}).
Proof. repeat split. vm_compute. discriminate. Qed.

(** C3, amended. For a fixed program, [apply_parameters] is affine in the
    parameter values: for two assignments [p1], [p2] on which it returns,
    with values of the same sizes, and scalars [a], [b] with [a + b = 1], it
    returns at [a*p1 + b*p2] the combination [a*c1 + b*c2] of the objective
    vectors and [a*A1 + b*A2] of the constraint matrices. *)
Theorem apply_parameters_affine {R : Type} `{Num R}
  (Rth : ring_theory zero one add mul sub neg (@eq R))
  (CONSTANT_ID : Z) (self : ParamConeProg R) (a b : R)
  (p1 p2 : dict (ndarray R)) (c1 c2 : list R) (A1 A2 : matrix R) :
  add a b = one ->
  same_sizes p1 p2 ->
  apply_parameters CONSTANT_ID self (Some p1) = Ok (c1, A1) ->
  apply_parameters CONSTANT_ID self (Some p2) = Ok (c2, A2) ->
  apply_parameters CONSTANT_ID self (Some (dict_lincomb a p1 b p2))
  = Ok (vlincomb a c1 b c2, mlincomb a A1 b A2).
Proof.
  intros Hab Hsz H1 H2.
  exact (apply_parameters_lincomb Rth a b CONSTANT_ID self p1 p2 _ _
           Hab Hsz H1 H2).
Qed.

Lemma apply_parameters_affine_witness :
  apply_parameters (-1) prog_ex
    (Some (dict_lincomb 3%Z values_1 (-2)%Z values_2))
  = Ok (vlincomb 3%Z [5; 4]%Z (-2)%Z [7; 4]%Z,
        mlincomb 3%Z {| ncols := 2; rows := [[2; 6]%Z] |}
                 (-2)%Z {| ncols := 2; rows := [[4; 7]%Z] |}).
Proof.
  refine (apply_parameters_affine Zth (-1) prog_ex 3%Z (-2)%Z
            values_1 values_2 _ _ _ _ _ _ _ _); try reflexivity.
  intros k x y. unfold values_1, values_2. simpl.
  destruct (Z.eqb k 7); [now intros [= <-] [= <-]|].
  destruct (Z.eqb k 8); [now intros [= <-] [= <-]|discriminate].
Defined.

(** ** [apply_parameters]: where the parameter values come from *)

Section ParameterValues.
Context {R : Type} `{Num R}.
Variable CONSTANT_ID : Z.
Variable self : ParamConeProg R.

(** The loop raises as soon as one of its items cannot be stored. *)
Lemma param_vec_loop_raises (m : option (dict (ndarray R))) (k col : Z)
  (items : list (Z * Z)) (u : list R) :
  In (k, col) items ->
  Z.eqb k CONSTANT_ID = false ->
  (forall u', length u' = length u ->
     exists e,
       (val <- param_value self m k ;;
        param <- dict_getitem k (id_to_param self) ;;
        set_slice_flat u' col (Z.of_nat (param_size param) + col) val)
       = Raise e) ->
  exists e, param_vec_loop CONSTANT_ID self m items u = Raise e.
Proof.
  intros Hin Hk. revert u.
  induction items as [|[k0 col0] items IH]; intros u Hstep; [easy|].
  simpl.
  assert (Hrest : In (k, col) items ->
            forall u', length u' = length u ->
            exists e,
              param_vec_loop CONSTANT_ID self m items u' = Raise e).
  { intros Hin' u' Hu'. apply IH; [assumption|].
    intros u'' Hu''. apply Hstep. congruence. }
  destruct (Z.eqb k0 CONSTANT_ID) eqn:Hk0.
  - destruct Hin as [E|Hin]; [inversion E; subst; congruence|].
    destruct (set_item u col0 one) as [u'|e] eqn:Hset; simpl; [|eauto].
    apply Hrest; [assumption|]. eapply set_item_length; eauto.
  - destruct Hin as [E|Hin].
    + inversion E; subst k0 col0.
      destruct (Hstep u eq_refl) as [e He].
      destruct (param_value self m k) as [val|]; simpl in *; [|eauto].
      destruct (dict_getitem k (id_to_param self)) as [p|];
        simpl in *; [|eauto].
      rewrite He. simpl. eauto.
    + destruct (param_value self m k0) as [val|]; simpl; [|eauto].
      destruct (dict_getitem k0 (id_to_param self)) as [p|]; simpl;
        [|eauto].
      destruct (set_slice_flat u col0 _ val) as [u'|] eqn:Hset; simpl;
        [|eauto].
      apply Hrest; [assumption|]. unfold set_slice_flat in Hset.
      destruct val as [arr|]; eapply set_slice_length; eauto.
Qed.

Lemma dict_get_stored_values (k : Z) :
  dict_get k (stored_values self)
  = match dict_get k (id_to_param self) with
    | Some p => match value p with
                | Some arr => Some arr
                | None => dict_get k (stored_values self)
                end
    | None => None
    end.
Proof.
  unfold stored_values.
  induction (id_to_param self) as [|[k0 p0] d IH]; simpl; [reflexivity|].
  destruct (Z.eqb_spec k k0) as [->|Hne].
  - destruct (value p0) as [arr|]; simpl; [now rewrite Z.eqb_refl|].
    reflexivity.
  - destruct (value p0) as [arr|]; simpl.
    + destruct (Z.eqb_spec k k0); [contradiction|]. exact IH.
    + exact IH.
Qed.

Lemma param_value_stored (k : Z) :
  (forall p, dict_get k (id_to_param self) = Some p -> value p <> None) ->
  param_value self None k
  = param_value self (Some (stored_values self)) k.
Proof.
  intros Hset. unfold param_value, dict_getitem.
  rewrite dict_get_stored_values.
  destruct (dict_get k (id_to_param self)) as [p|]; simpl; [|reflexivity].
  specialize (Hset p eq_refl).
  destruct (value p); [reflexivity|contradiction].
Qed.

Lemma param_vec_loop_stored (items : list (Z * Z)) (u : list R) :
  (forall k col p, In (k, col) items -> k <> CONSTANT_ID ->
     dict_get k (id_to_param self) = Some p -> value p <> None) ->
  param_vec_loop CONSTANT_ID self None items u
  = param_vec_loop CONSTANT_ID self (Some (stored_values self)) items u.
Proof.
  revert u. induction items as [|[k col] items IH]; intros u Hset;
    [reflexivity|].
  assert (Hrest : forall u',
            param_vec_loop CONSTANT_ID self None items u'
            = param_vec_loop CONSTANT_ID self
                (Some (stored_values self)) items u').
  { intros u'. apply IH. intros k' col' p Hin. apply (Hset k' col' p).
    now right. }
  cbn [param_vec_loop]. destruct (Z.eqb_spec k CONSTANT_ID) as [->|Hk].
  - destruct (set_item u col one); simpl; [apply Hrest|reflexivity].
  - rewrite param_value_stored
      by (intros p; apply (Hset k col p); [now left|assumption]).
    destruct (param_value self (Some (stored_values self)) k); simpl;
      [|reflexivity].
    destruct (dict_getitem k (id_to_param self)); simpl; [|reflexivity].
    destruct (set_slice_flat u col _ _); simpl; [apply Hrest|reflexivity].
Qed.
End ParameterValues.

(** *** A call without a mapping *)

Section UnsetValues.
Context {R : Type} `{Num R}.
Variable CONSTANT_ID : Z.
Variable self : ParamConeProg R.

Lemma dict_get_read_values (k : Z) :
  dict_get k (read_values self)
  = match dict_get k (id_to_param self) with
    | Some p => Some match value p with
                     | Some a => a
                     | None => {| shape := []; data := [nan] |}
                     end
    | None => None
    end.
Proof.
  unfold read_values.
  induction (id_to_param self) as [|[k0 p0] d IH]; simpl; [reflexivity|].
  destruct (Z.eqb k k0); [reflexivity|exact IH].
Qed.

(** An unset value is stored as the value NaN of one entry is. *)
Lemma param_vec_loop_read (items : list (Z * Z)) (u : list R) :
  param_vec_loop CONSTANT_ID self None items u
  = param_vec_loop CONSTANT_ID self (Some (read_values self)) items u.
Proof.
  revert u. induction items as [|[k col] items IH]; intros u;
    [reflexivity|].
  cbn [param_vec_loop]. destruct (Z.eqb k CONSTANT_ID).
  - destruct (set_item u col one); simpl; [apply IH|reflexivity].
  - unfold param_value, dict_getitem. rewrite dict_get_read_values.
    destruct (dict_get k (id_to_param self)) as [p|]; simpl; [|reflexivity].
    destruct (value p) as [a|]; simpl.
    + destruct (set_slice u col _ (flatten a)); simpl;
        [apply IH|reflexivity].
    + unfold flatten. simpl.
      destruct (set_slice u col _ [nan]); simpl; [apply IH|reflexivity].
Qed.

(** A value of one entry can be stored into every slice. *)
Lemma set_slice_one (v : list R) (a b : Z) (e : R) :
  exists v', set_slice v a b [e] = Ok v'.
Proof.
  unfold set_slice.
  destruct (Nat.eqb (length [e]) _); eauto.
Qed.

Lemma param_vec_loop_unset_returns (items : list (Z * Z)) (u : list R) :
  ranges_within (length u) (item_ranges CONSTANT_ID self items) = true ->
  (forall k col, In (k, col) items -> k <> CONSTANT_ID ->
     exists pr, dict_get k (id_to_param self) = Some pr /\
                forall a, value pr = Some a ->
                          length (data a) = param_size pr) ->
  exists v, param_vec_loop CONSTANT_ID self None items u = Ok v.
Proof.
  revert u. induction items as [|[k0 col0] items IH];
    intros u Hwithin Hall; [simpl; eauto|].
  cbn [param_vec_loop].
  unfold item_ranges in Hwithin. cbn [flat_map fst snd] in Hwithin.
  fold (item_ranges CONSTANT_ID self items) in Hwithin.
  assert (Hrest : forall u', length u' = length u ->
            forall pre,
              ranges_within (length u)
                (pre ++ item_ranges CONSTANT_ID self items) = true ->
              exists v,
                param_vec_loop CONSTANT_ID self None items u' = Ok v).
  { intros u' Hlen pre Hw. apply IH.
    - rewrite Hlen. unfold ranges_within in Hw |- *.
      rewrite forallb_app in Hw. apply andb_true_iff in Hw. tauto.
    - intros k col Hin. apply (Hall k col). now right. }
  destruct (Z.eqb_spec k0 CONSTANT_ID) as [Ek|Ek].
  - assert (Hok : range_ok (length u) (col0, 1)).
    { apply range_okb_spec. cbn [app ranges_within forallb] in Hwithin.
      apply andb_true_iff in Hwithin. tauto. }
    destruct Hok as [Hz|[H0 Hn]]; [discriminate|]. cbn [fst snd] in H0, Hn.
    unfold set_item.
    replace (col0 <? 0)%Z with false by (symmetry; apply Z.ltb_ge; lia).
    replace ((0 <=? col0) && (col0 <? Z.of_nat (length u)))%Z with true
      by (symmetry; apply andb_true_iff; split;
          [apply Z.leb_le|apply Z.ltb_lt]; lia).
    cbn [bind]. apply (Hrest _) with (pre := [(col0, 1)]);
      [|exact Hwithin].
    rewrite length_app, length_firstn, length_cons, length_skipn. lia.
  - destruct (Hall k0 col0 (or_introl eq_refl) Ek) as [pr [Hpr Hfit]].
    unfold param_value, dict_getitem. rewrite Hpr. cbn [bind].
    rewrite Hpr in Hwithin.
    assert (Hok : range_ok (length u) (col0, param_size pr)).
    { apply range_okb_spec. cbn [app ranges_within forallb] in Hwithin.
      apply andb_true_iff in Hwithin. tauto. }
    assert (Hset : exists u1,
               set_slice_flat u col0 (Z.of_nat (param_size pr) + col0)
                 (np_array (value pr)) = Ok u1).
    { destruct (value pr) as [a|] eqn:Hv; simpl.
      - unfold set_slice. destruct (slice_bounds _ _ _ Hok) as [-> _].
        unfold flatten. rewrite (Hfit a eq_refl), Nat.eqb_refl. eauto.
      - apply set_slice_one. }
    destruct Hset as [u1 Hset]. rewrite Hset. cbn [bind].
    apply (Hrest _) with (pre := [(col0, param_size pr)]);
      [|exact Hwithin].
    unfold set_slice_flat in Hset.
    destruct (np_array (value pr)); eapply set_slice_length; eauto.
Qed.
End UnsetValues.

(** C6, as stated, fails in both halves. An override mapping does not
    merely override: both parameters of [prog_ex] have a stored value, and
    the call without a mapping returns; with a mapping that mentions only
    [p], the call raises [KeyError] at [q] instead of using the stored
    value of [q]. And a parameter without a stored value does not make the
    call without a mapping fail: [q] of [prog_unset] has none, NaN is
    stored in its column of the parameter vector, and the call returns. *)
Lemma apply_parameters_partial_override_raises :
  is_ok (apply_parameters (-1) prog_ex None) = true /\
  Forall (fun p => value p <> None) (parameters prog_ex) /\
  apply_parameters (-1) prog_ex (Some [(7%Z, scalar 1)]) = Raise KeyError /\
  map (fun p => (param_id p, value p)) (parameters prog_unset)
  = [(7%Z, Some {| shape := []; data := [Fin 2] |}); (8%Z, None)] /\
  flat_param_vec (-1) prog_unset None = Ok [Fin 2; NaN; Fin 1] /\
  is_ok (apply_parameters (-1) prog_unset None) = true.
Proof.
  split; [reflexivity|]. split; [|repeat split].
  repeat constructor; discriminate.
Qed.

(** C6, amended. Without a mapping, every parameter is read from its
    stored value, and a parameter without one is read as NaN: the call is
    the call with the mapping [read_values], and it returns whenever the
    column ranges lie within the parameter vector, every value that is set
    has the size of its parameter and the stored coefficients have the
    shapes that the products need, whether or not a value is unset. A
    mapping, when given, replaces the stored values altogether: the call
    fails if a parameter of [param_id_to_col] has no entry in it, whether
    or not it has a stored value. *)
Theorem apply_parameters_values {R : Type} `{Num R} (CONSTANT_ID : Z)
  (self : ParamConeProg R) :
  apply_parameters CONSTANT_ID self None
  = apply_parameters CONSTANT_ID self (Some (read_values self)) /\
  (ranges_within (total_param_size self + 1)
     (param_ranges CONSTANT_ID self) = true ->
   (forall k col,
       In (k, col) (param_id_to_col self) -> k <> CONSTANT_ID ->
       exists pr, dict_get k (id_to_param self) = Some pr /\
                  forall a, value pr = Some a ->
                            length (data a) = param_size pr) ->
   well_shaped (prog_c self) = true ->
   ncols (prog_c self) = total_param_size self + 1 ->
   well_shaped (prog_A self) = true ->
   ncols (prog_A self) = total_param_size self + 1 ->
   nrows (prog_A self) mod (var_size (prog_x self) + 1) = 0 ->
   exists c A, apply_parameters CONSTANT_ID self None = Ok (c, A)) /\
  (forall m k col,
      In (k, col) (param_id_to_col self) -> k <> CONSTANT_ID ->
      dict_get k m = None ->
      exists e, apply_parameters CONSTANT_ID self (Some m) = Raise e) /\
  ((forall k col p,
       In (k, col) (param_id_to_col self) -> k <> CONSTANT_ID ->
       dict_get k (id_to_param self) = Some p -> value p <> None) ->
   apply_parameters CONSTANT_ID self None
   = apply_parameters CONSTANT_ID self (Some (stored_values self))).
Proof.
  split; [|split; [|split]].
  - unfold apply_parameters, flat_param_vec.
    now rewrite param_vec_loop_read.
  - intros Hwithin Hall Hwc Hnc HwA HnA Hmod.
    destruct (param_vec_loop_unset_returns CONSTANT_ID self
                (param_id_to_col self)
                (repeat zero (total_param_size self + 1))) as [u Hu];
      [rewrite repeat_length; exact Hwithin|exact Hall|].
    assert (Hlen : length u = total_param_size self + 1).
    { apply param_vec_loop_length in Hu. now rewrite repeat_length in Hu. }
    unfold apply_parameters, flat_param_vec. rewrite Hu. cbn [bind].
    unfold matvec. rewrite Hwc, HwA, Hnc, HnA, Hlen, Nat.eqb_refl.
    cbn [andb bind].
    unfold reshape_F. rewrite length_map. fold (nrows (prog_A self)).
    set (k := var_size (prog_x self) + 1) in *.
    assert (E : nrows (prog_A self) = nrows (prog_A self) / k * k).
    { rewrite Nat.mul_comm. apply Nat.Div0.div_exact. exact Hmod. }
    rewrite <- E, Nat.eqb_refl. cbn [bind]. eauto.
  - intros m k col Hin Hk Hm.
    destruct (param_vec_loop_raises CONSTANT_ID self (Some m) k col
                (param_id_to_col self)
                (repeat zero (total_param_size self + 1)) Hin)
      as [e He].
    + now apply Z.eqb_neq.
    + intros u' _. unfold param_value, dict_getitem. rewrite Hm. simpl.
      eauto.
    + exists e. unfold apply_parameters, flat_param_vec. now rewrite He.
  - intros Hset. unfold apply_parameters, flat_param_vec.
    now rewrite (param_vec_loop_stored CONSTANT_ID self _ _ Hset).
Qed.

Lemma apply_parameters_values_witness :
  apply_parameters (-1) prog_unset None
  = apply_parameters (-1) prog_unset
      (Some [(7%Z, {| shape := []; data := [Fin 2] |});
             (8%Z, {| shape := []; data := [NaN] |})]) /\
  (exists c A, apply_parameters (-1) prog_unset None = Ok (c, A)) /\
  (exists e,
      apply_parameters (-1) prog_ex (Some [(7%Z, scalar 1)]) = Raise e) /\
  apply_parameters (-1) prog_ex None
  = apply_parameters (-1) prog_ex (Some (stored_values prog_ex)).
Proof.
  split; [|split; [|split]].
  - exact (proj1 (apply_parameters_values (-1) prog_unset)).
  - refine (proj1 (proj2 (apply_parameters_values (-1) prog_unset))
              _ _ _ _ _ _ _); try reflexivity.
    intros k col Hin Hk. simpl in Hin.
    destruct Hin as [E|[E|[E|[]]]]; inversion E; subst.
    + eexists. split; [reflexivity|]. now intros a [= <-].
    + eexists. split; [reflexivity|]. discriminate.
    + contradiction.
  - refine (proj1 (proj2 (proj2 (apply_parameters_values (-1) prog_ex)))
              [(7%Z, scalar 1)] 8%Z 1%Z _ _ _).
    + simpl. tauto.
    + discriminate.
    + reflexivity.
  - refine (proj2 (proj2 (proj2 (apply_parameters_values (-1) prog_ex))) _).
    intros k col p Hin _. simpl in Hin.
    destruct Hin as [E|[E|[E|[]]]]; inversion E; subst; simpl;
      intros [= <-]; discriminate.
Defined.

(** ** [apply_param_jac] as the adjoint of [apply_parameters] *)

Section Adjoint.
Context {R : Type} `{Num R}.
Hypothesis Rth : ring_theory zero one add mul sub neg (@eq R).
Add Ring Rring_adjoint : Rth.

Lemma dot_nil_r (u : list R) : dot u [] = zero.
Proof. now destruct u. Qed.

Lemma dot_app (l1 l2 m1 m2 : list R) :
  length l1 = length m1 ->
  dot (l1 ++ l2) (m1 ++ m2) = add (dot l1 m1) (dot l2 m2).
Proof.
  revert m1. induction l1 as [|x l1 IH]; intros [|y m1] E;
    try discriminate; simpl.
  - ring.
  - rewrite IH by (simpl in E; lia). ring.
Qed.

Lemma dot_firstn_r (u v : list R) : dot u (firstn (length u) v) = dot u v.
Proof.
  revert v. induction u as [|x u IH]; intros [|y v]; simpl;
    try reflexivity. now rewrite IH.
Qed.

Lemma dot_zero_l (k : nat) (w : list R) : dot (repeat zero k) w = zero.
Proof.
  revert w. induction k as [|k IH]; intros [|y w]; simpl;
    try reflexivity. rewrite IH. ring.
Qed.

Lemma dot_zero_r (k : nat) (u : list R) : dot u (repeat zero k) = zero.
Proof.
  revert u. induction k as [|k IH]; intros [|x u]; simpl;
    try reflexivity. rewrite IH. ring.
Qed.

Lemma dot_vscale_l (x : R) (u w : list R) :
  dot (vscale x u) w = mul x (dot u w).
Proof.
  revert w. induction u as [|y u IH]; intros [|z w]; simpl; try ring.
  unfold vscale in IH. rewrite IH. ring.
Qed.

Lemma dot_vadd_l (u v w : list R) :
  length u = length v ->
  dot (vadd u v) w = add (dot u w) (dot v w).
Proof.
  revert v w. induction u as [|x u IH]; intros [|y v] [|z w] E;
    try discriminate; simpl; try ring.
  unfold vadd in IH. rewrite IH by (simpl in E; lia). ring.
Qed.

Lemma dot_vsub_r (u v1 v0 : list R) :
  length v1 = length v0 ->
  dot u (vsub v1 v0) = sub (dot u v1) (dot u v0).
Proof.
  revert v1 v0. induction u as [|x u IH]; intros [|y v1] [|z v0] E;
    try discriminate; simpl; try ring.
  unfold vsub in IH. rewrite IH by (simpl in E; lia). ring.
Qed.

(** [(u @ M) . w = u . (M @ w)] *)
Lemma dot_rows_comb (k : nat) (u : list R) (rs : list (list R))
  (w : list R) :
  Forall (fun r => length r = k) rs ->
  dot (rows_comb k u rs) w = dot u (map (fun r => dot r w) rs).
Proof.
  revert rs. induction u as [|x u IH]; intros rs Hrs; simpl.
  - apply dot_zero_l.
  - destruct rs as [|r rs]; simpl; [apply dot_zero_l|].
    inversion Hrs as [|? ? Hr Hrs']; subst.
    rewrite dot_vadd_l, dot_vscale_l, IH by
      (try assumption; unfold vscale; rewrite length_map;
       symmetry; now apply rows_comb_length).
    reflexivity.
Qed.

Lemma nth_vsub (i : nat) (u v : list R) :
  length u = length v ->
  nth i (vsub u v) zero = sub (nth i u zero) (nth i v zero).
Proof.
  revert i v. induction u as [|x u IH]; intros i [|y v] E;
    try discriminate.
  - destruct i; simpl; ring.
  - destruct i as [|i]; [reflexivity|]. simpl in E.
    unfold vsub in *. simpl. apply IH. lia.
Qed.

Lemma vsub_map {T : Type} (f g : T -> R) (l : list T) :
  vsub (map f l) (map g l) = map (fun x => sub (f x) (g x)) l.
Proof. unfold vsub. now rewrite combine_map_same, map_map. Qed.

Lemma removelast_map {T U : Type} (f : T -> U) (l : list T) :
  removelast (map f l) = map f (removelast l).
Proof.
  induction l as [|x l IH]; [reflexivity|]. simpl.
  destruct l; [reflexivity|]. simpl in *. now rewrite IH.
Qed.

(** The difference of two values of [M @ v] is [M @ (v1 - v0)]. *)
Lemma matvec_sub (M : matrix R) (v1 v0 c1 c0 : list R) :
  length v1 = length v0 ->
  matvec M v1 = Ok c1 ->
  matvec M v0 = Ok c0 ->
  vsub c1 c0 = map (fun r => dot r (vsub v1 v0)) (rows M).
Proof.
  intros E. unfold matvec.
  destruct (_ && _)%bool; [|discriminate].
  destruct (_ && _)%bool; [|discriminate].
  intros [= <-] [= <-]. rewrite vsub_map. apply map_ext. intros r.
  symmetry. now apply dot_vsub_r.
Qed.

Lemma reshape_F_sub (v1 v0 : list R) (m k : nat) (M1 M0 : matrix R) :
  reshape_F v1 m k = Ok M1 ->
  reshape_F v0 m k = Ok M0 ->
  reshape_F (vsub v1 v0) m k = Ok (msub M1 M0).
Proof.
  unfold reshape_F.
  destruct (Nat.eqb_spec (length v1) (m * k)) as [E1|]; [|discriminate].
  destruct (Nat.eqb_spec (length v0) (m * k)) as [E0|]; [|discriminate].
  assert (E : length v1 = length v0) by congruence.
  assert (El : length (vsub v1 v0) = m * k).
  { unfold vsub. rewrite length_map, length_combine. lia. }
  rewrite El, Nat.eqb_refl.
  intros [= <-] [= <-]. unfold msub. simpl. f_equal. f_equal.
  rewrite combine_map_same, map_map. apply map_ext. intros i. simpl.
  rewrite vsub_map. apply map_ext. intros j.
  now apply nth_vsub.
Qed.

Lemma nth_map_seq (f : nat -> R) (n i : nat) :
  i < n -> nth i (map f (seq 0 n)) zero = f i.
Proof.
  intros Hi. rewrite (nth_indep _ zero (f 0))
    by (rewrite length_map, length_seq; exact Hi).
  rewrite map_nth, seq_nth by exact Hi. reflexivity.
Qed.

(** Column [j] of a vector reshaped in Fortran order is its [j]-th block
    of [m] entries. *)
Lemma column_reshape_F (v : list R) (m k j : nat) (M : matrix R) :
  reshape_F v m k = Ok M -> j < k ->
  column j M = firstn m (skipn (j * m) v).
Proof.
  unfold reshape_F.
  destruct (Nat.eqb_spec (length v) (m * k)) as [E|]; [|discriminate].
  intros [= <-] Hj. unfold column. simpl. rewrite map_map.
  apply list_eq_nth.
  - rewrite length_map, length_seq, length_firstn, length_skipn. nia.
  - intros i. destruct (Nat.lt_ge_cases i m) as [Hi|Hi].
    + rewrite nth_firstn. destruct (Nat.ltb_spec i m); [|lia].
      rewrite nth_skipn.
      rewrite (nth_map_seq
                 (fun i0 => nth j (map (fun j0 => nth (i0 + j0 * m) v zero)
                                     (seq 0 k)) zero) m i Hi).
      rewrite (nth_map_seq (fun j0 => nth (i + j0 * m) v zero) k j Hj).
      f_equal. lia.
    + rewrite !nth_overflow; [reflexivity| |].
      * rewrite length_firstn. lia.
      * now rewrite length_map, length_seq.
Qed.

(** Pairing [(delA, delb)] with a reshaped vector is pairing their
    flattening with the vector. *)
Lemma coeff_pairing_flat (delA : matrix R) (delb v : list R) (m n : nat)
  (M : matrix R) :
  ncols delA = n -> nrows delA = m -> length delb = m ->
  reshape_F v m (n + 1) = Ok M ->
  add (mat_inner delA M) (dot delb (column n M))
  = dot (flatten_F delA ++ delb) v.
Proof.
  intros Hn Hm Hb HM. unfold mat_inner, flatten_F. rewrite Hn.
  assert (Hlen : length v = m * (n + 1)).
  { unfold reshape_F in HM.
    destruct (Nat.eqb_spec (length v) (m * (n + 1))); [assumption|].
    discriminate. }
  assert (Haux : forall len start, start + len = n ->
            dot (flat_map (fun j => column j delA) (seq start len) ++ delb)
                (skipn (start * m) v)
            = add (fold_right
                     (fun j s => add (dot (column j delA) (column j M)) s)
                     zero (seq start len))
                  (dot delb (column n M))).
  { induction len as [|len IH]; intros start Hs.
    - simpl. rewrite Nat.add_0_r in Hs. subst start.
      rewrite (column_reshape_F v m (n + 1) n M HM) by lia.
      rewrite <- Hb, dot_firstn_r. ring.
    - simpl. rewrite <- app_assoc.
      rewrite <- (firstn_skipn m (skipn (start * m) v)).
      rewrite dot_app.
      + rewrite skipn_skipn.
        replace (m + start * m) with (S start * m) by reflexivity.
        rewrite IH by lia.
        rewrite (column_reshape_F v m (n + 1) start M HM) by lia.
        ring.
      + unfold column. rewrite length_map, length_firstn, length_skipn.
        unfold nrows in Hm. nia. }
  rewrite <- (Haux n 0 eq_refl). reflexivity.
Qed.

Lemma list_split3 {T : Type} (l : list T) (lo sz : nat) :
  l = firstn lo l ++ firstn sz (skipn lo l) ++ skipn (lo + sz) l.
Proof.
  rewrite <- (firstn_skipn lo l) at 1. f_equal.
  rewrite <- (firstn_skipn sz (skipn lo l)) at 1. f_equal.
  rewrite skipn_skipn. f_equal. lia.
Qed.

Lemma slice_bounds_le (n : nat) (col : Z) (sz : nat) :
  range_ok n (col, sz) -> py_index n col + sz <= n.
Proof.
  intros Hok. destruct (slice_bounds n col sz Hok) as [_ Hin].
  destruct sz as [|sz].
  - pose proof (py_index_le n col). lia.
  - destruct Hin as [-> Hle]; [discriminate|exact Hle].
Qed.

(** The effect of a slice assignment on an inner product. *)
Lemma dot_set_slice (u y x w : list R) (col : Z) (sz : nat) :
  range_ok (length u) (col, sz) ->
  length x = sz ->
  length y = length u ->
  set_slice u col (Z.of_nat sz + col) x = Ok w ->
  dot y w
  = add (sub (dot y u)
             (dot (py_slice y col (Z.of_nat sz + col))
                  (py_slice u col (Z.of_nat sz + col))))
        (dot (py_slice y col (Z.of_nat sz + col)) x).
Proof.
  intros Hok Hx Hy. unfold set_slice, py_slice. rewrite Hy.
  destruct (slice_bounds _ _ _ Hok) as [Hsz _]. rewrite Hsz.
  pose proof (slice_bounds_le _ _ _ Hok) as Hle.
  set (lo := py_index (length u) col) in *.
  rewrite Hx, Nat.eqb_refl. intros [= <-].
  pose proof (list_split3 y lo sz) as Ey.
  pose proof (list_split3 u lo sz) as Eu.
  assert (L1 : length (firstn lo y) = length (firstn lo u))
    by (rewrite !length_firstn; lia).
  assert (L2 : length (firstn sz (skipn lo y)) = length x)
    by (rewrite length_firstn, length_skipn; lia).
  assert (L3 : length (firstn sz (skipn lo y))
               = length (firstn sz (skipn lo u)))
    by (rewrite !length_firstn, !length_skipn; lia).
  set (y1 := firstn lo y) in *. set (y2 := firstn sz (skipn lo y)) in *.
  set (y3 := skipn (lo + sz) y) in *.
  set (u1 := firstn lo u) in *. set (u2 := firstn sz (skipn lo u)) in *.
  set (u3 := skipn (lo + sz) u) in *.
  rewrite Ey, Eu. rewrite !dot_app by assumption. ring.
Qed.

Lemma dot_vadd_r (u v w : list R) :
  length v = length w ->
  dot u (vadd v w) = add (dot u v) (dot u w).
Proof.
  revert v w. induction u as [|x u IH]; intros [|y v] [|z w] E;
    try discriminate; simpl; try ring.
  unfold vadd in IH. rewrite IH by (simpl in E; lia). ring.
Qed.

Lemma py_slice_agree (u0 u1 : list R) (col : Z) (sz : nat) :
  length u0 = length u1 ->
  range_ok (length u0) (col, sz) ->
  (forall i, in_range (Z.of_nat i) (col, sz) = true ->
             nth_error u0 i = nth_error u1 i) ->
  py_slice u0 col (Z.of_nat sz + col) = py_slice u1 col (Z.of_nat sz + col).
Proof.
  intros E Hok Hagree. unfold py_slice. rewrite <- E.
  destruct (slice_bounds _ _ _ Hok) as [-> Hin].
  destruct sz as [|sz]; [reflexivity|].
  destruct Hin as [-> Hle]; [discriminate|].
  assert (H0 : (0 <= col)%Z).
  { destruct Hok as [Hz|[H0 _]]; simpl in *; [discriminate|assumption]. }
  apply nth_error_ext. intros i. rewrite !nth_error_firstn.
  destruct (Nat.ltb_spec i (S sz)); [|reflexivity].
  rewrite !nth_error_skipn. apply Hagree.
  apply in_range_nat; [assumption|lia].
Qed.

Lemma set_slice_outside (u x w : list R) (col : Z) (sz : nat) (i : nat) :
  range_ok (length u) (col, sz) ->
  length x = sz ->
  set_slice u col (Z.of_nat sz + col) x = Ok w ->
  in_range (Z.of_nat i) (col, sz) = false ->
  nth_error w i = nth_error u i.
Proof.
  intros Hok Hx. unfold set_slice.
  destruct (slice_bounds _ _ _ Hok) as [Hsz Hin]. rewrite Hsz.
  pose proof (slice_bounds_le _ _ _ Hok) as Hle.
  rewrite Hx, Nat.eqb_refl. intros [= <-] Hout.
  destruct sz as [|sz].
  - apply length_zero_iff_nil in Hx. subst x.
    rewrite Nat.add_0_r. simpl. now rewrite firstn_skipn.
  - destruct Hin as [Hlo _]; [discriminate|]. rewrite Hlo in *.
    assert (H0 : (0 <= col)%Z).
    { destruct Hok as [Hz|[H0 _]]; simpl in *; [discriminate|assumption]. }
    set (lo := Z.to_nat col) in *.
    assert (Hi : i < lo \/ lo + S sz <= i).
    { destruct (Nat.lt_ge_cases i lo); [auto|].
      destruct (Nat.lt_ge_cases i (lo + S sz)); [|auto].
      assert (in_range (Z.of_nat i) (col, S sz) = true)
        by (apply in_range_nat; [assumption|fold lo; lia]).
      congruence. }
    destruct Hi as [Hlt|Hge].
    + rewrite nth_error_app1 by (rewrite length_firstn; lia).
      rewrite nth_error_firstn.
      destruct (Nat.ltb_spec i lo); [reflexivity|lia].
    + rewrite nth_error_app2 by (rewrite length_firstn; lia).
      rewrite length_firstn, Nat.min_l by lia.
      rewrite nth_error_app2 by lia.
      rewrite nth_error_skipn. f_equal. lia.
Qed.

Lemma set_item_as_slice (u : list R) (col : Z) (e : R) :
  range_ok (length u) (col, 1) ->
  set_item u col e = set_slice u col (Z.of_nat 1 + col) [e].
Proof.
  intros Hok. destruct (slice_bounds _ _ _ Hok) as [Hsz Hin].
  destruct Hin as [Hlo Hle]; [discriminate|].
  destruct Hok as [Hz|[H0 Hn]]; simpl in *; [discriminate|].
  unfold set_item, set_slice. rewrite Hsz, Hlo. simpl.
  destruct (Z.ltb_spec col 0); [lia|].
  destruct (Z.leb_spec 0 col); [|lia].
  destruct (Z.ltb_spec col (Z.of_nat (length u))); [|lia].
  simpl. now rewrite Nat.add_1_r.
Qed.

Lemma values_fit_get (self : ParamConeProg R) (p : dict (ndarray R))
  (k : Z) (x : ndarray R) (pr : parameter R) :
  values_fit self p = true ->
  dict_get k p = Some x ->
  dict_get k (id_to_param self) = Some pr ->
  length (data x) = param_size pr.
Proof.
  unfold values_fit. rewrite forallb_forall. intros Hfit Hx Hpr.
  specialize (Hfit (k, x) (dict_get_Some_In k x p Hx)). simpl in Hfit.
  rewrite Hpr in Hfit. now apply Nat.eqb_eq.
Qed.

Lemma dict_get_add (k : Z) (p dp : dict (ndarray R)) :
  dict_get k (dict_add p dp)
  = match dict_get k p with
    | Some x => Some match dict_get k dp with
                     | Some d => arr_add x d
                     | None => x
                     end
    | None => None
    end.
Proof.
  induction p as [|[k1 x] p IH]; simpl; [reflexivity|].
  destruct (Z.eqb_spec k k1) as [->|]; [reflexivity|apply IH].
Qed.

Lemma ranges_disjoint_tail (n : nat) (l1 l2 : list (Z * nat)) :
  ranges_disjoint n (l1 ++ l2) = true -> ranges_disjoint n l2 = true.
Proof.
  unfold ranges_disjoint. rewrite !forallb_forall. intros Hd i Hi.
  specialize (Hd i Hi). apply Nat.leb_le in Hd. apply Nat.leb_le.
  rewrite filter_app, length_app in Hd. lia.
Qed.

Lemma ranges_disjoint_head (n : nat) (r r' : Z * nat)
  (rs : list (Z * nat)) (i : nat) :
  ranges_disjoint n (r :: rs) = true ->
  i < n ->
  in_range (Z.of_nat i) r = true ->
  In r' rs ->
  in_range (Z.of_nat i) r' = false.
Proof.
  unfold ranges_disjoint. rewrite forallb_forall. intros Hd Hi Hr Hin.
  specialize (Hd i). rewrite in_seq in Hd.
  specialize (Hd ltac:(lia)). apply Nat.leb_le in Hd.
  simpl in Hd. rewrite Hr in Hd. simpl in Hd.
  destruct (in_range (Z.of_nat i) r') eqn:Hr'; [|reflexivity].
  assert (Hf : In r' (filter (in_range (Z.of_nat i)) rs))
    by (apply filter_In; auto).
  destruct (filter (in_range (Z.of_nat i)) rs); [contradiction|].
  simpl in Hd. lia.
Qed.

Lemma in_range_lt (n : nat) (r : Z * nat) (i : nat) :
  range_ok n r -> in_range (Z.of_nat i) r = true -> i < n.
Proof.
  unfold in_range. rewrite andb_true_iff, Z.leb_le, Z.ltb_lt.
  intros [Hz|[H0 Hn]] [H1 H2]; lia.
Qed.

Section Loops.
Variable CONSTANT_ID : Z.
Variable self : ParamConeProg R.
Variables p dp : dict (ndarray R).
Variable y : list R.
Hypothesis p_fits : values_fit self p = true.
Hypothesis dp_fits : values_fit self dp = true.

(** One item of the loop of [apply_parameters], run on the values [p]
    and on [p + dp]: the two parameter vectors move apart by [dp] on the
    range of the item, as seen through the inner product with [y]. *)
Lemma write_dot_diff (u0 u1 u0' u1' x0 x1 : list R) (col : Z)
  (sz : nat) (rs : list (Z * nat)) :
  length u0 = length y -> length u1 = length y ->
  range_ok (length y) (col, sz) ->
  length x0 = sz -> length x1 = sz ->
  ranges_disjoint (length y) ((col, sz) :: rs) = true ->
  Forall (range_ok (length y)) rs ->
  (forall r i, In r ((col, sz) :: rs) ->
               in_range (Z.of_nat i) r = true ->
               nth_error u0 i = nth_error u1 i) ->
  set_slice u0 col (Z.of_nat sz + col) x0 = Ok u0' ->
  set_slice u1 col (Z.of_nat sz + col) x1 = Ok u1' ->
  (forall r i, In r rs -> in_range (Z.of_nat i) r = true ->
               nth_error u0' i = nth_error u1' i) /\
  sub (dot y u1') (dot y u0')
  = add (sub (dot y u1) (dot y u0))
        (sub (dot (py_slice y col (Z.of_nat sz + col)) x1)
             (dot (py_slice y col (Z.of_nat sz + col)) x0)).
Proof.
  intros L0 L1 Hok Hx0 Hx1 Hdis Hrs Hagree H0 H1.
  assert (Hok0 : range_ok (length u0) (col, sz)) by now rewrite L0.
  assert (Hok1 : range_ok (length u1) (col, sz)) by now rewrite L1.
  split.
  - intros r i Hr Hi.
    assert (Hout : in_range (Z.of_nat i) (col, sz) = false).
    { destruct (in_range (Z.of_nat i) (col, sz)) eqn:Hc; [|reflexivity].
      rewrite Forall_forall in Hrs.
      pose proof (in_range_lt _ _ _ (Hrs r Hr) Hi) as Hlt.
      pose proof (ranges_disjoint_head _ _ r _ i Hdis Hlt Hc Hr).
      congruence. }
    rewrite (set_slice_outside u0 x0 u0' col sz i Hok0 Hx0 H0 Hout).
    rewrite (set_slice_outside u1 x1 u1' col sz i Hok1 Hx1 H1 Hout).
    apply (Hagree r i); [now right|assumption].
  - rewrite (dot_set_slice u0 y x0 u0' col sz Hok0 Hx0
               ltac:(congruence) H0).
    rewrite (dot_set_slice u1 y x1 u1' col sz Hok1 Hx1
               ltac:(congruence) H1).
    rewrite (py_slice_agree u0 u1 col sz ltac:(congruence) Hok0).
    + ring.
    + intros i Hi. apply (Hagree (col, sz) i); [now left|assumption].
Qed.

Lemma param_vec_loop_dot_diff (items : list (Z * Z))
  (u0 u1 w0 w1 : list R) :
  length u0 = length y -> length u1 = length y ->
  Forall (range_ok (length y)) (item_ranges CONSTANT_ID self items) ->
  ranges_disjoint (length y) (item_ranges CONSTANT_ID self items)
  = true ->
  (forall r i, In r (item_ranges CONSTANT_ID self items) ->
               in_range (Z.of_nat i) r = true ->
               nth_error u0 i = nth_error u1 i) ->
  param_vec_loop CONSTANT_ID self (Some p) items u0 = Ok w0 ->
  param_vec_loop CONSTANT_ID self (Some (dict_add p dp)) items u1
  = Ok w1 ->
  sub (dot y w1) (dot y w0)
  = add (sub (dot y u1) (dot y u0))
        (jac_pairing CONSTANT_ID self y dp items).
Proof.
  revert u0 u1.
  induction items as [|[k col] items IH];
    intros u0 u1 L0 L1 Hok Hdis Hagree.
  - simpl. intros [= <-] [= <-]. ring.
  - cbn [param_vec_loop jac_pairing].
    unfold item_ranges in Hok, Hdis, Hagree.
    cbn [flat_map fst snd] in Hok, Hdis, Hagree.
    fold (item_ranges CONSTANT_ID self items) in Hok, Hdis, Hagree.
    destruct (Z.eqb k CONSTANT_ID).
    + (* the column of the constant term *)
      simpl in Hok, Hdis, Hagree. inversion Hok as [|? ? Hr Hrs]; subst.
      rewrite (set_item_as_slice u0 col one) by now rewrite L0.
      rewrite (set_item_as_slice u1 col one) by now rewrite L1.
      destruct (set_slice u0 col _ [one]) as [u0'|] eqn:H0; simpl;
        [|discriminate].
      destruct (set_slice u1 col _ [one]) as [u1'|] eqn:H1; simpl;
        [|discriminate].
      intros Hw0 Hw1.
      destruct (write_dot_diff u0 u1 u0' u1' [one] [one] col 1 _
                  L0 L1 Hr eq_refl eq_refl Hdis Hrs Hagree H0 H1)
        as [Hagree' Hdot].
      rewrite (IH u0' u1'); try assumption.
      * rewrite Hdot. ring.
      * rewrite (set_slice_length _ _ _ _ _ H0). exact L0.
      * rewrite (set_slice_length _ _ _ _ _ H1). exact L1.
      * eapply ranges_disjoint_tail with (l1 := [_]). exact Hdis.
    + (* a parameter *)
      unfold param_value, dict_getitem. rewrite dict_get_add.
      destruct (dict_get k p) as [x|] eqn:Hx; simpl; [|discriminate].
      destruct (dict_get k (id_to_param self)) as [pr|] eqn:Hpr; simpl;
        [|discriminate].
      simpl in Hok, Hdis, Hagree. inversion Hok as [|? ? Hr Hrs]; subst.
      unfold flatten.
      destruct (set_slice u0 col _ (data x)) as [u0'|] eqn:H0; simpl;
        [|discriminate].
      destruct (set_slice u1 col _ _) as [u1'|] eqn:H1; simpl;
        [|discriminate].
      intros Hw0 Hw1.
      pose proof (values_fit_get self p k x pr p_fits Hx Hpr) as Lx.
      assert (Lx1 : length (data match dict_get k dp with
                                 | Some d => arr_add x d
                                 | None => x
                                 end) = param_size pr).
      { destruct (dict_get k dp) as [d|] eqn:Hd; [|exact Lx]. simpl.
        pose proof (values_fit_get self dp k d pr dp_fits Hd Hpr).
        unfold vadd. rewrite length_map, length_combine. lia. }
      destruct (write_dot_diff u0 u1 u0' u1' _ _ col (param_size pr) _
                  L0 L1 Hr Lx Lx1 Hdis Hrs Hagree H0 H1)
        as [Hagree' Hdot].
      rewrite (IH u0' u1'); try assumption.
      * rewrite Hdot. destruct (dict_get k dp) as [d|] eqn:Hd.
        -- simpl. rewrite dot_vadd_r; [ring|].
           pose proof (values_fit_get self dp k d pr dp_fits Hd Hpr).
           congruence.
        -- ring.
      * rewrite (set_slice_length _ _ _ _ _ H0). exact L0.
      * rewrite (set_slice_length _ _ _ _ _ H1). exact L1.
      * eapply ranges_disjoint_tail with (l1 := [_]). exact Hdis.
Qed.
End Loops.

Lemma dict_inner_app (g1 g2 dp : dict (ndarray R)) :
  dict_inner (g1 ++ g2) dp = add (dict_inner g1 dp) (dict_inner g2 dp).
Proof.
  unfold dict_inner. induction g1 as [|e g1 IH]; simpl; [ring|].
  rewrite IH. ring.
Qed.

Lemma nodupb_spec (l : list Z) : nodupb l = true -> NoDup l.
Proof.
  induction l as [|k l IH]; simpl; [constructor|].
  rewrite andb_true_iff, negb_true_iff. intros [Hk Hl].
  constructor; [|auto]. intros Hin. apply id_in_spec in Hin. congruence.
Qed.

Lemma dict_of_list_value {V : Type} (key : V -> Z) (l : list V)
  (d0 : dict V) (k : Z) (v : V) :
  dict_get k (fold_left (fun d e => dict_set (key e) e d) l d0) = Some v ->
  In v l \/ dict_get k d0 = Some v.
Proof.
  revert d0. induction l as [|e l IH]; intros d0; simpl; [auto|].
  intros Hv. destruct (IH _ Hv) as [Hin|Hget]; [auto|].
  rewrite dict_get_set in Hget.
  destruct (Z.eqb k (key e)); [|auto].
  injection Hget as ->. auto.
Qed.

Lemma param_size_le_total (self : ParamConeProg R) (pr : parameter R) :
  In pr (parameters self) -> param_size pr <= total_param_size self.
Proof.
  unfold total_param_size.
  induction (parameters self) as [|q ps IH]; simpl; [easy|].
  intros [->|Hin]; [lia|]. specialize (IH Hin). lia.
Qed.

Lemma active_has_param (self : ParamConeProg R) (k : Z) :
  id_in k (map (@param_id R) (parameters self)) = true <->
  exists pr, dict_get k (id_to_param self) = Some pr.
Proof.
  rewrite id_in_spec. unfold id_to_param. rewrite dict_of_list_get.
  simpl. split; [auto|]. intros [Hin|[pr Hp]]; [assumption|discriminate].
Qed.

Lemma param_vec_loop_has_params (CONSTANT_ID : Z) (self : ParamConeProg R)
  (m : option (dict (ndarray R))) (items : list (Z * Z)) (u w : list R) :
  param_vec_loop CONSTANT_ID self m items u = Ok w ->
  forall k col, In (k, col) items -> k <> CONSTANT_ID ->
                exists pr, dict_get k (id_to_param self) = Some pr.
Proof.
  revert u. induction items as [|[k0 col0] items IH]; intros u; simpl;
    [intros _ ? ? []|].
  destruct (Z.eqb_spec k0 CONSTANT_ID) as [->|Hne].
  - destruct (set_item u col0 one) as [u'|]; simpl; [|discriminate].
    intros Hw k col [E|Hin] Hk; [inversion E; subst; contradiction|].
    eapply IH; eauto.
  - destruct (param_value self m k0) as [val|]; simpl; [|discriminate].
    unfold dict_getitem.
    destruct (dict_get k0 (id_to_param self)) as [pr|] eqn:Hpr; simpl;
      [|discriminate].
    destruct (set_slice_flat u col0 _ val) as [u'|]; simpl;
      [|discriminate].
    intros Hw k col [E|Hin] Hk; [inversion E; subst; eauto|].
    eapply IH; eauto.
Qed.

Section JacLoop.
Variable CONSTANT_ID : Z.
Variable self : ParamConeProg R.
Variable dp : dict (ndarray R).
Variable y : list R.
Hypothesis constant_inactive :
  id_in CONSTANT_ID (map (@param_id R) (parameters self)) = false.

(** The dictionary that [apply_param_jac] builds pairs with [dp] as
    the slices of [y] do. *)
Lemma apply_param_jac_loop_pairing (items : list (Z * Z))
  (acc : dict (ndarray R)) :
  NoDup (map fst items) ->
  (forall k, In k (map fst items) -> ~ In k (dict_keys acc)) ->
  (forall k col, In (k, col) items -> k <> CONSTANT_ID ->
     length y <> 1 /\
     exists pr, dict_get k (id_to_param self) = Some pr) ->
  Forall (range_ok (length y)) (item_ranges CONSTANT_ID self items) ->
  exists g,
    apply_param_jac_loop self y (map (@param_id R) (parameters self))
      items acc = Ok g /\
    dict_inner g dp
    = add (dict_inner acc dp)
          (jac_pairing CONSTANT_ID self y dp items).
Proof.
  revert acc.
  induction items as [|[k col] items IH]; intros acc Hnd Hacc Hit Hok.
  - exists acc. simpl. split; [reflexivity|ring].
  - cbn [apply_param_jac_loop jac_pairing].
    inversion Hnd as [|? ? Hk Hnd']; subst.
    unfold item_ranges in Hok. cbn [flat_map fst snd] in Hok.
    fold (item_ranges CONSTANT_ID self items) in Hok.
    assert (Hit' : forall k' col', In (k', col') items ->
               k' <> CONSTANT_ID ->
               length y <> 1 /\
               exists pr, dict_get k' (id_to_param self) = Some pr)
      by (intros k' col' Hin; apply (Hit k' col'); now right).
    destruct (Z.eqb_spec k CONSTANT_ID) as [->|Hne].
    + rewrite constant_inactive.
      destruct (IH acc Hnd') as [g [Hg Hinner]]; try assumption.
      * intros k' Hk'. apply Hacc. now right.
      * now inversion Hok.
      * exists g. split; [exact Hg|]. rewrite Hinner. ring.
    + destruct (Hit k col (or_introl eq_refl) Hne) as [Hy [pr Hpr]].
      rewrite Hpr in Hok. simpl in Hok.
      inversion Hok as [|? ? Hr Hrs]; subst.
      rewrite (proj2 (active_has_param self k)) by eauto.
      unfold dict_getitem. rewrite Hpr. simpl.
      destruct (Nat.eqb_spec (length y) 1) as [|_]; [contradiction|].
      simpl. unfold np_reshape.
      rewrite (py_slice_length y _ _ Hr).
      change (shape_size (param_shape pr)) with (param_size pr).
      rewrite Nat.eqb_refl. simpl.
      set (arr := {| shape := param_shape pr;
                     data := py_slice y col
                               (Z.of_nat (param_size pr) + col) |}).
      destruct (IH (dict_set k arr acc) Hnd') as [g [Hg Hinner]];
        try assumption.
      * intros k' Hk' Hin.
        rewrite dict_set_fresh in Hin
          by (apply Hacc; now left).
        unfold dict_keys in Hin. rewrite map_app, in_app_iff in Hin.
        destruct Hin as [Hin|[<-|[]]].
        -- apply (Hacc k'); [now right|exact Hin].
        -- contradiction.
      * exists g. split; [exact Hg|]. rewrite Hinner.
        rewrite dict_set_fresh by (apply Hacc; now left).
        rewrite dict_inner_app. unfold dict_inner at 2. simpl.
        destruct (dict_get k dp); ring.
Qed.
End JacLoop.

Lemma matvec_inv (M : matrix R) (v c : list R) :
  matvec M v = Ok c ->
  well_shaped M = true /\ ncols M = length v /\
  c = map (fun r => dot r v) (rows M).
Proof.
  unfold matvec. destruct (well_shaped M); simpl; [|discriminate].
  destruct (Nat.eqb_spec (ncols M) (length v)); [|discriminate].
  intros [= <-]. auto.
Qed.

Lemma reshape_F_length (v : list R) (m k : nat) (M : matrix R) :
  reshape_F v m k = Ok M -> length v = m * k.
Proof.
  unfold reshape_F.
  destruct (Nat.eqb_spec (length v) (m * k)); [auto|discriminate].
Qed.

Lemma length_flatten_F (M : matrix R) :
  length (flatten_F M) = ncols M * nrows M.
Proof.
  unfold flatten_F, nrows.
  assert (Hgen : forall start len,
            length (flat_map (fun j => column j M) (seq start len))
            = len * length (rows M)).
  { intros start len. revert start.
    induction len as [|len IH]; intros start; simpl; [reflexivity|].
    rewrite length_app, IH. unfold column. now rewrite length_map. }
  apply Hgen.
Qed.

Lemma Forall_removelast {T : Type} (P : T -> Prop) (l : list T) :
  Forall P l -> Forall P (removelast l).
Proof.
  induction 1 as [|x l Hx Hl IH]; simpl; [constructor|].
  destruct l; [constructor|]. constructor; assumption.
Qed.

Lemma length_removelast' {T : Type} (l : list T) :
  length (removelast l) = length l - 1.
Proof. rewrite removelast_firstn_len, length_firstn. lia. Qed.

(** The adjoint identity. *)
Lemma apply_param_jac_adjoint (CONSTANT_ID : Z) (self : ParamConeProg R)
  (delc : list R) (delA : matrix R) (delb : list R)
  (p dp : dict (ndarray R)) (c0 c1 : list R) (A0 A1 : matrix R) :
  param_layout_ok CONSTANT_ID self = true ->
  coeff_shapes_ok self delc delA delb = true ->
  values_fit self p = true ->
  values_fit self dp = true ->
  apply_parameters CONSTANT_ID self (Some p) = Ok (c0, A0) ->
  apply_parameters CONSTANT_ID self (Some (dict_add p dp)) = Ok (c1, A1) ->
  exists g,
    apply_param_jac self delc delA delb None = Ok g /\
    dict_inner g dp
    = coeff_inner delc delA delb (vsub c1 c0, msub A1 A0).
Proof.
  intros Hlay Hshape Hp Hdp.
  unfold param_layout_ok in Hlay. rewrite !andb_true_iff in Hlay.
  destruct Hlay as [[[[[Hnd Hcid] Hnz] Hwithin] Hdis] Hc].
  apply negb_true_iff in Hcid. apply Nat.eqb_eq in Hc.
  apply nodupb_spec in Hnd.
  unfold coeff_shapes_ok in Hshape.
  rewrite !andb_true_iff, !Nat.eqb_eq in Hshape.
  destruct Hshape as [[[[Hdc Hw] Hn] Hm] Hb].
  set (n := var_size (prog_x self)) in *.
  set (m := nrows (prog_A self) / (n + 1)) in *.
  set (K := total_param_size self + 1) in *.
  unfold apply_parameters, flat_param_vec. fold K. fold n. fold m.
  destruct (param_vec_loop CONSTANT_ID self (Some p) _ _) as [pv0|]
    eqn:Hpv0; simpl; [|discriminate].
  destruct (matvec (prog_c self) pv0) as [cc0|] eqn:Hc0; simpl;
    [|discriminate].
  destruct (matvec (prog_A self) pv0) as [Av0|] eqn:HAv0; simpl;
    [|discriminate].
  destruct (reshape_F Av0 m (n + 1)) as [M0|] eqn:HM0; simpl;
    [|discriminate].
  intros E0. injection E0 as <- <-.
  destruct (param_vec_loop CONSTANT_ID self (Some (dict_add p dp)) _ _)
    as [pv1|] eqn:Hpv1; simpl; [|discriminate].
  destruct (matvec (prog_c self) pv1) as [cc1|] eqn:Hc1; simpl;
    [|discriminate].
  destruct (matvec (prog_A self) pv1) as [Av1|] eqn:HAv1; simpl;
    [|discriminate].
  destruct (reshape_F Av1 m (n + 1)) as [M1|] eqn:HM1; simpl;
    [|discriminate].
  intros E1. injection E1 as <- <-.
  assert (L0 : length pv0 = K).
  { rewrite (param_vec_loop_length _ _ _ _ _ _ Hpv0). apply repeat_length. }
  assert (L1 : length pv1 = K).
  { rewrite (param_vec_loop_length _ _ _ _ _ _ Hpv1). apply repeat_length. }
  destruct (matvec_inv _ _ _ Hc0) as [HwC [HnC Ecc0]].
  destruct (matvec_inv _ _ _ HAv0) as [HwA [HnA EAv0]].
  rewrite L0 in HnC, HnA.
  pose proof (well_shaped_Forall _ HwC) as HrC. rewrite HnC in HrC.
  pose proof (well_shaped_Forall _ HwA) as HrA. rewrite HnA in HrA.
  pose proof (Forall_removelast _ _ HrC) as HrC'.
  (* the vector that apply_param_jac slices *)
  set (t1 := rows_comb K delc (removelast (rows (prog_c self)))).
  set (delAb := flatten_F delA ++ delb).
  set (t2 := rows_comb K delAb (rows (prog_A self))).
  assert (Lt1 : length t1 = K) by now apply rows_comb_length.
  assert (Lt2 : length t2 = K) by now apply rows_comb_length.
  assert (LAb : length delAb = nrows (prog_A self)).
  { unfold delAb. rewrite length_app, length_flatten_F, Hn, Hm, Hb.
    pose proof (reshape_F_length _ _ _ _ HM0) as HL.
    rewrite EAv0, length_map in HL. unfold nrows. lia. }
  unfold apply_param_jac.
  assert (Et1 : vecmat delc
                  {| ncols := ncols (prog_c self);
                     rows := removelast (rows (prog_c self)) |} = Ok t1).
  { unfold vecmat, well_shaped, nrows. simpl.
    replace (forallb _ _) with true.
    - rewrite length_removelast'. fold (nrows (prog_c self)).
      rewrite Hc, Hdc, Nat.add_sub, Nat.eqb_refl, HnC. reflexivity.
    - symmetry. apply forallb_forall. intros r Hr. apply Nat.eqb_eq.
      rewrite Forall_forall in HrC'. rewrite HnC. now apply HrC'. }
  rewrite Et1. simpl. fold delAb.
  assert (Et2 : vecmat delAb (prog_A self) = Ok t2).
  { unfold vecmat. rewrite HwA, LAb, Nat.eqb_refl, HnA. reflexivity. }
  rewrite Et2. simpl.
  unfold iadd. rewrite Lt1, Lt2, Nat.eqb_refl. simpl.
  set (y := vadd t1 t2).
  assert (Ly : length y = K)
    by (unfold y; rewrite length_vadd; congruence).
  assert (Hok : Forall (range_ok (length y))
                  (item_ranges CONSTANT_ID self (param_id_to_col self))).
  { rewrite Ly. apply Forall_forall. intros r Hr.
    apply range_okb_spec. unfold ranges_within in Hwithin.
    rewrite forallb_forall in Hwithin. now apply Hwithin. }
  destruct (apply_param_jac_loop_pairing CONSTANT_ID self dp y Hcid
              (param_id_to_col self) [] Hnd) as [g [Hg Hinner]].
  { intros k _ []. }
  { intros k col Hin Hk.
    destruct (param_vec_loop_has_params _ _ _ _ _ _ Hpv0 k col Hin Hk)
      as [pr Hpr].
    split; [|eauto]. rewrite Ly. unfold K.
    assert (Hin' : In pr (parameters self)).
    { unfold id_to_param in Hpr.
      destruct (dict_of_list_value _ _ _ _ _ Hpr) as [Hi|Hi];
        [exact Hi|discriminate]. }
    pose proof (param_size_le_total self pr Hin').
    rewrite forallb_forall in Hnz. specialize (Hnz pr Hin').
    apply negb_true_iff, Nat.eqb_neq in Hnz. lia. }
  { exact Hok. }
  exists g. split; [exact Hg|]. rewrite Hinner.
  (* the parameter vectors differ by the perturbation *)
  assert (Hdiff : sub (dot y pv1) (dot y pv0)
                  = add (sub (dot y (repeat zero K)) (dot y (repeat zero K)))
                        (jac_pairing CONSTANT_ID self y dp
                           (param_id_to_col self))).
  { apply (param_vec_loop_dot_diff CONSTANT_ID self p dp y Hp Hdp);
      try assumption.
    - rewrite repeat_length. congruence.
    - rewrite repeat_length. congruence.
    - rewrite Ly. exact Hdis.
    - reflexivity. }
  (* the coefficients differ by the image of that difference *)
  set (dv := vsub pv1 pv0).
  assert (Ec : vsub cc1 cc0 = map (fun r => dot r dv) (rows (prog_c self)))
    by (apply (matvec_sub _ pv1 pv0); congruence).
  assert (EA : vsub Av1 Av0 = map (fun r => dot r dv) (rows (prog_A self)))
    by (apply (matvec_sub _ pv1 pv0); congruence).
  pose proof (reshape_F_sub _ _ _ _ _ _ HM1 HM0) as HM.
  unfold coeff_inner. cbn [fst snd].
  assert (Hassoc : forall a b c : R, add (add a b) c = add a (add b c))
    by (intros; ring).
  rewrite Hassoc, Hn.
  rewrite (coeff_pairing_flat delA delb (vsub Av1 Av0) m n (msub M1 M0)
             Hn Hm Hb HM).
  fold delAb. rewrite Ec, EA, removelast_map.
  rewrite <- (dot_rows_comb K delc _ dv HrC').
  rewrite <- (dot_rows_comb K delAb _ dv HrA).
  fold t1 t2. rewrite <- dot_vadd_l by congruence. fold y.
  unfold dv. rewrite dot_vsub_r by congruence.
  rewrite Hdiff. change (dict_inner [] dp) with zero. ring.
Qed.
End Adjoint.

(** ** The derivative of [apply_parameters] along a direction *)

Section AlongLine.
Context {R : Type} `{Num R}.
Hypothesis Rth : ring_theory zero one add mul sub neg (@eq R).
Add Ring Rring_line : Rth.

(** [apply_parameters] reads the given values through their entries
    only. *)
Lemma param_vec_loop_ext (CONSTANT_ID : Z) (self : ParamConeProg R)
  (m m' : dict (ndarray R)) (items : list (Z * Z)) (u : list R) :
  (forall k, option_map (@data R) (dict_get k m)
             = option_map (@data R) (dict_get k m')) ->
  param_vec_loop CONSTANT_ID self (Some m) items u
  = param_vec_loop CONSTANT_ID self (Some m') items u.
Proof.
  intros Hext. revert u.
  induction items as [|[k col] items IH]; intros u; [reflexivity|].
  cbn [param_vec_loop]. destruct (Z.eqb k CONSTANT_ID).
  - destruct (set_item u col one); simpl; [apply IH|reflexivity].
  - unfold param_value, dict_getitem. specialize (Hext k).
    destruct (dict_get k m) as [x|], (dict_get k m') as [x'|];
      try discriminate; simpl; [|reflexivity].
    injection Hext as Hx.
    destruct (dict_get k (id_to_param self)); simpl; [|reflexivity].
    unfold flatten. rewrite Hx.
    destruct (set_slice u col _ (data x')); simpl; [apply IH|reflexivity].
Qed.

Lemma dict_get_scale (t : R) (k : Z) (dp : dict (ndarray R)) :
  dict_get k (dict_scale t dp)
  = option_map (fun d => {| shape := shape d;
                            data := vscale t (data d) |})
      (dict_get k dp).
Proof.
  induction dp as [|[k0 d] dp IH]; simpl; [reflexivity|].
  destruct (Z.eqb k k0); [reflexivity|apply IH].
Qed.

Lemma segment_entries (t : R) (X D : list R) :
  length X = length D ->
  vlincomb (sub one t) X t (vadd X D) = vadd X (vscale t D) /\
  vlincomb (sub one t) X t X = X.
Proof.
  intros E.
  assert (Ls : length (vscale t D) = length D)
    by (unfold vscale; apply length_map).
  split; apply list_eq_nth.
  - rewrite length_vlincomb by (rewrite length_vadd; congruence).
    rewrite length_vadd by congruence. reflexivity.
  - intros i.
    rewrite (nth_vlincomb Rth) by (rewrite length_vadd; congruence).
    rewrite !(nth_vadd Rth) by congruence. rewrite (nth_vscale Rth). ring.
  - now rewrite length_vlincomb.
  - intros i. rewrite (nth_vlincomb Rth) by reflexivity. ring.
Qed.

(** Along the line from [p] in the direction [dp], [apply_parameters]
    moves on the segment between its values at [p] and at [p + dp]:
    at [p + t*dp] it returns [(1-t)*(c0, A0) + t*(c1, A1)], that is,
    [(c0, A0) + t*((c1, A1) - (c0, A0))]. The derivative along [dp] is
    therefore the difference of these two values. *)
Lemma apply_parameters_along_line (CONSTANT_ID : Z)
  (self : ParamConeProg R) (p dp : dict (ndarray R)) (t : R)
  (c0 c1 : list R) (A0 A1 : matrix R) :
  same_sizes p dp ->
  apply_parameters CONSTANT_ID self (Some p) = Ok (c0, A0) ->
  apply_parameters CONSTANT_ID self (Some (dict_add p dp)) = Ok (c1, A1) ->
  apply_parameters CONSTANT_ID self (Some (dict_add p (dict_scale t dp)))
  = Ok (vlincomb (sub one t) c0 t c1, mlincomb (sub one t) A0 t A1).
Proof.
  intros Hsz H0 H1.
  assert (Hsz' : same_sizes p (dict_add p dp)).
  { intros k x y Hx Hy. rewrite dict_get_add, Hx in Hy.
    injection Hy as <-.
    destruct (dict_get k dp) as [d|] eqn:Hd; [|reflexivity]. simpl.
    rewrite length_vadd; [reflexivity|]. exact (Hsz k x d Hx Hd). }
  assert (Hab : add (sub one t) t = one) by ring.
  transitivity
    (apply_parameters CONSTANT_ID self
       (Some (dict_lincomb (sub one t) p t (dict_add p dp))));
    [|exact (apply_parameters_lincomb Rth (sub one t) t CONSTANT_ID self
               p (dict_add p dp) (c0, A0) (c1, A1) Hab Hsz' H0 H1)].
  symmetry. unfold apply_parameters, flat_param_vec. f_equal.
  apply param_vec_loop_ext. intros k.
  rewrite dict_get_lincomb, !dict_get_add, dict_get_scale.
  destruct (dict_get k p) as [x|] eqn:Hx; [|reflexivity]. simpl.
  destruct (dict_get k dp) as [d|] eqn:Hd; simpl; f_equal.
  - exact (proj1 (segment_entries t (data x) (data d) (Hsz k x d Hx Hd))).
  - exact (proj2 (segment_entries t (data x) (data x) eq_refl)).
Qed.
End AlongLine.

(** C2. [apply_param_jac] is linear in [(delc, delA, delb)], and it is the
    adjoint of the derivative of [apply_parameters] with respect to the
    parameter values. Along the line [p + t*dp] the values of
    [apply_parameters] move linearly from the one at [p] to the one at
    [p + dp] (see [apply_parameters_along_line]), so its derivative along
    [dp] at [p] is the difference of these two values. For a program with a
    well-formed parameter layout, perturbations of the shapes of the
    coefficients and of the parameters, and values on which
    [apply_parameters] returns, [apply_param_jac] returns and the inner
    product of its result with [dp] is the inner product of
    [(delc, delA, delb)] with that derivative. Scalars are exact: the ring
    laws are assumed for them. *)
Theorem apply_param_jac_linear_adjoint {R : Type} `{Num R}
  (Rth : ring_theory zero one add mul sub neg (@eq R))
  (CONSTANT_ID : Z) (self : ParamConeProg R) :
  (forall (a b : R) (delc1 delc2 : list R) (delA1 delA2 : matrix R)
          (delb1 delb2 : list R) (active_params : option (list Z))
          (g1 g2 : dict (ndarray R)),
      coeff_shapes_ok self delc1 delA1 delb1 = true ->
      coeff_shapes_ok self delc2 delA2 delb2 = true ->
      apply_param_jac self delc1 delA1 delb1 active_params = Ok g1 ->
      apply_param_jac self delc2 delA2 delb2 active_params = Ok g2 ->
      apply_param_jac self (vlincomb a delc1 b delc2)
        (mlincomb a delA1 b delA2) (vlincomb a delb1 b delb2) active_params
      = Ok (dict_lincomb_zip a g1 b g2)) /\
  (param_layout_ok CONSTANT_ID self = true ->
   forall (delc : list R) (delA : matrix R) (delb : list R)
          (p dp : dict (ndarray R)) (c0 c1 : list R) (A0 A1 : matrix R),
     coeff_shapes_ok self delc delA delb = true ->
     values_fit self p = true ->
     values_fit self dp = true ->
     apply_parameters CONSTANT_ID self (Some p) = Ok (c0, A0) ->
     apply_parameters CONSTANT_ID self (Some (dict_add p dp)) = Ok (c1, A1) ->
     exists g,
       apply_param_jac self delc delA delb None = Ok g /\
       dict_inner g dp
       = coeff_inner delc delA delb (vsub c1 c0, msub A1 A0)).
Proof.
  split.
  - intros a b delc1 delc2 delA1 delA2 delb1 delb2 active_params g1 g2.
    apply (apply_param_jac_lincomb Rth a b self).
  - intros Hlay delc delA delb p dp c0 c1 A0 A1.
    now apply (apply_param_jac_adjoint Rth CONSTANT_ID self).
Qed.

Lemma apply_param_jac_linear_adjoint_witness :
  apply_param_jac prog_ex (vlincomb 2%Z [1%Z] 3%Z [5%Z])
    (mlincomb 2%Z delA_ex 3%Z delA_ex) (vlincomb 2%Z [1%Z] 3%Z [0%Z]) None
  = Ok (dict_lincomb_zip 2%Z [(7%Z, scalar 3); (8%Z, scalar 2)]
                         3%Z [(7%Z, scalar 7); (8%Z, scalar 5)]) /\
  exists g,
    apply_param_jac prog_ex [1%Z] delA_ex [1%Z] None = Ok g /\
    dict_inner g values_2
    = coeff_inner [1%Z] delA_ex [1%Z]
        (vsub [9; 4]%Z [5; 4]%Z,
         msub {| ncols := 2; rows := [[6; 8]%Z] |}
              {| ncols := 2; rows := [[2; 6]%Z] |}).
Proof.
  split.
  - refine (proj1 (apply_param_jac_linear_adjoint Zth (-1) prog_ex)
              2%Z 3%Z [1%Z] [5%Z] delA_ex delA_ex [1%Z] [0%Z] None
              _ _ _ _ _ _); reflexivity.
  - refine (proj2 (apply_param_jac_linear_adjoint Zth (-1) prog_ex)
              _ [1%Z] delA_ex [1%Z] values_1 values_2 _ _ _ _ _ _ _ _ _);
      reflexivity.
Defined.

(** ** More on [split_solution] and [split_adjoint] *)

Lemma dict_get_keys {V : Type} (k : Z) (d : dict V) :
  In k (dict_keys d) <-> exists v, dict_get k d = Some v.
Proof.
  unfold dict_keys. induction d as [|[k0 v0] d IH]; simpl.
  - split; [tauto|]. intros [v Hv]. discriminate.
  - destruct (Z.eqb_spec k k0) as [->|Hne].
    + split; eauto.
    + rewrite <- IH. split; [intros [E|Hin]; [congruence|auto]|auto].
Qed.

Lemma dict_get_not_key {V : Type} (k : Z) (d : dict V) :
  ~ In k (dict_keys d) -> dict_get k d = None.
Proof.
  intros Hk. destruct (dict_get k d) as [v|] eqn:E; [|reflexivity].
  exfalso. apply Hk. apply dict_get_keys. eauto.
Qed.

Lemma dict_keys_set_fresh {V : Type} (k : Z) (v : V) (d : dict V) :
  ~ In k (dict_keys d) -> dict_keys (dict_set k v d) = dict_keys d ++ [k].
Proof.
  intros Hk. rewrite dict_set_fresh by assumption.
  unfold dict_keys. now rewrite map_app.
Qed.

Section SplitSolutionEntries.
Context {R : Type} `{Num R}.
Variable self : ParamConeProg R.
Variable sltn : list R.
Variable act : list Z.

(** What the loop stores for an item. *)
Lemma split_solution_loop_entries (items : list (Z * Z))
  (acc d : dict (ndarray R)) :
  split_solution_loop self sltn act items acc = Ok d ->
  forall k arr, In (k, arr) d ->
    In (k, arr) acc \/
    exists col var,
      In (k, col) items /\ id_in k act = true /\
      dict_get k (id_to_var self) = Some var /\
      arr = {| shape := var_shape var;
               data := py_slice sltn col (Z.of_nat (var_size var) + col) |}.
Proof.
  revert acc. induction items as [|[k0 col0] items IH]; intros acc; simpl.
  - intros [= <-]. auto.
  - destruct (id_in k0 act) eqn:Hact.
    + unfold dict_getitem.
      destruct (dict_get k0 (id_to_var self)) as [var|] eqn:Hvar;
        simpl; [|discriminate].
      unfold np_reshape.
      destruct (Nat.eqb _ _); simpl; [|discriminate].
      intros Hloop k arr Hin.
      destruct (IH _ Hloop k arr Hin) as [Hacc|[col [var' Hx]]].
      * apply dict_set_In_inv in Hacc.
        destruct Hacc as [[-> ->]|Hacc]; [|now left].
        right. exists col0, var. repeat split; auto.
      * right. exists col, var'. tauto.
    + intros Hloop k arr Hin.
      destruct (IH _ Hloop k arr Hin) as [Hacc|[col [var' Hx]]];
        [now left|].
      right. exists col, var'. tauto.
Qed.

(** The keys that the loop adds, in the order of the items. *)
Lemma split_solution_loop_keys (items : list (Z * Z))
  (acc d : dict (ndarray R)) :
  NoDup (map fst items) ->
  (forall k, In k (map fst items) -> ~ In k (dict_keys acc)) ->
  split_solution_loop self sltn act items acc = Ok d ->
  dict_keys d
  = dict_keys acc ++ filter (fun k => id_in k act) (map fst items).
Proof.
  revert acc. induction items as [|[k0 col0] items IH]; intros acc Hnd Hfresh;
    simpl.
  - intros [= <-]. now rewrite app_nil_r.
  - inversion Hnd as [|? ? Hnot Hnd']; subst.
    destruct (id_in k0 act) eqn:Hact.
    + unfold dict_getitem.
      destruct (dict_get k0 (id_to_var self)) as [var|]; simpl;
        [|discriminate].
      unfold np_reshape.
      destruct (Nat.eqb _ _); simpl; [|discriminate].
      intros Hloop. rewrite (IH _ Hnd') with (2 := Hloop).
      * rewrite dict_keys_set_fresh by (apply Hfresh; now left).
        now rewrite <- app_assoc.
      * intros k Hk. rewrite dict_keys_set_fresh
          by (apply Hfresh; now left).
        rewrite in_app_iff. intros [Hin|[->|[]]].
        -- now apply (Hfresh k (or_intror Hk)).
        -- contradiction.
    + intros Hloop. apply IH; auto.
      intros k Hk. apply Hfresh. now right.
Qed.

(** The loop returns exactly when every active item is a variable of the
    program whose slice has the size of the variable. *)
Lemma split_solution_loop_is_ok (items : list (Z * Z))
  (acc : dict (ndarray R)) :
  is_ok (split_solution_loop self sltn act items acc)
  = forallb (fun e =>
               if id_in (fst e) act
               then match dict_get (fst e) (id_to_var self) with
                    | Some var =>
                        Nat.eqb
                          (length (py_slice sltn (snd e)
                                     (Z.of_nat (var_size var) + snd e)))
                          (var_size var)
                    | None => false
                    end
               else true) items.
Proof.
  revert acc. induction items as [|[k0 col0] items IH]; intros acc; simpl;
    [reflexivity|].
  destruct (id_in k0 act); [|apply IH].
  unfold dict_getitem.
  destruct (dict_get k0 (id_to_var self)) as [var|]; simpl;
    [|reflexivity].
  unfold np_reshape. fold (var_size var).
  destruct (Nat.eqb _ _); simpl; [apply IH|reflexivity].
Qed.

(** The errors of the loop: a missing variable or a slice of the wrong
    size. *)
Lemma split_solution_loop_errors (items : list (Z * Z))
  (acc : dict (ndarray R)) (e : pyerr) :
  split_solution_loop self sltn act items acc = Raise e ->
  e = ValueError \/
  (e = KeyError /\
   exists k, In k (map fst items) /\ id_in k act = true /\
             dict_get k (id_to_var self) = None).
Proof.
  revert acc. induction items as [|[k0 col0] items IH]; intros acc; simpl;
    [discriminate|].
  destruct (id_in k0 act) eqn:Hact.
  - unfold dict_getitem.
    destruct (dict_get k0 (id_to_var self)) as [var|] eqn:Hvar; simpl.
    + unfold np_reshape. destruct (Nat.eqb _ _); simpl.
      * intros Hloop. destruct (IH _ Hloop) as [->|[-> [k Hk]]]; [now left|].
        right. split; [reflexivity|]. exists k. tauto.
      * intros [= <-]. now left.
    + intros [= <-]. right. split; [reflexivity|]. exists k0. auto.
  - intros Hloop. destruct (IH _ Hloop) as [->|[-> [k Hk]]]; [now left|].
    right. split; [reflexivity|]. exists k. tauto.
Qed.
End SplitSolutionEntries.

(** X1. The result of [split_solution] has an entry exactly for the ids of
    [var_id_to_col] that are in [active_vars], in the order of
    [var_id_to_col]; ids of [active_vars] that [var_id_to_col] does not
    list are ignored. The entry of a variable has the shape of the variable
    and holds the slice of the vector at the column of the variable. *)
Theorem split_solution_entries {R : Type} `{Num R} (self : ParamConeProg R)
  (sltn : list R) (active_vars : option (list Z)) (d : dict (ndarray R)) :
  NoDup (dict_keys (var_id_to_col self)) ->
  split_solution self sltn active_vars = Ok d ->
  let active := match active_vars with
                | None => map var_id (variables self)
                | Some s => s
                end in
  dict_keys d
  = filter (fun k => id_in k active) (dict_keys (var_id_to_col self)) /\
  forall k arr,
    dict_get k d = Some arr ->
    exists col var,
      dict_get k (var_id_to_col self) = Some col /\
      dict_get k (id_to_var self) = Some var /\
      shape arr = var_shape var /\
      data arr = py_slice sltn col (Z.of_nat (var_size var) + col).
Proof.
  intros Hnd Hsplit active. unfold split_solution in Hsplit.
  fold active in Hsplit. split.
  - apply (split_solution_loop_keys self sltn active _ [] d Hnd) in Hsplit;
      [exact Hsplit|].
    intros k _ [].
  - intros k arr Hget. apply dict_get_Some_In in Hget.
    destruct (split_solution_loop_entries self sltn active _ _ _ Hsplit
                k arr Hget) as [[]|[col [var [Hin [_ [Hvar ->]]]]]].
    exists col, var. repeat split; auto.
    now apply dict_get_In.
Qed.

Lemma split_solution_entries_witness :
  dict_keys [(1%Z, flat [4; 5]%Z); (3%Z, {| shape := [1; 2];
                                             data := [7; 8]%Z |})]
  = filter (fun k => id_in k [3; 1; 77]%Z)
      (dict_keys (var_id_to_col prog_split)) /\
  forall k arr,
    dict_get k [(1%Z, flat [4; 5]%Z); (3%Z, {| shape := [1; 2];
                                               data := [7; 8]%Z |})]
    = Some arr ->
    exists col var,
      dict_get k (var_id_to_col prog_split) = Some col /\
      dict_get k (id_to_var prog_split) = Some var /\
      shape arr = var_shape var /\
      data arr = py_slice [4; 5; 6; 7; 8]%Z col (Z.of_nat (var_size var) + col).
Proof.
  refine (split_solution_entries prog_split [4; 5; 6; 7; 8]%Z
            (Some [3; 1; 77]%Z) _ _ _).
  - repeat constructor; simpl; intuition discriminate.
  - reflexivity.
Defined.

(** X2. [split_solution] returns exactly when every active id of
    [var_id_to_col] is the id of a variable of the program and the slice of
    the vector at its column has the size of the variable. It raises
    nothing but [KeyError] (an active id that is not a variable) and
    [ValueError] (a vector too short to hold the variable), and with the
    default [active_vars] only [ValueError]. *)
Theorem split_solution_failure {R : Type} `{Num R} (self : ParamConeProg R)
  (sltn : list R) (active_vars : option (list Z)) :
  let active := match active_vars with
                | None => map var_id (variables self)
                | Some s => s
                end in
  is_ok (split_solution self sltn active_vars)
  = forallb (fun e =>
               if id_in (fst e) active
               then match dict_get (fst e) (id_to_var self) with
                    | Some var =>
                        Nat.eqb
                          (length (py_slice sltn (snd e)
                                     (Z.of_nat (var_size var) + snd e)))
                          (var_size var)
                    | None => false
                    end
               else true) (var_id_to_col self) /\
  (forall e, split_solution self sltn active_vars = Raise e ->
             e = KeyError \/ e = ValueError) /\
  (forall e, split_solution self sltn None = Raise e -> e = ValueError).
Proof.
  intros active. split; [|split].
  - apply split_solution_loop_is_ok.
  - intros e He. apply split_solution_loop_errors in He.
    destruct He as [->|[-> _]]; auto.
  - intros e He. apply split_solution_loop_errors in He.
    destruct He as [->|[_ [k [_ [Hact Hnone]]]]]; [reflexivity|].
    apply active_has_var in Hact. destruct Hact as [var Hvar]. congruence.
Qed.

Section SplitAdjointInv.
Context {R : Type} `{Num R}.
Variable self : ParamConeProg R.

Lemma split_adjoint_loop_inv (items : dict (ndarray R)) (u v : list R) :
  split_adjoint_loop self items u = Ok v ->
  length v = length u /\
  forall k delta, In (k, delta) items ->
    exists var col,
      dict_get k (id_to_var self) = Some var /\
      dict_get k (var_id_to_col self) = Some col /\
      (length (flatten delta)
       = py_index (length u) (Z.of_nat (var_size var) + col)
         - py_index (length u) col \/
       length (flatten delta) = 1).
Proof.
  revert u. induction items as [|[k0 delta0] items IH]; intros u; simpl.
  - intros [= <-]. split; [reflexivity|]. intros ? ? [].
  - unfold dict_getitem.
    destruct (dict_get k0 (id_to_var self)) as [var|] eqn:Hvar; simpl;
      [|discriminate].
    destruct (dict_get k0 (var_id_to_col self)) as [col|] eqn:Hcol; simpl;
      [|discriminate].
    destruct (set_slice u col (Z.of_nat (var_size var) + col)
                (flatten delta0)) as [u1|] eqn:Hset; simpl;
      [|discriminate].
    intros Hloop. destruct (IH _ Hloop) as [Hlen Hrest].
    pose proof (set_slice_length _ _ _ _ _ Hset) as Hlen1.
    split; [congruence|].
    intros k delta [E|Hin].
    + inversion E; subst. exists var, col. repeat split; auto.
      unfold set_slice in Hset.
      destruct (Nat.eqb_spec (length (flatten delta))
                  (py_index (length u) (Z.of_nat (var_size var) + col)
                   - py_index (length u) col)) as [E1|E1]; [now left|].
      destruct (flatten delta) as [|e [|e' w]]; try discriminate.
      now right.
    + rewrite <- Hlen1. now apply Hrest.
Qed.
End SplitAdjointInv.

(** X3. When [split_adjoint] returns, the vector has [x.size] entries,
    every id of [del_vars] is the id of a variable of the program with a
    column in [var_id_to_col] (an unknown id is not skipped: it raises),
    and every value has as many entries as the slice of its variable, or a
    single entry, which is spread over the slice. *)
Theorem split_adjoint_returns_inv {R : Type} `{Num R}
  (self : ParamConeProg R) (del_vars : dict (ndarray R)) (v : list R) :
  split_adjoint self del_vars = Ok v ->
  length v = var_size (prog_x self) /\
  forall k delta, In (k, delta) del_vars ->
    exists var col,
      dict_get k (id_to_var self) = Some var /\
      dict_get k (var_id_to_col self) = Some col /\
      (length (flatten delta)
       = py_index (var_size (prog_x self)) (Z.of_nat (var_size var) + col)
         - py_index (var_size (prog_x self)) col \/
       length (flatten delta) = 1).
Proof.
  unfold split_adjoint. intros Hv.
  apply split_adjoint_loop_inv in Hv. rewrite repeat_length in Hv.
  exact Hv.
Qed.

Lemma split_adjoint_returns_inv_witness :
  length [4; 5; 6; 0; 0]%Z = var_size (prog_x prog_split) /\
  forall k delta,
    In (k, delta) [(2%Z, scalar 6); (1%Z, flat [4; 5]%Z)] ->
    exists var col,
      dict_get k (id_to_var prog_split) = Some var /\
      dict_get k (var_id_to_col prog_split) = Some col /\
      (length (flatten delta)
       = py_index (var_size (prog_x prog_split))
           (Z.of_nat (var_size var) + col)
         - py_index (var_size (prog_x prog_split)) col \/
       length (flatten delta) = 1).
Proof.
  refine (split_adjoint_returns_inv prog_split
            [(2%Z, scalar 6); (1%Z, flat [4; 5]%Z)]
            [4; 5; 6; 0; 0]%Z _).
  reflexivity.
Defined.

(** ** [split_solution] after [split_adjoint] *)

Lemma py_slice_set_slice {R : Type} (u x w : list R) (col : Z) (sz : nat) :
  range_ok (length u) (col, sz) ->
  length x = sz ->
  set_slice u col (Z.of_nat sz + col) x = Ok w ->
  py_slice w col (Z.of_nat sz + col) = x.
Proof.
  intros Hok Hx Hset.
  pose proof (set_slice_length _ _ _ _ _ Hset) as Hlen.
  unfold set_slice in Hset. unfold py_slice. rewrite Hlen.
  destruct (slice_bounds _ _ _ Hok) as [Hsz Hin]. rewrite Hsz in *.
  pose proof (slice_bounds_le _ _ _ Hok) as Hle.
  rewrite Hx, Nat.eqb_refl in Hset. injection Hset as <-.
  rewrite skipn_app, length_firstn, Nat.min_l by lia.
  rewrite skipn_all2 by (rewrite length_firstn; lia).
  rewrite Nat.sub_diag. simpl.
  rewrite firstn_app, Hx, Nat.sub_diag. simpl.
  rewrite app_nil_r. subst sz. apply firstn_all.
Qed.

Section SplitAfterAdjoint.
Context {R : Type} `{Num R}.
Variable self : ParamConeProg R.

Hypothesis within :
  ranges_within (var_size (prog_x self)) (var_ranges self) = true.
Hypothesis disjoint :
  ranges_disjoint (var_size (prog_x self)) (var_ranges self) = true.

Lemma var_range_ok (k col : Z) (var : variable) :
  dict_get k (var_id_to_col self) = Some col ->
  dict_get k (id_to_var self) = Some var ->
  range_ok (var_size (prog_x self)) (col, var_size var).
Proof.
  intros Hcol Hvar. apply range_okb_spec.
  unfold ranges_within in within. rewrite forallb_forall in within.
  apply within. apply (var_ranges_In self k col var); [|assumption].
  now apply dict_get_Some_In.
Qed.

Lemma var_ranges_app (l1 l2 : list (Z * Z)) :
  flat_map (fun e => match dict_get (fst e) (id_to_var self) with
                     | Some v => [(snd e, var_size v)]
                     | None => []
                     end) (l1 ++ l2)
  = flat_map (fun e => match dict_get (fst e) (id_to_var self) with
                       | Some v => [(snd e, var_size v)]
                       | None => []
                       end) l1
    ++ flat_map (fun e => match dict_get (fst e) (id_to_var self) with
                          | Some v => [(snd e, var_size v)]
                          | None => []
                          end) l2.
Proof. apply flat_map_app. Qed.

(** The ranges of two variables have no column in common. *)
Lemma var_ranges_apart (k k' col col' : Z) (var var' : variable)
  (i : nat) :
  k <> k' ->
  dict_get k (var_id_to_col self) = Some col ->
  dict_get k' (var_id_to_col self) = Some col' ->
  dict_get k (id_to_var self) = Some var ->
  dict_get k' (id_to_var self) = Some var' ->
  in_range (Z.of_nat i) (col, var_size var) = true ->
  in_range (Z.of_nat i) (col', var_size var') = false.
Proof.
  intros Hne Hcol Hcol' Hvar Hvar' Hr.
  pose proof (var_range_ok _ _ _ Hcol Hvar) as Hok.
  pose proof (in_range_lt _ _ _ Hok Hr) as Hi.
  pose proof (dict_get_Some_In _ _ _ Hcol) as Hin.
  pose proof (dict_get_Some_In _ _ _ Hcol') as Hin'.
  destruct (in_split _ _ Hin) as [l1 [l2 E]].
  unfold var_ranges in disjoint. rewrite E in Hin', disjoint.
  rewrite var_ranges_app in disjoint. simpl in disjoint.
  rewrite Hvar in disjoint. simpl in disjoint.
  apply in_app_or in Hin'. destruct Hin' as [Hin'|[E'|Hin']].
  - destruct (in_split _ _ Hin') as [a [b Ea]]. subst l1.
    rewrite var_ranges_app in disjoint. simpl in disjoint.
    rewrite Hvar' in disjoint. simpl in disjoint.
    rewrite <- app_assoc in disjoint. simpl in disjoint.
    apply ranges_disjoint_tail in disjoint.
    destruct (in_range (Z.of_nat i) (col', var_size var')) eqn:Hr';
      [|reflexivity].
    assert (Hf : in_range (Z.of_nat i) (col, var_size var) = false).
    { apply (ranges_disjoint_head (var_size (prog_x self))
               (col', var_size var') (col, var_size var) _ i disjoint
               Hi Hr').
      apply in_or_app. right. now left. }
    congruence.
  - inversion E'. congruence.
  - apply ranges_disjoint_tail in disjoint.
    apply (ranges_disjoint_head (var_size (prog_x self))
             (col, var_size var) (col', var_size var') _ i disjoint Hi Hr).
    apply in_flat_map. exists (k', col'). split; [assumption|].
    simpl. rewrite Hvar'. now left.
Qed.

(** [split_adjoint] on values of the shapes of their variables returns a
    vector that holds every value at the range of its variable. *)
Lemma split_adjoint_loop_writes (items : dict (ndarray R)) (u : list R) :
  length u = var_size (prog_x self) ->
  NoDup (dict_keys items) ->
  Forall (fits_variable self) items ->
  exists v,
    split_adjoint_loop self items u = Ok v /\
    length v = var_size (prog_x self) /\
    (forall i,
        (forall k delta col var,
            In (k, delta) items ->
            dict_get k (var_id_to_col self) = Some col ->
            dict_get k (id_to_var self) = Some var ->
            in_range (Z.of_nat i) (col, var_size var) = false) ->
        nth_error v i = nth_error u i) /\
    (forall k delta col var,
        In (k, delta) items ->
        dict_get k (var_id_to_col self) = Some col ->
        dict_get k (id_to_var self) = Some var ->
        py_slice v col (Z.of_nat (var_size var) + col) = data delta).
Proof.
  revert u. induction items as [|[k0 delta0] items IH]; intros u Hlen Hnd Hfit.
  - exists u. simpl. repeat split; auto. intros ? ? ? ? [].
  - inversion Hfit as [|? ? [var0 [col0 [Hvar0 [Hcol0 [Hshape0 Hsize0]]]]]
                         Hfit']; subst.
    simpl in Hvar0, Hcol0, Hshape0, Hsize0.
    inversion Hnd as [|? ? Hnot Hnd']; subst.
    simpl. unfold dict_getitem. rewrite Hvar0, Hcol0. simpl.
    pose proof (var_range_ok _ _ _ Hcol0 Hvar0) as Hok0.
    rewrite <- Hlen in Hok0.
    destruct (set_slice u col0 (Z.of_nat (var_size var0) + col0)
                (flatten delta0)) as [u1|] eqn:Hset.
    2:{ exfalso. unfold set_slice in Hset.
        destruct (slice_bounds _ _ _ Hok0) as [Hsz _].
        rewrite Hsz in Hset. unfold flatten in Hset.
        rewrite Hsize0, Nat.eqb_refl in Hset. discriminate. }
    simpl.
    pose proof (set_slice_length _ _ _ _ _ Hset) as Hlen1.
    destruct (IH u1) as [v [Hloop [Hlenv [Hout Hslices]]]];
      [congruence|assumption|assumption|].
    exists v. split; [exact Hloop|]. split; [exact Hlenv|]. split.
    + intros i Hi. rewrite Hout.
      * apply (set_slice_outside u (flatten delta0) u1 col0
                 (var_size var0) i Hok0 Hsize0 Hset).
        apply (Hi k0 delta0 col0 var0); auto; now left.
      * intros k delta col var Hin. apply (Hi k delta col var). now right.
    + intros k delta col var [E|Hin] Hcol Hvar.
      * inversion E; subst.
        assert (col = col0) by congruence.
        assert (var = var0) by congruence. subst.
        transitivity (py_slice u1 col0 (Z.of_nat (var_size var0) + col0));
          [|exact (py_slice_set_slice u (flatten delta) u1 col0
                     (var_size var0) Hok0 Hsize0 Hset)].
        apply py_slice_agree; [congruence| |].
        { rewrite Hlenv, <- Hlen. exact Hok0. }
        intros i Hr. apply Hout.
        intros k' delta' col' var' Hin' Hcol' Hvar'.
        apply (var_ranges_apart k k' col0 col' var0 var' i); auto.
        intros ->. apply Hnot. unfold dict_keys.
        apply (in_map fst _ _ Hin').
      * now apply (Hslices k delta col var).
Qed.
End SplitAfterAdjoint.

(** X4. [split_solution] undoes [split_adjoint]: for a program whose
    variable ranges lie within [[0, x.size)] and do not overlap, and values
    [del_vars] of the shapes of their variables, [split_adjoint] returns a
    vector, and [split_solution] of that vector, restricted to the ids of
    [del_vars], returns the values of [del_vars]. *)
Theorem split_solution_split_adjoint {R : Type} `{Num R}
  (self : ParamConeProg R) (del_vars : dict (ndarray R)) :
  NoDup (dict_keys (var_id_to_col self)) ->
  ranges_within (var_size (prog_x self)) (var_ranges self) = true ->
  ranges_disjoint (var_size (prog_x self)) (var_ranges self) = true ->
  NoDup (dict_keys del_vars) ->
  Forall (fits_variable self) del_vars ->
  exists v d,
    split_adjoint self del_vars = Ok v /\
    split_solution self v (Some (dict_keys del_vars)) = Ok d /\
    forall k, dict_get k d = dict_get k del_vars.
Proof.
  intros Hnd Hwithin Hdis Hndd Hfit.
  destruct (split_adjoint_loop_writes self Hwithin Hdis del_vars
              (repeat zero (var_size (prog_x self))))
    as [v [Hadj [Hlen [_ Hslices]]]];
    [apply repeat_length|assumption|assumption|].
  exists v.
  assert (Hfit' : forall k delta, In (k, delta) del_vars ->
            exists var col,
              dict_get k (id_to_var self) = Some var /\
              dict_get k (var_id_to_col self) = Some col /\
              shape delta = var_shape var /\
              length (data delta) = var_size var).
  { intros k delta Hin. rewrite Forall_forall in Hfit.
    exact (Hfit (k, delta) Hin). }
  destruct (split_solution self v (Some (dict_keys del_vars)))
    as [d|e] eqn:Hsplit.
  - exists d. split; [exact Hadj|]. split; [reflexivity|].
    unfold split_solution in Hsplit.
    pose proof (split_solution_loop_keys self v (dict_keys del_vars) _ [] d
                  Hnd (fun k _ (F : In k []) => F) Hsplit) as Hkeys.
    simpl in Hkeys.
    pose proof (split_solution_loop_entries self v (dict_keys del_vars)
                  _ _ _ Hsplit) as Hentries.
    intros k.
    destruct (dict_get k del_vars) as [delta|] eqn:Hdel.
    + pose proof (dict_get_Some_In _ _ _ Hdel) as Hin.
      destruct (Hfit' k delta Hin) as [var [col [Hvar [Hcol [Hsh Hsz]]]]].
      assert (Hk : In k (dict_keys d)).
      { rewrite Hkeys. apply filter_In. split.
        - unfold dict_keys.
          apply (in_map fst _ _ (dict_get_Some_In _ _ _ Hcol)).
        - apply id_in_spec. unfold dict_keys.
          apply (in_map fst _ _ Hin). }
      apply dict_get_keys in Hk. destruct Hk as [arr Harr]. rewrite Harr.
      destruct (Hentries k arr (dict_get_Some_In _ _ _ Harr))
        as [[]|[col' [var' [Hc' [_ [Hv' ->]]]]]].
      rewrite (dict_get_In _ _ _ Hnd Hc') in Hcol. injection Hcol as ->.
      assert (var' = var) by congruence. subst var'.
      f_equal. destruct delta as [s' x']. simpl in *.
      subst s'. f_equal.
      apply (Hslices k {| shape := var_shape var; data := x' |} col var);
        auto.
      now apply dict_get_In.
    + apply dict_get_not_key. rewrite Hkeys. intros Hk.
      apply filter_In in Hk. destruct Hk as [_ Hk].
      apply id_in_spec in Hk. apply dict_get_keys in Hk.
      destruct Hk as [x Hx]. congruence.
  - exfalso.
    assert (Hok : is_ok (split_solution self v (Some (dict_keys del_vars)))
                  = true).
    { unfold split_solution. rewrite split_solution_loop_is_ok.
      apply forallb_forall. intros [k col] Hin. simpl.
      destruct (id_in k (dict_keys del_vars)) eqn:Hact; [|reflexivity].
      apply id_in_spec in Hact. apply dict_get_keys in Hact.
      destruct Hact as [delta Hdel].
      destruct (Hfit' k delta (dict_get_Some_In _ _ _ Hdel))
        as [var [col' [Hvar [Hcol [Hsh Hsz]]]]].
      rewrite Hvar. apply Nat.eqb_eq.
      rewrite (dict_get_In _ _ _ Hnd Hin) in Hcol. injection Hcol as <-.
      apply py_slice_length. rewrite Hlen.
      apply range_okb_spec.
      unfold ranges_within in Hwithin. rewrite forallb_forall in Hwithin.
      apply Hwithin. now apply (var_ranges_In self k col var). }
    rewrite Hsplit in Hok. discriminate.
Qed.

Lemma split_solution_split_adjoint_witness :
  exists v d,
    split_adjoint prog_split
      [(3%Z, {| shape := [1; 2]; data := [7; 8]%Z |}); (1%Z, flat [4; 5]%Z)]
    = Ok v /\
    split_solution prog_split v (Some [3; 1]%Z) = Ok d /\
    forall k,
      dict_get k d
      = dict_get k [(3%Z, {| shape := [1; 2]; data := [7; 8]%Z |});
                    (1%Z, flat [4; 5]%Z)].
Proof.
  refine (split_solution_split_adjoint prog_split
            [(3%Z, {| shape := [1; 2]; data := [7; 8]%Z |});
             (1%Z, flat [4; 5]%Z)] _ _ _ _ _).
  - repeat constructor; simpl; intuition discriminate.
  - reflexivity.
  - reflexivity.
  - repeat constructor; simpl; intuition discriminate.
  - repeat constructor.
    + exists {| var_id := 3; var_shape := [1; 2] |}, 3%Z.
      repeat split; reflexivity.
    + exists {| var_id := 1; var_shape := [2] |}, 0%Z.
      repeat split; reflexivity.
Defined.

(** ** Shapes of the results of [apply_parameters] and [apply_param_jac] *)

Lemma flat_param_vec_length {R : Type} `{Num R} (CONSTANT_ID : Z)
  (self : ParamConeProg R) (m : option (dict (ndarray R))) (u : list R) :
  flat_param_vec CONSTANT_ID self m = Ok u ->
  length u = total_param_size self + 1.
Proof.
  unfold flat_param_vec. intros Hu.
  apply param_vec_loop_length in Hu. now rewrite repeat_length in Hu.
Qed.

Lemma reshape_F_shape {R : Type} `{Num R} (v : list R) (m k : nat)
  (M : matrix R) :
  reshape_F v m k = Ok M ->
  ncols M = k /\ nrows M = m /\ well_shaped M = true.
Proof.
  unfold reshape_F. destruct (Nat.eqb _ _); [|discriminate].
  intros [= <-]. unfold nrows, well_shaped. simpl.
  rewrite length_map, length_seq. repeat split.
  apply forallb_forall. intros r Hr. apply in_map_iff in Hr.
  destruct Hr as [i [<- _]]. rewrite length_map, length_seq.
  apply Nat.eqb_refl.
Qed.

(** X5. When [apply_parameters] returns [(c, A)], [c] has an entry per row
    of the stored [c], and [A] has [x.size + 1] columns and as many rows as
    the stored [A] has blocks of [x.size + 1] rows; it returns only if the
    stored [c] and [A] have [total_param_size + 1] columns and the number
    of rows of the stored [A] is a multiple of [x.size + 1]. *)
Theorem apply_parameters_shapes {R : Type} `{Num R} (CONSTANT_ID : Z)
  (self : ParamConeProg R) (id_to_param_value : option (dict (ndarray R)))
  (c : list R) (A : matrix R) :
  apply_parameters CONSTANT_ID self id_to_param_value = Ok (c, A) ->
  length c = nrows (prog_c self) /\
  ncols A = var_size (prog_x self) + 1 /\
  nrows A = nrows (prog_A self) / (var_size (prog_x self) + 1) /\
  well_shaped A = true /\
  nrows A * ncols A = nrows (prog_A self) /\
  ncols (prog_c self) = total_param_size self + 1 /\
  ncols (prog_A self) = total_param_size self + 1.
Proof.
  unfold apply_parameters.
  destruct (flat_param_vec CONSTANT_ID self id_to_param_value)
    as [u|] eqn:Hu; simpl; [|discriminate].
  apply flat_param_vec_length in Hu.
  destruct (matvec (prog_c self) u) as [c'|] eqn:Hc; simpl; [|discriminate].
  destruct (matvec (prog_A self) u) as [Av|] eqn:HA; simpl; [|discriminate].
  destruct (reshape_F Av _ _) as [A'|] eqn:HR; simpl; [|discriminate].
  intros [= <- <-].
  apply matvec_inv in Hc. destruct Hc as [_ [Hcc ->]].
  apply matvec_inv in HA. destruct HA as [_ [HAc ->]].
  pose proof (reshape_F_length _ _ _ _ HR) as Hlen.
  apply reshape_F_shape in HR. destruct HR as [Hk [Hm Hws]].
  rewrite length_map in Hlen |- *. fold (nrows (prog_A self)) in Hlen.
  repeat split; try assumption; congruence.
Qed.

Lemma apply_parameters_shapes_witness :
  length [9; 4]%Z = nrows (prog_c prog_ex) /\
  ncols {| ncols := 2; rows := [[6; 8]%Z] |} = var_size (prog_x prog_ex) + 1 /\
  nrows {| ncols := 2; rows := [[6; 8]%Z] |}
  = nrows (prog_A prog_ex) / (var_size (prog_x prog_ex) + 1) /\
  well_shaped {| ncols := 2; rows := [[6; 8]%Z] |} = true /\
  nrows {| ncols := 2; rows := [[6; 8]%Z] |}
  * ncols {| ncols := 2; rows := [[6; 8]%Z] |} = nrows (prog_A prog_ex) /\
  ncols (prog_c prog_ex) = total_param_size prog_ex + 1 /\
  ncols (prog_A prog_ex) = total_param_size prog_ex + 1.
Proof.
  refine (apply_parameters_shapes (-1) prog_ex (Some [(7%Z, scalar 3);
                                                     (8%Z, scalar 3)])
            [9; 4]%Z {| ncols := 2; rows := [[6; 8]%Z] |} _).
  reflexivity.
Defined.

Section ParamJacEntries.
Context {R : Type} `{Num R}.
Variable self : ParamConeProg R.
Variable del_param_vec : list R.
Variable act : list Z.

Lemma apply_param_jac_loop_entries (items : list (Z * Z))
  (acc g : dict (ndarray R)) :
  apply_param_jac_loop self del_param_vec act items acc = Ok g ->
  forall k arr, In (k, arr) g ->
    In (k, arr) acc \/
    exists col pr,
      In (k, col) items /\ id_in k act = true /\
      dict_get k (id_to_param self) = Some pr /\
      shape arr = param_shape pr /\
      data arr = py_slice del_param_vec col (Z.of_nat (param_size pr) + col)
      /\ length (data arr) = param_size pr.
Proof.
  revert acc. induction items as [|[k0 col0] items IH]; intros acc; simpl.
  - intros [= <-]. auto.
  - destruct (id_in k0 act) eqn:Hact.
    + unfold dict_getitem.
      destruct (dict_get k0 (id_to_param self)) as [pr|] eqn:Hpr;
        simpl; [|discriminate].
      destruct (Nat.eqb (length del_param_vec) 1); simpl; [discriminate|].
      unfold np_reshape.
      destruct (Nat.eqb_spec
                  (length (py_slice del_param_vec col0
                             (Z.of_nat (param_size pr) + col0)))
                  (shape_size (param_shape pr))) as [E|E]; simpl;
        [|discriminate].
      intros Hloop k arr Hin.
      destruct (IH _ Hloop k arr Hin) as [Hacc|[col [pr' Hx]]].
      * apply dict_set_In_inv in Hacc.
        destruct Hacc as [[-> ->]|Hacc]; [|now left].
        right. exists col0, pr. repeat split; auto.
      * right. exists col, pr'. tauto.
    + intros Hloop k arr Hin.
      destruct (IH _ Hloop k arr Hin) as [Hacc|[col [pr' Hx]]];
        [now left|].
      right. exists col, pr'. tauto.
Qed.

Lemma apply_param_jac_loop_keys (items : list (Z * Z))
  (acc g : dict (ndarray R)) :
  NoDup (map fst items) ->
  (forall k, In k (map fst items) -> ~ In k (dict_keys acc)) ->
  apply_param_jac_loop self del_param_vec act items acc = Ok g ->
  dict_keys g
  = dict_keys acc ++ filter (fun k => id_in k act) (map fst items).
Proof.
  revert acc. induction items as [|[k0 col0] items IH];
    intros acc Hnd Hfresh; simpl.
  - intros [= <-]. now rewrite app_nil_r.
  - inversion Hnd as [|? ? Hnot Hnd']; subst.
    destruct (id_in k0 act) eqn:Hact.
    + unfold dict_getitem.
      destruct (dict_get k0 (id_to_param self)) as [pr|]; simpl;
        [|discriminate].
      destruct (Nat.eqb (length del_param_vec) 1); simpl; [discriminate|].
      unfold np_reshape.
      destruct (Nat.eqb _ _); simpl; [|discriminate].
      intros Hloop. rewrite (IH _ Hnd') with (2 := Hloop).
      * rewrite dict_keys_set_fresh by (apply Hfresh; now left).
        now rewrite <- app_assoc.
      * intros k Hk. rewrite dict_keys_set_fresh
          by (apply Hfresh; now left).
        rewrite in_app_iff. intros [Hin|[->|[]]].
        -- now apply (Hfresh k (or_intror Hk)).
        -- contradiction.
    + intros Hloop. apply IH; auto.
      intros k Hk. apply Hfresh. now right.
Qed.
End ParamJacEntries.

(** X6. The result of [apply_param_jac] has an entry exactly for the ids of
    [param_id_to_col] that are in [active_params], in the order of
    [param_id_to_col]. Every such id is the id of a parameter of the
    program (for any other listed id, such as that of the constant term,
    the call raises instead of returning), and its entry has the shape and
    the size of that parameter. *)
Theorem apply_param_jac_entries {R : Type} `{Num R} (self : ParamConeProg R)
  (delc : list R) (delA : matrix R) (delb : list R)
  (active_params : option (list Z)) (g : dict (ndarray R)) :
  NoDup (dict_keys (param_id_to_col self)) ->
  apply_param_jac self delc delA delb active_params = Ok g ->
  let active := match active_params with
                | None => map (@param_id R) (parameters self)
                | Some s => s
                end in
  dict_keys g
  = filter (fun k => id_in k active) (dict_keys (param_id_to_col self)) /\
  forall k arr,
    dict_get k g = Some arr ->
    exists pr,
      dict_get k (id_to_param self) = Some pr /\
      shape arr = param_shape pr /\
      length (data arr) = param_size pr.
Proof.
  intros Hnd Hjac active. unfold apply_param_jac in Hjac.
  fold active in Hjac.
  destruct (vecmat delc _) as [u|]; simpl in Hjac; [|discriminate].
  destruct (vecmat (flatten_F delA ++ delb) _) as [t|]; simpl in Hjac;
    [|discriminate].
  destruct (iadd u t) as [w|]; simpl in Hjac; [|discriminate].
  split.
  - apply (apply_param_jac_loop_keys self w active _ [] g Hnd) in Hjac;
      [exact Hjac|].
    intros k _ [].
  - intros k arr Hget. apply dict_get_Some_In in Hget.
    destruct (apply_param_jac_loop_entries self w active _ _ _ Hjac
                k arr Hget) as [[]|[col [pr [_ [_ [Hpr [Hsh [_ Hlen]]]]]]]].
    exists pr. auto.
Qed.

Lemma apply_param_jac_entries_witness :
  dict_keys [(8%Z, scalar 2)]
  = filter (fun k => id_in k [8; 55]%Z) (dict_keys (param_id_to_col prog_ex))
  /\
  forall k arr,
    dict_get k [(8%Z, scalar 2)] = Some arr ->
    exists pr,
      dict_get k (id_to_param prog_ex) = Some pr /\
      shape arr = param_shape pr /\
      length (data arr) = param_size pr.
Proof.
  refine (apply_param_jac_entries prog_ex [1%Z] delA_ex [1%Z]
            (Some [8; 55]%Z) [(8%Z, scalar 2)] _ _).
  - repeat constructor; simpl; intuition discriminate.
  - reflexivity.
Defined.

(** X7. [apply_param_jac] returns only if [delc] has an entry per row of
    the stored [c] but the last, and [delA] and [delb] hold together as
    many entries as the stored [A] has rows: of [delA] only the number of
    entries is checked, not the shape. The stored [A] has the columns of
    the stored [c], or a single column. *)
Theorem apply_param_jac_shapes {R : Type} `{Num R} (self : ParamConeProg R)
  (delc : list R) (delA : matrix R) (delb : list R)
  (active_params : option (list Z)) (g : dict (ndarray R)) :
  apply_param_jac self delc delA delb active_params = Ok g ->
  length delc = nrows (prog_c self) - 1 /\
  ncols delA * nrows delA + length delb = nrows (prog_A self) /\
  (ncols (prog_A self) = ncols (prog_c self) \/ ncols (prog_A self) = 1).
Proof.
  unfold apply_param_jac.
  destruct (vecmat delc _) as [u|] eqn:Hu; simpl; [|discriminate].
  destruct (vecmat (flatten_F delA ++ delb) _) as [t|] eqn:Ht; simpl;
    [|discriminate].
  destruct (iadd u t) as [w|] eqn:Hw; simpl; [|discriminate].
  intros _.
  pose proof (vecmat_length _ _ _ Hu) as Hlu. simpl in Hlu.
  pose proof (vecmat_length _ _ _ Ht) as Hlt.
  unfold vecmat in Hu, Ht.
  destruct (well_shaped _ && Nat.eqb (length delc) _) eqn:Eu;
    [|discriminate].
  destruct (well_shaped _ && Nat.eqb (length (flatten_F delA ++ delb)) _)
    eqn:Et; [|discriminate].
  apply andb_true_iff in Eu. destruct Eu as [_ Eu].
  apply andb_true_iff in Et. destruct Et as [_ Et].
  apply Nat.eqb_eq in Eu. apply Nat.eqb_eq in Et.
  unfold nrows in Eu at 1. simpl in Eu. rewrite length_removelast' in Eu.
  rewrite length_app, length_flatten_F in Et.
  repeat split; try assumption.
  unfold iadd in Hw.
  destruct (Nat.eqb_spec (length t) (length u)) as [E|E]; [left; congruence|].
  destruct t as [|e [|e' t]]; try discriminate.
  right. simpl in Hlt. congruence.
Qed.

Lemma apply_param_jac_shapes_witness :
  length [1%Z] = nrows (prog_c prog_ex) - 1 /\
  ncols delA_ex * nrows delA_ex + length [1%Z] = nrows (prog_A prog_ex) /\
  (ncols (prog_A prog_ex) = ncols (prog_c prog_ex) \/
   ncols (prog_A prog_ex) = 1).
Proof.
  refine (apply_param_jac_shapes prog_ex [1%Z] delA_ex [1%Z] None
            [(7%Z, scalar 3); (8%Z, scalar 2)] _).
  reflexivity.
Defined.

(** ** The parameter vector of [apply_parameters] *)

(** A slice assignment followed by writes to other ranges. *)
Lemma write_then_loop {R : Type} (u u1 v x : list R) (col : Z) (sz : nat)
  (rest : list (Z * nat)) :
  range_ok (length u) (col, sz) ->
  length x = sz ->
  set_slice u col (Z.of_nat sz + col) x = Ok u1 ->
  ranges_disjoint (length u) ((col, sz) :: rest) = true ->
  length v = length u ->
  (forall i, (forall r, In r rest -> in_range (Z.of_nat i) r = false) ->
             nth_error v i = nth_error u1 i) ->
  (forall i, (forall r, In r ((col, sz) :: rest) ->
                        in_range (Z.of_nat i) r = false) ->
             nth_error v i = nth_error u i) /\
  py_slice v col (Z.of_nat sz + col) = x.
Proof.
  intros Hok Hx Hset Hdis Hlen Hout.
  pose proof (set_slice_length _ _ _ _ _ Hset) as Hlen1.
  split.
  - intros i Hi. rewrite Hout by (intros r Hr; apply Hi; now right).
    apply (set_slice_outside u x u1 col sz i Hok Hx Hset).
    apply Hi. now left.
  - transitivity (py_slice u1 col (Z.of_nat sz + col));
      [|exact (py_slice_set_slice u x u1 col sz Hok Hx Hset)].
    apply py_slice_agree; [congruence| |].
    + rewrite Hlen. exact Hok.
    + intros i Hr. apply Hout. intros r Hin.
      apply (ranges_disjoint_head (length u) (col, sz) r rest i Hdis);
        [|exact Hr|exact Hin].
      exact (in_range_lt _ _ _ Hok Hr).
Qed.

Section ParamVecLayout.
Context {R : Type} `{Num R}.
Variable CONSTANT_ID : Z.
Variable self : ParamConeProg R.
Variable p : dict (ndarray R).
Hypothesis p_fits : values_fit self p = true.

Lemma param_vec_loop_writes (items : list (Z * Z)) (u v : list R) :
  ranges_within (length u) (item_ranges CONSTANT_ID self items) = true ->
  ranges_disjoint (length u) (item_ranges CONSTANT_ID self items) = true ->
  param_vec_loop CONSTANT_ID self (Some p) items u = Ok v ->
  (forall i,
      (forall r, In r (item_ranges CONSTANT_ID self items) ->
                 in_range (Z.of_nat i) r = false) ->
      nth_error v i = nth_error u i) /\
  (forall k col, In (k, col) items ->
     if Z.eqb k CONSTANT_ID
     then py_slice v col (Z.of_nat 1 + col) = [one]
     else exists pr x,
         dict_get k (id_to_param self) = Some pr /\
         dict_get k p = Some x /\
         py_slice v col (Z.of_nat (param_size pr) + col) = data x).
Proof.
  revert u. induction items as [|[k0 col0] items IH];
    intros u Hwithin Hdis; simpl.
  - intros [= <-]. split; [reflexivity|]. intros ? ? [].
  - unfold item_ranges in Hwithin, Hdis. simpl in Hwithin, Hdis.
    fold (item_ranges CONSTANT_ID self items) in Hwithin, Hdis.
    destruct (Z.eqb_spec k0 CONSTANT_ID) as [Ek|Ek].
    + destruct (set_item u col0 one) as [u1|] eqn:Hset; simpl;
        [|discriminate].
      intros Hloop. simpl in Hwithin, Hdis.
      apply andb_true_iff in Hwithin. destruct Hwithin as [Hok Hwithin].
      apply range_okb_spec in Hok.
      rewrite (set_item_as_slice u col0 one Hok) in Hset.
      pose proof (set_slice_length _ _ _ _ _ Hset) as Hlen1.
      pose proof (param_vec_loop_length _ _ _ _ _ _ Hloop) as Hlenv.
      destruct (IH u1) with (3 := Hloop) as [Hout Hitems].
      { rewrite Hlen1. exact Hwithin. }
      { rewrite Hlen1.
        exact (ranges_disjoint_tail _ [(col0, 1)] _ Hdis). }
      destruct (write_then_loop u u1 v [one] col0 1
                  (item_ranges CONSTANT_ID self items) Hok eq_refl Hset
                  Hdis ltac:(congruence) Hout) as [Hout' Hhead].
      split.
      * intros i Hi. apply Hout'. intros r Hr. apply Hi. exact Hr.
      * intros k col [E|Hin]; [|now apply Hitems].
        inversion E; subst k col.
        destruct (Z.eqb_spec k0 CONSTANT_ID); [exact Hhead|contradiction].
    + unfold param_value, dict_getitem.
      destruct (dict_get k0 p) as [x|] eqn:Hx; simpl; [|discriminate].
      destruct (dict_get k0 (id_to_param self)) as [pr|] eqn:Hpr; simpl;
        [|discriminate].
      destruct (set_slice u col0 (Z.of_nat (param_size pr) + col0)
                  (flatten x)) as [u1|] eqn:Hset; simpl; [|discriminate].
      intros Hloop. simpl in Hwithin, Hdis.
      apply andb_true_iff in Hwithin. destruct Hwithin as [Hok Hwithin].
      apply range_okb_spec in Hok.
      pose proof (values_fit_get self p k0 x pr p_fits Hx Hpr) as Hsize.
      pose proof (set_slice_length _ _ _ _ _ Hset) as Hlen1.
      pose proof (param_vec_loop_length _ _ _ _ _ _ Hloop) as Hlenv.
      destruct (IH u1) with (3 := Hloop) as [Hout Hitems].
      { rewrite Hlen1. exact Hwithin. }
      { rewrite Hlen1.
        exact (ranges_disjoint_tail _ [(col0, param_size pr)] _ Hdis). }
      destruct (write_then_loop u u1 v (flatten x) col0 (param_size pr)
                  (item_ranges CONSTANT_ID self items) Hok Hsize Hset
                  Hdis ltac:(congruence) Hout) as [Hout' Hhead].
      split.
      * intros i Hi. apply Hout'. intros r Hr. apply Hi. exact Hr.
      * intros k col [E|Hin]; [|now apply Hitems].
        inversion E; subst k col.
        destruct (Z.eqb_spec k0 CONSTANT_ID); [contradiction|].
        exists pr, x. auto.
Qed.

Lemma param_vec_loop_returns (items : list (Z * Z)) (u : list R) :
  ranges_within (length u) (item_ranges CONSTANT_ID self items) = true ->
  (forall k col, In (k, col) items -> k <> CONSTANT_ID ->
     exists pr x, dict_get k (id_to_param self) = Some pr /\
                  dict_get k p = Some x) ->
  exists v, param_vec_loop CONSTANT_ID self (Some p) items u = Ok v.
Proof.
  revert u. induction items as [|[k0 col0] items IH];
    intros u Hwithin Hall; simpl.
  - eauto.
  - unfold item_ranges in Hwithin. simpl in Hwithin.
    fold (item_ranges CONSTANT_ID self items) in Hwithin.
    destruct (Z.eqb_spec k0 CONSTANT_ID) as [Ek|Ek].
    + simpl in Hwithin.
      apply andb_true_iff in Hwithin. destruct Hwithin as [Hok Hwithin].
      apply range_okb_spec in Hok.
      rewrite (set_item_as_slice u col0 one Hok).
      destruct (set_slice u col0 (Z.of_nat 1 + col0) [one])
        as [u1|] eqn:Hset.
      2:{ exfalso. unfold set_slice in Hset.
          destruct (slice_bounds _ _ _ Hok) as [Hsz _].
          rewrite Hsz in Hset. simpl in Hset. discriminate. }
      cbn [bind]. apply IH.
      * rewrite (set_slice_length _ _ _ _ _ Hset). exact Hwithin.
      * intros k col Hin. apply (Hall k col). now right.
    + destruct (Hall k0 col0 (or_introl eq_refl) Ek) as [pr [x [Hpr Hx]]].
      unfold param_value, dict_getitem. rewrite Hx, Hpr. simpl.
      rewrite Hpr in Hwithin. simpl in Hwithin.
      apply andb_true_iff in Hwithin. destruct Hwithin as [Hok Hwithin].
      apply range_okb_spec in Hok.
      pose proof (values_fit_get self p k0 x pr p_fits Hx Hpr) as Hsize.
      destruct (set_slice u col0 (Z.of_nat (param_size pr) + col0)
                  (flatten x)) as [u1|] eqn:Hset.
      2:{ exfalso. unfold set_slice in Hset.
          destruct (slice_bounds _ _ _ Hok) as [Hsz _].
          rewrite Hsz in Hset. unfold flatten in Hset.
          rewrite Hsize, Nat.eqb_refl in Hset. discriminate. }
      simpl. apply IH.
      * rewrite (set_slice_length _ _ _ _ _ Hset). exact Hwithin.
      * intros k col Hin. apply (Hall k col). now right.
Qed.
End ParamVecLayout.

(** X8. The parameter vector that [apply_parameters] multiplies the stored
    coefficients with: for column ranges that lie within the vector and do
    not overlap, and values of the sizes of their parameters, it holds 1 at
    the column of the constant term, the flattened value of every parameter
    at the column range of that parameter, and 0 everywhere else. *)
Theorem flat_param_vec_layout {R : Type} `{Num R} (CONSTANT_ID : Z)
  (self : ParamConeProg R) (p : dict (ndarray R)) (u : list R) :
  ranges_within (total_param_size self + 1) (param_ranges CONSTANT_ID self)
  = true ->
  ranges_disjoint (total_param_size self + 1) (param_ranges CONSTANT_ID self)
  = true ->
  values_fit self p = true ->
  flat_param_vec CONSTANT_ID self (Some p) = Ok u ->
  length u = total_param_size self + 1 /\
  (forall col, In (CONSTANT_ID, col) (param_id_to_col self) ->
     nth_error u (Z.to_nat col) = Some one) /\
  (forall k col, In (k, col) (param_id_to_col self) -> k <> CONSTANT_ID ->
     exists pr x,
       dict_get k (id_to_param self) = Some pr /\
       dict_get k p = Some x /\
       py_slice u col (Z.of_nat (param_size pr) + col) = data x) /\
  (forall i, i < total_param_size self + 1 ->
     (forall r, In r (param_ranges CONSTANT_ID self) ->
                in_range (Z.of_nat i) r = false) ->
     nth_error u i = Some zero).
Proof.
  intros Hwithin Hdis Hfit Hu.
  pose proof (flat_param_vec_length _ _ _ _ Hu) as Hlen.
  unfold flat_param_vec in Hu. unfold param_ranges in Hwithin, Hdis.
  destruct (param_vec_loop_writes CONSTANT_ID self p Hfit
              (param_id_to_col self)
              (repeat zero (total_param_size self + 1)) u)
    as [Hout Hitems]; try (rewrite repeat_length; assumption);
    [assumption|].
  split; [exact Hlen|]. split; [|split].
  - intros col Hin. specialize (Hitems _ _ Hin).
    rewrite Z.eqb_refl in Hitems.
    assert (Hok : range_ok (length u) (col, 1)).
    { rewrite Hlen. apply range_okb_spec.
      unfold ranges_within in Hwithin. rewrite forallb_forall in Hwithin.
      apply Hwithin. unfold item_ranges. apply in_flat_map.
      exists (CONSTANT_ID, col). split; [assumption|]. simpl.
      rewrite Z.eqb_refl. now left. }
    unfold py_slice in Hitems.
    destruct (slice_bounds _ _ _ Hok) as [Hsz Hlo].
    rewrite Hsz in Hitems. destruct Hlo as [Hlo _]; [discriminate|].
    rewrite Hlo in Hitems. rewrite <- (Nat.add_0_r (Z.to_nat col)).
    rewrite <- nth_error_skipn.
    destruct (skipn (Z.to_nat col) u) as [|e l]; [discriminate|].
    simpl in Hitems. now injection Hitems as ->.
  - intros k col Hin Hk. specialize (Hitems _ _ Hin).
    destruct (Z.eqb_spec k CONSTANT_ID); [contradiction|]. exact Hitems.
  - intros i Hi Hfree. rewrite (Hout i Hfree).
    rewrite nth_error_repeat by assumption. reflexivity.
Qed.

Lemma flat_param_vec_layout_witness :
  length [3; 4; 1]%Z = total_param_size prog_ex + 1 /\
  (forall col, In ((-1)%Z, col) (param_id_to_col prog_ex) ->
     nth_error [3; 4; 1]%Z (Z.to_nat col) = Some one) /\
  (forall k col, In (k, col) (param_id_to_col prog_ex) -> k <> (-1)%Z ->
     exists pr x,
       dict_get k (id_to_param prog_ex) = Some pr /\
       dict_get k [(7%Z, scalar 3); (8%Z, scalar 4)] = Some x /\
       py_slice [3; 4; 1]%Z col (Z.of_nat (param_size pr) + col) = data x) /\
  (forall i, i < total_param_size prog_ex + 1 ->
     (forall r, In r (param_ranges (-1) prog_ex) ->
                in_range (Z.of_nat i) r = false) ->
     nth_error [3; 4; 1]%Z i = Some zero).
Proof.
  refine (flat_param_vec_layout (-1) prog_ex
            [(7%Z, scalar 3); (8%Z, scalar 4)] [3; 4; 1]%Z _ _ _ _);
    reflexivity.
Defined.

(** X9. [apply_parameters] returns for every program whose column ranges
    lie within the parameter vector, whose stored [c] and [A] have
    [total_param_size + 1] columns and whose stored [A] has a multiple of
    [x.size + 1] rows, on every mapping that gives each listed parameter a
    value of the size of the parameter. *)
Theorem apply_parameters_returns {R : Type} `{Num R} (CONSTANT_ID : Z)
  (self : ParamConeProg R) (p : dict (ndarray R)) :
  ranges_within (total_param_size self + 1) (param_ranges CONSTANT_ID self)
  = true ->
  (forall k col, In (k, col) (param_id_to_col self) -> k <> CONSTANT_ID ->
     exists pr x, dict_get k (id_to_param self) = Some pr /\
                  dict_get k p = Some x) ->
  values_fit self p = true ->
  well_shaped (prog_c self) = true ->
  ncols (prog_c self) = total_param_size self + 1 ->
  well_shaped (prog_A self) = true ->
  ncols (prog_A self) = total_param_size self + 1 ->
  nrows (prog_A self) mod (var_size (prog_x self) + 1) = 0 ->
  exists c A, apply_parameters CONSTANT_ID self (Some p) = Ok (c, A).
Proof.
  intros Hwithin Hall Hfit Hwc Hnc HwA HnA Hmod.
  destruct (param_vec_loop_returns CONSTANT_ID self p Hfit
              (param_id_to_col self)
              (repeat zero (total_param_size self + 1))) as [u Hu];
    [rewrite repeat_length; exact Hwithin|exact Hall|].
  assert (Hlen : length u = total_param_size self + 1).
  { apply param_vec_loop_length in Hu. now rewrite repeat_length in Hu. }
  unfold apply_parameters, flat_param_vec. rewrite Hu. simpl.
  unfold matvec. rewrite Hwc, HwA, Hnc, HnA, Hlen, Nat.eqb_refl. simpl.
  unfold reshape_F. rewrite length_map. fold (nrows (prog_A self)).
  set (k := var_size (prog_x self) + 1) in *.
  assert (E : nrows (prog_A self) = nrows (prog_A self) / k * k).
  { rewrite Nat.mul_comm. apply Nat.Div0.div_exact. exact Hmod. }
  rewrite <- E, Nat.eqb_refl. simpl. eauto.
Qed.

Lemma apply_parameters_returns_witness :
  exists c A,
    apply_parameters (-1) prog_ex (Some [(7%Z, scalar 3); (8%Z, scalar 4)])
    = Ok (c, A).
Proof.
  refine (apply_parameters_returns (-1) prog_ex
            [(7%Z, scalar 3); (8%Z, scalar 4)] _ _ _ _ _ _ _ _);
    try reflexivity.
  intros k col Hin Hk. simpl in Hin.
  destruct Hin as [E|[E|[E|[]]]]; inversion E; subst.
  - exists {| param_id := 7; param_shape := []; value := Some (scalar 2) |},
      (scalar 3). split; reflexivity.
  - exists {| param_id := 8; param_shape := []; value := Some (scalar 6) |},
      (scalar 4). split; reflexivity.
  - contradiction.
Defined.

(** ** More on [MatrixStuffing.invert] *)

Lemma firstn_plus {T : Type} (p q : nat) (l : list T) :
  firstn (p + q) l = firstn p l ++ firstn q (skipn p l).
Proof.
  revert l. induction p as [|p IH]; intros l; [reflexivity|].
  destruct l as [|a l]; simpl; [now rewrite firstn_nil|].
  now rewrite IH.
Qed.

(** Adjacent slices join. *)
Lemma py_slice_app {R : Type} (v : list R) (a b c : Z) :
  (0 <= a <= b)%Z -> (b <= c)%Z ->
  py_slice v a b ++ py_slice v b c = py_slice v a c.
Proof.
  intros Hab Hbc. unfold py_slice, py_index.
  destruct (Z.ltb_spec a 0); [lia|].
  destruct (Z.ltb_spec b 0); [lia|].
  destruct (Z.ltb_spec c 0); [lia|].
  set (n := length v).
  set (a' := Z.to_nat (Z.min a (Z.of_nat n))).
  set (b' := Z.to_nat (Z.min b (Z.of_nat n))).
  set (c' := Z.to_nat (Z.min c (Z.of_nat n))).
  assert (Ha : a' <= b') by (subst a' b'; lia).
  assert (Hb : b' <= c') by (subst b' c'; lia).
  replace (c' - a') with ((b' - a') + (c' - b')) by lia.
  rewrite firstn_plus. f_equal.
  rewrite skipn_skipn. do 2 f_equal. lia.
Qed.

Lemma flat_map_dict_set_fresh {V T : Type} (f : Z * V -> list T) (k : Z)
  (v : V) (d : dict V) :
  ~ In k (dict_keys d) ->
  flat_map f (dict_set k v d) = flat_map f d ++ f (k, v).
Proof.
  intros Hk. rewrite dict_set_fresh by assumption.
  rewrite flat_map_app. simpl. now rewrite app_nil_r.
Qed.

Section InvertEntries.
Context {R : Type} `{Num R}.
Variable inverse_data : InverseData.

Lemma invert_primal_loop_entries (x_opt : list R) (items : list (Z * Z))
  (acc d : dict (ndarray R)) :
  invert_primal_loop inverse_data x_opt items acc = Ok d ->
  forall k arr, In (k, arr) d ->
    In (k, arr) acc \/
    exists offset s,
      In (k, offset) items /\
      dict_get k (var_shapes inverse_data) = Some s /\
      arr = {| shape := s;
               data := py_slice x_opt offset
                         (offset + Z.of_nat (shape_size s)) |}.
Proof.
  revert acc. induction items as [|[k0 off0] items IH]; intros acc; simpl.
  - intros [= <-]. auto.
  - unfold dict_getitem.
    destruct (dict_get k0 (var_shapes inverse_data)) as [s|] eqn:Hs;
      simpl; [|discriminate].
    unfold np_reshape. destruct (Nat.eqb _ _); simpl; [|discriminate].
    intros Hloop k arr Hin.
    destruct (IH _ Hloop k arr Hin) as [Hacc|[off [s' Hx]]].
    + apply dict_set_In_inv in Hacc.
      destruct Hacc as [[-> ->]|Hacc]; [|now left].
      right. exists off0, s. repeat split; auto.
    + right. exists off, s'. tauto.
Qed.

Lemma invert_primal_loop_keys (x_opt : list R) (items : list (Z * Z))
  (acc d : dict (ndarray R)) :
  NoDup (map fst items) ->
  (forall k, In k (map fst items) -> ~ In k (dict_keys acc)) ->
  invert_primal_loop inverse_data x_opt items acc = Ok d ->
  dict_keys d = dict_keys acc ++ map fst items.
Proof.
  revert acc. induction items as [|[k0 off0] items IH];
    intros acc Hnd Hfresh; simpl.
  - intros [= <-]. now rewrite app_nil_r.
  - inversion Hnd as [|? ? Hnot Hnd']; subst.
    unfold dict_getitem.
    destruct (dict_get k0 (var_shapes inverse_data)) as [s|]; simpl;
      [|discriminate].
    unfold np_reshape. destruct (Nat.eqb _ _); simpl; [|discriminate].
    intros Hloop. rewrite (IH _ Hnd') with (2 := Hloop).
    + rewrite dict_keys_set_fresh by (apply Hfresh; now left).
      now rewrite <- app_assoc.
    + intros k Hk. rewrite dict_keys_set_fresh by (apply Hfresh; now left).
      rewrite in_app_iff. intros [Hin|[->|[]]].
      * now apply (Hfresh k (or_intror Hk)).
      * contradiction.
Qed.

Lemma invert_dv_loop_concat (dual_var : list R) (dvs : list variable)
  (offset : Z) (dual : dict (ndarray R)) (od : Z * dict (ndarray R)) :
  (0 <= offset)%Z ->
  NoDup (dict_keys dual ++ old_ids inverse_data dvs) ->
  invert_dv_loop inverse_data dual_var dvs offset dual = Ok od ->
  fst od = (offset + Z.of_nat (total_size dvs))%Z /\
  dict_keys (snd od) = dict_keys dual ++ old_ids inverse_data dvs /\
  flat_map (fun e => flatten (snd e)) (snd od)
  = flat_map (fun e => flatten (snd e)) dual
    ++ py_slice dual_var offset (offset + Z.of_nat (total_size dvs)).
Proof.
  revert offset dual. induction dvs as [|dv dvs IH];
    intros offset dual Hoff Hnd; simpl.
  - intros [= <-]. simpl. rewrite Z.add_0_r, !app_nil_r.
    repeat split. unfold py_slice. rewrite Nat.sub_diag. simpl.
    now rewrite app_nil_r.
  - unfold dict_getitem. unfold old_ids in Hnd. simpl in Hnd.
    destruct (dict_get (var_id dv) (dv_id_map inverse_data))
      as [dv_old|] eqn:Hold; simpl; [|discriminate].
    unfold np_reshape. destruct (Nat.eqb _ _); simpl; [|discriminate].
    fold (old_ids inverse_data dvs) in Hnd. simpl in Hnd.
    assert (Hfresh : ~ In (var_id dv_old) (dict_keys dual)).
    { intros Hin. apply NoDup_remove_2 in Hnd. apply Hnd.
      apply in_or_app. now left. }
    intros Hloop. apply IH in Hloop.
    + destruct Hloop as [Hfst [Hkeys Hcat]].
      rewrite Hfst, Hkeys, Hcat.
      rewrite dict_keys_set_fresh by assumption.
      rewrite flat_map_dict_set_fresh by assumption. simpl.
      rewrite <- !app_assoc. simpl.
      split; [lia|]. split; [reflexivity|]. f_equal.
      unfold flatten. simpl.
      replace (offset + Z.of_nat (var_size dv + total_size dvs))%Z
        with (offset + Z.of_nat (var_size dv)
              + Z.of_nat (total_size dvs))%Z by lia.
      apply py_slice_app; lia.
    + lia.
    + rewrite dict_keys_set_fresh by assumption.
      rewrite <- app_assoc. exact Hnd.
Qed.

Lemma invert_dual_loop_concat (dual_var : list R)
  (constrs : list constraint) (offset : Z) (dual d : dict (ndarray R)) :
  (0 <= offset)%Z ->
  NoDup (dict_keys dual ++ old_ids inverse_data (flat_map dual_variables constrs)) ->
  invert_dual_loop inverse_data dual_var constrs offset dual = Ok d ->
  dict_keys d = dict_keys dual ++ old_ids inverse_data (flat_map dual_variables constrs)
  /\
  flat_map (fun e => flatten (snd e)) d
  = flat_map (fun e => flatten (snd e)) dual
    ++ py_slice dual_var offset
         (offset
          + Z.of_nat (total_size (flat_map dual_variables constrs))).
Proof.
  assert (Hold_app : forall l1 l2,
             old_ids inverse_data (l1 ++ l2)
             = old_ids inverse_data l1 ++ old_ids inverse_data l2)
    by (intros; apply flat_map_app).
  assert (Htot_app : forall l1 l2 : list variable,
             total_size (l1 ++ l2) = total_size l1 + total_size l2).
  { induction l1 as [|v l1 IH]; intros l2; simpl; [reflexivity|].
    rewrite IH. lia. }
  revert offset dual. induction constrs as [|constr constrs IH];
    intros offset dual Hoff Hnd; simpl.
  - intros [= <-]. simpl. rewrite Z.add_0_r, !app_nil_r.
    split; [reflexivity|]. unfold py_slice. rewrite Nat.sub_diag. simpl.
    now rewrite app_nil_r.
  - simpl in Hnd. rewrite Hold_app in Hnd.
    destruct (invert_dv_loop inverse_data dual_var
                (dual_variables constr) offset dual) as [od|] eqn:Hdv;
      simpl; [|discriminate].
    apply invert_dv_loop_concat in Hdv; [|assumption|].
    2:{ rewrite app_assoc in Hnd. now apply NoDup_app_remove_r in Hnd. }
    destruct Hdv as [Hfst [Hkeys Hcat]].
    intros Hloop. apply IH in Hloop.
    + destruct Hloop as [Hkeys' Hcat'].
      rewrite Hkeys', Hcat', Hkeys, Hcat, Hfst, Hold_app, Htot_app.
      rewrite <- !app_assoc. split; [reflexivity|]. f_equal.
      rewrite Nat2Z.inj_add, Z.add_assoc.
      apply py_slice_app; lia.
    + lia.
    + rewrite Hkeys, <- app_assoc. exact Hnd.
Qed.
End InvertEntries.

(** X10. When a solution is present and [invert] returns, the primal map of
    the result has an entry for every variable of [var_offsets], in that
    order, and no other; the entry of a variable has the recorded shape
    and holds the slice of the first primal value at the recorded offset.
    The dual map of the result is never [None]. *)
Theorem invert_primal_entries {R : Type} `{Num R}
  (ERROR SOLUTION_PRESENT : list string) (solution r : Solution R)
  (inverse_data : InverseData) :
  NoDup (dict_keys (var_offsets inverse_data)) ->
  status_in (status solution) SOLUTION_PRESENT = true ->
  invert ERROR SOLUTION_PRESENT solution inverse_data = Ok r ->
  dict_keys (primal_vars r) = dict_keys (var_offsets inverse_data) /\
  dual_vars r <> None /\
  exists x_opt,
    first_value (primal_vars solution) = Ok x_opt /\
    forall k arr,
      dict_get k (primal_vars r) = Some arr ->
      exists offset s,
        dict_get k (var_offsets inverse_data) = Some offset /\
        dict_get k (var_shapes inverse_data) = Some s /\
        shape arr = s /\
        data arr = py_slice (flatten x_opt) offset
                     (offset + Z.of_nat (shape_size s)).
Proof.
  intros Hnd Hsp. unfold invert.
  destruct (invert_opt_val ERROR solution inverse_data) as [opt|]; simpl;
    [|discriminate].
  rewrite Hsp. simpl.
  destruct (first_value (primal_vars solution)) as [x_opt|]; simpl;
    [|discriminate].
  destruct (invert_primal_loop inverse_data (flatten x_opt)
              (var_offsets inverse_data) []) as [primal|] eqn:Hp; simpl;
    [|discriminate].
  intros Hr.
  assert (Hr' : primal_vars r = primal /\ dual_vars r <> None).
  { destruct (dual_vars solution) as [dvs|].
    - destruct (first_value dvs); simpl in Hr; [|discriminate].
      destruct (invert_dual_loop _ _ _ _ _); simpl in Hr; [|discriminate].
      injection Hr as <-. simpl. split; [reflexivity|discriminate].
    - simpl in Hr. injection Hr as <-. simpl.
      split; [reflexivity|discriminate]. }
  destruct Hr' as [-> Hdual].
  split; [|split; [exact Hdual|]].
  - apply (invert_primal_loop_keys inverse_data _ _ [] primal Hnd) in Hp;
      [exact Hp|].
    intros k _ [].
  - exists x_opt. split; [reflexivity|].
    intros k arr Hget. apply dict_get_Some_In in Hget.
    destruct (invert_primal_loop_entries inverse_data _ _ _ _ Hp k arr Hget)
      as [[]|[offset [s [Hin [Hs ->]]]]].
    exists offset, s. repeat split; auto. now apply dict_get_In.
Qed.

Lemma invert_primal_entries_witness :
  dict_keys [(1%Z, flat [1; 2]%Z); (2%Z, scalar 3)]
  = dict_keys (var_offsets (inverse_data_ex false)) /\
  Some [(11%Z, flat [7; 8]%Z)] <> None /\
  exists x_opt,
    first_value (primal_vars (solution_ex "optimal" (Some 5%Z))) = Ok x_opt /\
    forall k arr,
      dict_get k [(1%Z, flat [1; 2]%Z); (2%Z, scalar 3)] = Some arr ->
      exists offset s,
        dict_get k (var_offsets (inverse_data_ex false)) = Some offset /\
        dict_get k (var_shapes (inverse_data_ex false)) = Some s /\
        shape arr = s /\
        data arr = py_slice (flatten x_opt) offset
                     (offset + Z.of_nat (shape_size s)).
Proof.
  refine (invert_primal_entries ERROR_ex SOLUTION_PRESENT_ex
            (solution_ex "optimal" (Some 5%Z))
            {| status := "optimal"; opt_val := Some (-5)%Z;
               primal_vars := [(1%Z, flat [1; 2]%Z); (2%Z, scalar 3)];
               dual_vars := Some [(11%Z, flat [7; 8]%Z)];
               attr := [] |}
            (inverse_data_ex false) _ _ _).
  - repeat constructor; simpl; intuition discriminate.
  - reflexivity.
  - reflexivity.
Defined.

Lemma invert_primal_loop_split {R : Type} `{Num R} (self : ParamConeProg R)
  (inverse_data : InverseData) (x : list R) (items : list (Z * Z))
  (acc : dict (ndarray R)) :
  (forall k offset, In (k, offset) items ->
     exists var, dict_get k (id_to_var self) = Some var /\
                 dict_get k (var_shapes inverse_data)
                 = Some (var_shape var)) ->
  invert_primal_loop inverse_data x items acc
  = split_solution_loop self x (map var_id (variables self)) items acc.
Proof.
  revert acc. induction items as [|[k offset] items IH]; intros acc Hshapes;
    simpl; [reflexivity|].
  destruct (Hshapes k offset (or_introl eq_refl)) as [var [Hvar Hshape]].
  assert (Hact : id_in k (map var_id (variables self)) = true)
    by (apply active_has_var; eauto).
  rewrite Hact. unfold dict_getitem. rewrite Hvar, Hshape. simpl.
  unfold var_size. rewrite (Z.add_comm offset).
  destruct (np_reshape _ _); simpl; [|reflexivity].
  apply IH. intros k' offset' Hin. apply (Hshapes k' offset'). now right.
Qed.

(** X11. [invert] and [split_solution] split the primal vector alike: when
    the offsets and shapes recorded in the inverse data are those of the
    variables of a program, the primal map that [invert] returns is what
    [split_solution] of the program returns on the first primal value. *)
Theorem invert_primal_is_split_solution {R : Type} `{Num R}
  (ERROR SOLUTION_PRESENT : list string) (self : ParamConeProg R)
  (solution r : Solution R) (inverse_data : InverseData)
  (x_opt : ndarray R) :
  var_offsets inverse_data = var_id_to_col self ->
  (forall k offset, In (k, offset) (var_id_to_col self) ->
     exists var, dict_get k (id_to_var self) = Some var /\
                 dict_get k (var_shapes inverse_data)
                 = Some (var_shape var)) ->
  status_in (status solution) SOLUTION_PRESENT = true ->
  first_value (primal_vars solution) = Ok x_opt ->
  invert ERROR SOLUTION_PRESENT solution inverse_data = Ok r ->
  split_solution self (flatten x_opt) None = Ok (primal_vars r).
Proof.
  intros Hoff Hshapes Hsp Hx. unfold invert.
  destruct (invert_opt_val ERROR solution inverse_data) as [opt|]; simpl;
    [|discriminate].
  rewrite Hsp, Hx. simpl.
  destruct (invert_primal_loop inverse_data (flatten x_opt)
              (var_offsets inverse_data) []) as [primal|] eqn:Hp; simpl;
    [|discriminate].
  intros Hr.
  assert (Hr' : primal_vars r = primal).
  { destruct (dual_vars solution) as [dvs|].
    - destruct (first_value dvs); simpl in Hr; [|discriminate].
      destruct (invert_dual_loop _ _ _ _ _); simpl in Hr; [|discriminate].
      now injection Hr as <-.
    - simpl in Hr. now injection Hr as <-. }
  rewrite Hr', <- Hp, Hoff. unfold split_solution. symmetry.
  now apply invert_primal_loop_split.
Qed.

Lemma invert_primal_is_split_solution_witness :
  split_solution prog_split (flatten (flat [4; 5; 6; 7; 8]%Z)) None
  = Ok [(1%Z, flat [4; 5]%Z); (2%Z, scalar 6);
        (3%Z, {| shape := [1; 2]; data := [7; 8]%Z |})].
Proof.
  refine (invert_primal_is_split_solution ERROR_ex SOLUTION_PRESENT_ex
            prog_split
            {| status := "optimal"; opt_val := Some 0%Z;
               primal_vars := [(9%Z, flat [4; 5; 6; 7; 8]%Z)];
               dual_vars := None; attr := [] |}
            {| status := "optimal"; opt_val := Some 0%Z;
               primal_vars := [(1%Z, flat [4; 5]%Z); (2%Z, scalar 6);
                               (3%Z, {| shape := [1; 2];
                                        data := [7; 8]%Z |})];
               dual_vars := Some []; attr := [] |}
            {| var_offsets := [(1, 0); (2, 2); (3, 3)]%Z;
               var_shapes := [(1%Z, [2]); (2%Z, []); (3%Z, [1; 2])];
               param_id_map := []; dv_id_map := [];
               inv_constraints := []; minimize := true |}
            (flat [4; 5; 6; 7; 8]%Z) _ _ _ _ _); try reflexivity.
  intros k offset Hin. simpl in Hin.
  destruct Hin as [E|[E|[E|[]]]]; inversion E; subst;
    eexists; split; reflexivity.
Defined.

(** X12. The dual map that [invert] returns, when the old dual variables
    have distinct ids: its ids are those of the old dual variables, in the
    order of the constraints and of their dual variables, and its values,
    flattened and put one after the other, are the leading entries of the
    first dual value, as many as the dual variables have together. *)
Theorem invert_dual_vars_concat {R : Type} `{Num R}
  (ERROR SOLUTION_PRESENT : list string) (solution r : Solution R)
  (inverse_data : InverseData) (dvs : dict (ndarray R))
  (dual_var : ndarray R) :
  status_in (status solution) SOLUTION_PRESENT = true ->
  dual_vars solution = Some dvs ->
  first_value dvs = Ok dual_var ->
  NoDup (old_dual_ids inverse_data) ->
  invert ERROR SOLUTION_PRESENT solution inverse_data = Ok r ->
  exists duals,
    dual_vars r = Some duals /\
    dict_keys duals = old_dual_ids inverse_data /\
    flat_map (fun e => flatten (snd e)) duals
    = firstn (total_size
                (flat_map dual_variables (inv_constraints inverse_data)))
        (flatten dual_var).
Proof.
  intros Hsp Hdvs Hfirst Hnd. unfold invert.
  destruct (invert_opt_val ERROR solution inverse_data) as [opt|]; simpl;
    [|discriminate].
  rewrite Hsp. simpl.
  destruct (first_value (primal_vars solution)) as [x_opt|]; simpl;
    [|discriminate].
  destruct (invert_primal_loop _ _ _ _) as [primal|]; simpl; [|discriminate].
  rewrite Hdvs, Hfirst. simpl.
  destruct (invert_dual_loop inverse_data (flatten dual_var)
              (inv_constraints inverse_data) 0 []) as [duals|] eqn:Hd;
    simpl; [|discriminate].
  intros [= <-]. simpl. exists duals. split; [reflexivity|].
  apply invert_dual_loop_concat in Hd; [|lia|exact Hnd].
  destruct Hd as [Hkeys Hcat]. split; [exact Hkeys|].
  rewrite Hcat. simpl. unfold py_slice, py_index. simpl.
  set (t := total_size _). set (n := length (flatten dual_var)).
  destruct (Z.ltb_spec (Z.of_nat t) 0); [lia|].
  replace (Z.to_nat (Z.min 0 (Z.of_nat n))) with 0 by lia.
  rewrite Nat.sub_0_r. simpl.
  destruct (Nat.le_ge_cases t n).
  - f_equal. lia.
  - replace (Z.to_nat (Z.min (Z.of_nat t) (Z.of_nat n))) with n by lia.
    subst n. rewrite firstn_all. symmetry. now apply firstn_all2.
Qed.

Lemma invert_dual_vars_concat_witness :
  exists duals,
    Some [(11%Z, flat [7; 8]%Z)] = Some duals /\
    dict_keys duals = old_dual_ids (inverse_data_ex false) /\
    flat_map (fun e => flatten (snd e)) duals
    = firstn (total_size
                (flat_map dual_variables
                   (inv_constraints (inverse_data_ex false))))
        (flatten (flat [7; 8]%Z)).
Proof.
  refine (invert_dual_vars_concat ERROR_ex SOLUTION_PRESENT_ex
            (solution_ex "optimal" (Some 5%Z))
            {| status := "optimal"; opt_val := Some (-5)%Z;
               primal_vars := [(1%Z, flat [1; 2]%Z); (2%Z, scalar 3)];
               dual_vars := Some [(11%Z, flat [7; 8]%Z)];
               attr := [] |}
            (inverse_data_ex false) [(200%Z, flat [7; 8]%Z)]
            (flat [7; 8]%Z) _ _ _ _ _); try reflexivity.
  repeat constructor; simpl; intuition discriminate.
Defined.

(** X13. With a solution present, [invert] raises [IndexError] on an empty
    primal map, and on an empty dual map as well, although it accepts a
    dual map that is [None]. *)
Theorem invert_empty_maps {R : Type} `{Num R}
  (ERROR SOLUTION_PRESENT : list string) (solution : Solution R)
  (inverse_data : InverseData) :
  status_in (status solution) SOLUTION_PRESENT = true ->
  is_ok (invert ERROR SOLUTION_PRESENT (with_dual_vars solution None)
           inverse_data) = true ->
  invert ERROR SOLUTION_PRESENT (with_primal_vars solution []) inverse_data
  = Raise IndexError /\
  invert ERROR SOLUTION_PRESENT (with_dual_vars solution (Some []))
    inverse_data
  = Raise IndexError.
Proof.
  intros Hsp. unfold invert, invert_opt_val. simpl.
  destruct (negb (status_in (status solution) ERROR)
            && negb (minimize inverse_data));
    [destruct (opt_val solution); [|discriminate]|]; simpl;
    rewrite Hsp; simpl;
    (split; [reflexivity|]);
    destruct (first_value (primal_vars solution)); simpl in *;
    try discriminate;
    destruct (invert_primal_loop _ _ _ _); simpl in *; try discriminate;
    reflexivity.
Qed.

Lemma invert_empty_maps_witness :
  invert ERROR_ex SOLUTION_PRESENT_ex
    (with_primal_vars (solution_ex "optimal" (Some 5%Z)) [])
    (inverse_data_ex false)
  = Raise IndexError /\
  invert ERROR_ex SOLUTION_PRESENT_ex
    (with_dual_vars (solution_ex "optimal" (Some 5%Z)) (Some []))
    (inverse_data_ex false)
  = Raise IndexError.
Proof.
  refine (invert_empty_maps ERROR_ex SOLUTION_PRESENT_ex
            (solution_ex "optimal" (Some 5%Z)) (inverse_data_ex false) _ _);
    reflexivity.
Defined.

(** ** [extract_mip_idx] *)

Lemma map_result_Forall2 {A B : Type} (f : A -> result B) (l : list A)
  (rs : list B) :
  map_result f l = Ok rs -> Forall2 (fun a r => f a = Ok r) l rs.
Proof.
  revert rs. induction l as [|a l IH]; intros rs; simpl.
  - intros [= <-]. constructor.
  - destruct (f a) as [b|] eqn:Hb; simpl; [|discriminate].
    destruct (map_result f l) as [bs|]; simpl; [|discriminate].
    intros [= <-]. constructor; auto.
Qed.

Lemma map_result_error {A B : Type} (f : A -> result B) (l : list A)
  (e : pyerr) :
  map_result f l = Raise e -> exists a, In a l /\ f a = Raise e.
Proof.
  induction l as [|a l IH]; simpl; [discriminate|].
  destruct (f a) as [b|e'] eqn:Hb; simpl.
  - destruct (map_result f l) as [bs|e'']; simpl; [discriminate|].
    intros [= <-]. destruct IH as [a' [Hin Ha']]; [reflexivity|].
    exists a'. auto.
  - intros [= <-]. exists a. auto.
Qed.

Lemma map_result_ok {A B : Type} (f : A -> result B) (l : list A) :
  (forall a, In a l -> is_ok (f a) = true) ->
  is_ok (map_result f l) = true.
Proof.
  induction l as [|a l IH]; intros Hall; simpl; [reflexivity|].
  pose proof (Hall a (or_introl eq_refl)) as Ha.
  destruct (f a); [|discriminate]. simpl.
  assert (Hl : is_ok (map_result f l) = true)
    by (apply IH; intros; apply Hall; now right).
  destruct (map_result f l); [reflexivity|discriminate].
Qed.

Lemma firstn_as_map_nth (d : nat) (m : list Z) :
  d <= length m -> map (fun k => nth k m 0%Z) (seq 0 d) = firstn d m.
Proof.
  revert m. induction d as [|d IH]; intros m Hd; [reflexivity|].
  destruct m as [|a m]; [simpl in Hd; lia|].
  simpl. f_equal. rewrite <- seq_shift, map_map. apply IH.
  simpl in Hd. lia.
Qed.

Lemma min_length_le (idx : list (list Z)) (m : list Z) :
  In m idx -> min_length idx <= length m.
Proof.
  destruct idx as [|t ts]; [intros []|]. simpl.
  induction ts as [|u ts IH]; simpl.
  - intros [<-|[]]. lia.
  - intros [<-|[<-|Hin]].
    + assert (fold_right (fun m n => Nat.min (length m) n) (length t) ts
              <= length t) by (apply IH; now left).
      lia.
    + lia.
    + assert (fold_right (fun m n => Nat.min (length m) n) (length t) ts
              <= length m) by (apply IH; now right).
      lia.
Qed.

Lemma min_length_uniform (idx : list (list Z)) (d : nat) :
  idx <> [] -> (forall m, In m idx -> length m = d) -> min_length idx = d.
Proof.
  destruct idx as [|t ts]; [congruence|]. intros _ Hall. simpl.
  induction ts as [|u ts IH]; simpl.
  - apply Hall. now left.
  - rewrite IH.
    + rewrite (Hall u) by (right; now left). apply Nat.min_id.
    + intros m [<-|Hin]; apply Hall; [now left|right; now right].
Qed.

Lemma zip_star_length (idx : list (list Z)) :
  length (zip_star idx) = min_length idx.
Proof. unfold zip_star. now rewrite length_map, length_seq. Qed.

Lemma zip_star_first (idx : list (list Z)) :
  match zip_star idx with
  | [] => min_length idx = 0
  | c :: _ => length c = length idx
  end.
Proof.
  unfold zip_star.
  destruct (min_length idx) as [|d]; [reflexivity|].
  cbn [seq map]. now rewrite length_map.
Qed.

(** The point that the coordinate arrays of [zip] hold at position [j]. *)
Lemma zip_star_point (idx : list (list Z)) (j : nat) :
  j < length idx ->
  map (fun c => nth j c 0%Z) (zip_star idx)
  = firstn (min_length idx) (nth j idx []).
Proof.
  intros Hj. unfold zip_star.
  rewrite map_map.
  rewrite <- firstn_as_map_nth
    by (apply min_length_le, nth_In; exact Hj).
  apply map_ext. intros k.
  rewrite <- (map_nth (fun m : list Z => nth k m 0%Z) idx [] j).
  f_equal. now destruct k.
Qed.

Lemma Forall2_ext_in {A B : Type} (P Q : A -> B -> Prop) (l : list A)
  (rs : list B) :
  (forall a r, In a l -> P a r -> Q a r) ->
  Forall2 P l rs -> Forall2 Q l rs.
Proof.
  intros Himp Hf. induction Hf as [|a r l rs Hh Ht IH]; constructor.
  - apply Himp; [now left|assumption].
  - apply IH. intros a' r' Hin. apply Himp. now right.
Qed.

Lemma Forall2_seq_nth {A B : Type} (P : A -> B -> Prop) (d0 : A)
  (l : list A) (rs : list B) (s : nat) :
  Forall2 (fun j r => P (nth (j - s) l d0) r) (seq s (length l)) rs ->
  Forall2 P l rs.
Proof.
  revert rs s. induction l as [|a l IH]; intros rs s; simpl.
  - intros Hf. inversion Hf. constructor.
  - intros Hf. inversion Hf as [|? ? ? ? Hhead Htail]; subst.
    constructor.
    + now rewrite Nat.sub_diag in Hhead.
    + apply (IH _ (S s)).
      apply Forall2_ext_in with (2 := Htail).
      intros j r Hj. apply in_seq in Hj.
      replace (j - s) with (S (j - S s)) by lia. auto.
Qed.

Lemma max_shape_nonempty (s : list nat) : max_shape s <> [].
Proof.
  unfold max_shape. destruct s as [|x s]; simpl; [discriminate|].
  destruct (_ || _); discriminate.
Qed.



Lemma ravel_F_length (dims : list nat) (coords : list Z) (r : Z) :
  ravel_F dims coords = Ok r -> length coords = length dims.
Proof.
  revert coords r. induction dims as [|d dims IH]; intros coords r; simpl.
  - destruct coords; [reflexivity|discriminate].
  - destruct coords as [|i coords]; [discriminate|].
    destruct (_ && _)%bool; [|discriminate].
    destruct (ravel_F dims coords) as [r'|] eqn:Hr'; simpl; [|discriminate].
    intros _. simpl. f_equal. eauto.
Qed.


Lemma ravel_F_error (dims : list nat) (coords : list Z) (e : pyerr) :
  ravel_F dims coords = Raise e -> e = ValueError.
Proof.
  revert coords. induction dims as [|d dims IH]; intros coords; simpl.
  - destruct coords; [discriminate|]. now intros [= <-].
  - destruct coords as [|i coords]; [now intros [= <-]|].
    destruct (_ && _)%bool; [|now intros [= <-]].
    destruct (ravel_F dims coords) as [r'|e'] eqn:Hr'; simpl;
      [discriminate|].
    intros [= <-]. eauto.
Qed.

(** Within the bounds, every coordinate lies within its dimension. *)
Lemma ravel_F_coords (dims : list nat) (coords : list Z) (r : Z) (k : nat) :
  ravel_F dims coords = Ok r ->
  k < length dims ->
  (0 <= nth k coords 0 < Z.of_nat (nth k dims 0%nat))%Z.
Proof.
  revert coords r k. induction dims as [|d dims IH]; intros coords r k;
    simpl.
  - intros _ Hk. lia.
  - destruct coords as [|i coords]; [discriminate|].
    destruct (_ && _)%bool eqn:Hb; [|discriminate].
    apply andb_true_iff in Hb. destruct Hb as [H0 Hd].
    apply Z.leb_le in H0. apply Z.ltb_lt in Hd.
    destruct (ravel_F dims coords) as [r'|] eqn:Hr'; simpl; [|discriminate].
    intros _ Hk. destruct k as [|k]; simpl; [lia|].
    apply (IH _ _ _ Hr'). lia.
Qed.

Lemma forallb_false_in {A : Type} (f : A -> bool) (l : list A) :
  forallb f l = false -> exists a, In a l /\ f a = false.
Proof.
  induction l as [|a l IH]; simpl; [discriminate|].
  destruct (f a) eqn:Ha; simpl.
  - intros Hl. destruct (IH Hl) as [b [Hb Hfb]]. exists b. auto.
  - intros _. exists a. auto.
Qed.

Section ExtendMipIdx.
Variable x : mip_variable.
Variable off : Z.

(** What one [+=] adds: an entry per multi-index. *)
Lemma extend_mip_idx_entries (idx acc r : list (list Z)) :
  extend_mip_idx idx x off acc = Ok r ->
  exists blk, r = acc ++ blk /\ Forall2 (mip_entry x off) idx blk.
Proof.
  unfold extend_mip_idx. destruct idx as [|t ts].
  - intros [= <-]. exists []. split; [now rewrite app_nil_r|constructor].
  - set (idx := t :: ts). unfold ravel_multi_index, np_ravel_multi_index.
    set (dims := max_shape (var_shape (mip_var x))).
    destruct (dims_ok dims); [|discriminate].
    destruct (Nat.eqb_spec (length (zip_star idx)) (length dims))
      as [Hd|Hd]; [|discriminate].
    destruct (forallb int_coords (zip_star idx)); [|discriminate].
    rewrite zip_star_length in Hd.
    pose proof (zip_star_first idx) as Hfirst.
    destruct (zip_star idx) as [|c cs] eqn:Hz.
    { exfalso. apply (max_shape_nonempty (var_shape (mip_var x))).
      apply length_zero_iff_nil. fold dims. lia. }
    rewrite Hfirst.
    destruct (map_result _ (seq 0 (length idx))) as [rs|] eqn:Hrs; simpl;
      [|discriminate].
    intros [= <-]. exists (map (fun i => [(off + i)%Z]) rs).
    split; [reflexivity|].
    apply map_result_Forall2 in Hrs.
    apply Forall2_seq_nth with (d0 := []) (s := 0).
    assert (Hmap : forall (l : list nat) (rs : list Z),
               Forall2 (fun j r =>
                          ravel_F dims (map (fun c => nth j c 0%Z) (c :: cs))
                          = Ok r) l rs ->
               (forall j, In j l -> j < length idx) ->
               Forall2 (fun j t => mip_entry x off (nth (j - 0) idx []) t)
                 l (map (fun i => [(off + i)%Z]) rs)).
    { intros l rs' Hf. induction Hf as [|j r l rs' Hh Ht IH]; intros Hb;
        cbn [map]; constructor.
      - exists r. split; [|reflexivity].
        rewrite Nat.sub_0_r. fold dims. rewrite <- Hd.
        rewrite <- zip_star_point by (apply Hb; now left).
        rewrite Hz. exact Hh.
      - apply IH. intros j' Hj'. apply Hb. now right. }
    apply Hmap; [exact Hrs|].
    intros j Hj. apply in_seq in Hj. lia.
Qed.

Lemma extend_mip_idx_error (idx acc : list (list Z)) (e : pyerr) :
  extend_mip_idx idx x off acc = Raise e ->
  e = ValueError
  \/ (e = TypeError /\ exists m i, In m idx /\ In i m /\ ~ fits_int64 i).
Proof.
  unfold extend_mip_idx. destruct idx as [|t ts]; [discriminate|].
  set (idx := t :: ts).
  unfold ravel_multi_index, np_ravel_multi_index.
  destruct (dims_ok _); [|intros [= <-]; now left].
  destruct (Nat.eqb _ _); [|intros [= <-]; now left].
  destruct (forallb int_coords (zip_star idx)) eqn:Hint.
  - destruct (map_result _ _) as [rs|e'] eqn:Hrs; simpl; [discriminate|].
    intros [= <-]. apply map_result_error in Hrs.
    destruct Hrs as [j [_ Hj]]. left. now apply ravel_F_error in Hj.
  - intros [= <-]. right. split; [reflexivity|].
    apply forallb_false_in in Hint. destruct Hint as [c [Hc Hbad]].
    unfold int_coords in Hbad. apply orb_false_iff in Hbad.
    destruct Hbad as [Hbad _].
    apply forallb_false_in in Hbad. destruct Hbad as [i [Hi Hout]].
    unfold zip_star in Hc. apply in_map_iff in Hc.
    destruct Hc as [k [<- Hk]]. apply in_seq in Hk.
    apply in_map_iff in Hi. destruct Hi as [m [<- Hm]].
    exists m, (nth k m 0%Z). split; [exact Hm|]. split.
    + apply nth_In. pose proof (min_length_le idx m Hm). lia.
    + unfold fits_int64. intros [Hlo Hhi].
      apply andb_false_iff in Hout.
      destruct Hout as [Hout|Hout];
        [apply Z.leb_gt in Hout|apply Z.leb_gt in Hout]; lia.
Qed.

Lemma extend_mip_idx_ok (idx acc : list (list Z)) :
  (idx <> [] -> dims_ok (max_shape (var_shape (mip_var x))) = true) ->
  forallb (mip_index_ok x) idx = true ->
  is_ok (extend_mip_idx idx x off acc) = true.
Proof.
  intros Hdims Hall. rewrite forallb_forall in Hall.
  unfold extend_mip_idx. destruct idx as [|t ts]; [reflexivity|].
  set (idx := t :: ts) in *.
  set (dims := max_shape (var_shape (mip_var x))) in *.
  specialize (Hdims ltac:(discriminate)).
  assert (Hlen : forall m, In m idx -> length m = length dims).
  { intros m Hm. specialize (Hall m Hm). unfold mip_index_ok in Hall.
    fold dims in Hall.
    destruct (ravel_F dims m) as [r|] eqn:Hr; [|discriminate].
    now apply ravel_F_length in Hr. }
  assert (Hmin : min_length idx = length dims)
    by (apply min_length_uniform; [discriminate|exact Hlen]).
  unfold ravel_multi_index, np_ravel_multi_index. fold dims.
  rewrite Hdims, zip_star_length, Hmin, Nat.eqb_refl.
  assert (Hint : forallb int_coords (zip_star idx) = true).
  { apply forallb_forall. intros c Hc. unfold int_coords.
    apply orb_true_iff. left. apply forallb_forall. intros i Hi.
    unfold zip_star in Hc. apply in_map_iff in Hc.
    destruct Hc as [k [<- Hk]]. apply in_seq in Hk.
    apply in_map_iff in Hi. destruct Hi as [m [<- Hm]].
    specialize (Hall m Hm). unfold mip_index_ok in Hall. fold dims in Hall.
    destruct (ravel_F dims m) as [r|] eqn:Hr; [|discriminate].
    assert (Hk' : k < length dims) by lia.
    destruct (ravel_F_coords dims m r k Hr Hk') as [H0 Hd].
    unfold dims_ok in Hdims. apply andb_true_iff in Hdims.
    destruct Hdims as [Hdims _]. apply andb_true_iff in Hdims.
    destruct Hdims as [_ Hdims]. rewrite forallb_forall in Hdims.
    assert (Hin : In (nth k dims 0) dims) by (apply nth_In; lia).
    specialize (Hdims _ Hin). apply Z.leb_le in Hdims.
    apply andb_true_iff. split; apply Z.leb_le; unfold intp_max in *; lia. }
  rewrite Hint.
  pose proof (zip_star_first idx) as Hfirst.
  pose proof (zip_star_length idx) as Hzl.
  destruct (zip_star idx) as [|c cs] eqn:Hz.
  { exfalso. apply (max_shape_nonempty (var_shape (mip_var x))).
    apply length_zero_iff_nil. fold dims. simpl in Hzl. lia. }
  rewrite Hfirst.
  assert (Hok : is_ok (map_result
                         (fun j => ravel_F dims
                                     (map (fun c0 => nth j c0 0%Z) (c :: cs)))
                         (seq 0 (length idx))) = true).
  { apply map_result_ok. intros j Hj. apply in_seq in Hj.
    rewrite <- Hz, zip_star_point by lia. rewrite Hmin.
    assert (Hin : In (nth j idx []) idx) by (apply nth_In; lia).
    rewrite <- (Hlen _ Hin), firstn_all. exact (Hall _ Hin). }
  destruct (map_result _ _); [reflexivity|discriminate].
Qed.
End ExtendMipIdx.

Lemma extract_mip_loop_blocks (variables : list mip_variable) (off : Z)
  (bacc iacc b i : list (list Z)) :
  extract_mip_loop variables off bacc iacc = Ok (b, i) ->
  exists bb ib,
    b = bacc ++ concat bb /\ i = iacc ++ concat ib /\
    blocks_of boolean_idx off variables bb /\
    blocks_of integer_idx off variables ib.
Proof.
  revert off bacc iacc. induction variables as [|x xs IH];
    intros off bacc iacc; simpl.
  - intros [= <- <-]. exists [], []. simpl. rewrite !app_nil_r.
    repeat split; constructor.
  - destruct (extend_mip_idx (boolean_idx x) x off bacc) as [b1|] eqn:Hb;
      simpl; [|discriminate].
    destruct (extend_mip_idx (integer_idx x) x off iacc) as [i1|] eqn:Hi;
      simpl; [|discriminate].
    apply extend_mip_idx_entries in Hb. destruct Hb as [bblk [-> Hbblk]].
    apply extend_mip_idx_entries in Hi. destruct Hi as [iblk [-> Hiblk]].
    intros Hloop. destruct (IH _ _ _ Hloop) as [bb [ib [-> [-> [Hbb Hib]]]]].
    exists (bblk :: bb), (iblk :: ib). simpl. rewrite <- !app_assoc.
    repeat split; constructor; assumption.
Qed.



Section Blocks.
Variable idx_of : mip_variable -> list (list Z).


End Blocks.



Lemma extract_mip_loop_error (variables : list mip_variable) (off : Z)
  (bacc iacc : list (list Z)) (e : pyerr) :
  extract_mip_loop variables off bacc iacc = Raise e ->
  e = ValueError
  \/ (e = TypeError /\
      exists x m i,
        In x variables /\ In m (boolean_idx x ++ integer_idx x) /\
        In i m /\ ~ fits_int64 i).
Proof.
  revert off bacc iacc. induction variables as [|x xs IH];
    intros off bacc iacc; simpl; [discriminate|].
  destruct (extend_mip_idx (boolean_idx x) x off bacc) as [b1|e1] eqn:Hb;
    simpl.
  2:{ intros [= <-]. apply extend_mip_idx_error in Hb.
      destruct Hb as [Hb|[He [m [i [Hm Hi]]]]]; [now left|right].
      split; [exact He|]. exists x, m, i. rewrite in_app_iff. tauto. }
  destruct (extend_mip_idx (integer_idx x) x off iacc) as [i1|e1] eqn:Hi;
    simpl.
  2:{ intros [= <-]. apply extend_mip_idx_error in Hi.
      destruct Hi as [Hi|[He [m [i [Hm Hi]]]]]; [now left|right].
      split; [exact He|]. exists x, m, i. rewrite in_app_iff. tauto. }
  intros Hloop. destruct (IH _ _ _ Hloop) as [He|[He [y [m [i [Hy H]]]]]];
    [now left|right].
  split; [exact He|]. exists y, m, i. tauto.
Qed.

Lemma extract_mip_loop_ok (variables : list mip_variable) (off : Z)
  (bacc iacc : list (list Z)) :
  (forall x, In x variables ->
     mip_dims_ok x
     && forallb (mip_index_ok x) (boolean_idx x)
     && forallb (mip_index_ok x) (integer_idx x) = true) ->
  is_ok (extract_mip_loop variables off bacc iacc) = true.
Proof.
  revert off bacc iacc. induction variables as [|x xs IH];
    intros off bacc iacc Hall; simpl; [reflexivity|].
  pose proof (Hall x (or_introl eq_refl)) as Hx.
  apply andb_true_iff in Hx. destruct Hx as [Hx Hix].
  apply andb_true_iff in Hx. destruct Hx as [Hdx Hbx].
  assert (Hdb : boolean_idx x <> [] ->
                dims_ok (max_shape (var_shape (mip_var x))) = true).
  { unfold mip_dims_ok in Hdx. destruct (boolean_idx x); [congruence|].
    intros _. exact Hdx. }
  assert (Hdi : integer_idx x <> [] ->
                dims_ok (max_shape (var_shape (mip_var x))) = true).
  { unfold mip_dims_ok in Hdx.
    destruct (boolean_idx x), (integer_idx x); try congruence;
      intros _; exact Hdx. }
  pose proof (extend_mip_idx_ok x off (boolean_idx x) bacc Hdb Hbx) as Hb.
  destruct (extend_mip_idx (boolean_idx x) x off bacc) as [b1|];
    [|discriminate].
  pose proof (extend_mip_idx_ok x off (integer_idx x) iacc Hdi Hix) as Hi.
  destruct (extend_mip_idx (integer_idx x) x off iacc) as [i1|];
    [|discriminate].
  simpl. apply IH. intros y Hy. apply Hall. now right.
Qed.







Lemma blocks_indices_ok (idx_of : mip_variable -> list (list Z))
  (variables : list mip_variable) (off : Z) (blks : list (list (list Z))) :
  exact_arity idx_of variables ->
  blocks_of idx_of off variables blks ->
  forall x, In x variables -> forallb (mip_index_ok x) (idx_of x) = true.
Proof.
  intros Har Hb. induction Hb as [off|off x xs blk blks Hblk Hb IH];
    intros y Hy; [contradiction|].
  destruct Hy as [<-|Hy].
  - apply forallb_forall. intros m Hm.
    assert (Hex : exists t, mip_entry x off m t).
    { clear - Hblk Hm. induction Hblk as [|m0 t0 l l' H0 Hf IH];
        [contradiction|].
      destruct Hm as [<-|Hm]; eauto. }
    destruct Hex as [t [r [Hr _]]].
    rewrite <- (Har x m) in Hr by (auto; now left).
    rewrite firstn_all in Hr. unfold mip_index_ok. now rewrite Hr.
  - apply IH; [|exact Hy]. intros z m Hz. apply Har. now right.
Qed.

(** X17. [extract_mip_idx] raises nothing but [ValueError] and
    [TypeError], and [TypeError] only if a coordinate of a multi-index does
    not fit a 64-bit integer. It returns when every variable with indices
    has dimensions that [np.ravel_multi_index] takes, every multi-index has
    one coordinate per dimension of its variable and every coordinate lies
    within its dimension; for multi-indices with one coordinate per
    dimension, it returns only if every coordinate lies within its
    dimension. *)
Theorem extract_mip_idx_failure (variables : list mip_variable) :
  (forall e, extract_mip_idx variables = Raise e ->
             e = ValueError \/ e = TypeError) /\
  (extract_mip_idx variables = Raise TypeError ->
   exists x m i,
     In x variables /\ In m (boolean_idx x ++ integer_idx x) /\
     In i m /\ ~ fits_int64 i) /\
  ((forall x, In x variables ->
      mip_dims_ok x
      && forallb (mip_index_ok x) (boolean_idx x)
      && forallb (mip_index_ok x) (integer_idx x) = true) ->
   is_ok (extract_mip_idx variables) = true) /\
  (exact_arity boolean_idx variables ->
   exact_arity integer_idx variables ->
   is_ok (extract_mip_idx variables) = true ->
   forall x, In x variables ->
     forallb (mip_index_ok x) (boolean_idx x)
     && forallb (mip_index_ok x) (integer_idx x) = true).
Proof.
  split; [|split; [|split]].
  - intros e He. apply extract_mip_loop_error in He.
    destruct He as [He|[He _]]; auto.
  - intros He. apply extract_mip_loop_error in He.
    destruct He as [He|[_ He]]; [discriminate|exact He].
  - apply extract_mip_loop_ok.
  - intros Hab Hai Hok x Hx.
    destruct (extract_mip_idx variables) as [[b i]|] eqn:E; [|discriminate].
    apply extract_mip_loop_blocks in E.
    destruct E as [bb [ib [_ [_ [Hbb Hib]]]]].
    apply andb_true_iff. split.
    + exact (blocks_indices_ok boolean_idx variables 0 bb Hab Hbb x Hx).
    + exact (blocks_indices_ok integer_idx variables 0 ib Hai Hib x Hx).
Qed.

Lemma extract_mip_idx_failure_witness :
  (extract_mip_idx
     [{| mip_var := {| var_id := 1; var_shape := [2; 3] |};
         boolean_idx := [[0; 0]; [1; 18446744073709551616]]%Z;
         integer_idx := [] |}] = Raise TypeError /\
   exists x m i,
     In x [{| mip_var := {| var_id := 1; var_shape := [2; 3] |};
              boolean_idx := [[0; 0]; [1; 18446744073709551616]]%Z;
              integer_idx := [] |}] /\
     In m (boolean_idx x ++ integer_idx x) /\
     In i m /\ ~ fits_int64 i) /\
  is_ok (extract_mip_idx mip_vars_ex) = true /\
  extract_mip_idx
    [{| mip_var := {| var_id := 1; var_shape := [2; 3] |};
        boolean_idx := [[0; 0]; [1; 3]]%Z;
        integer_idx := [] |}] = Raise ValueError.
Proof.
  split; [|split].
  - split; [reflexivity|].
    apply (proj1 (proj2 (extract_mip_idx_failure _))). reflexivity.
  - apply (proj1 (proj2 (proj2 (extract_mip_idx_failure mip_vars_ex)))).
    intros x Hx. simpl in Hx.
    destruct Hx as [<-|[<-|[<-|[]]]]; reflexivity.
  - reflexivity.
Defined.

(** ** More on [treat_params_as_affine] *)

Lemma treat_params_as_affine_normal_exit_witness :
  let st' := fst (treat_params_as_affine scope_expr_ex
                    (fun st => (set_flag 1 true st, Normal))
                    {| is_constant_flag := [(1%Z, true); (2%Z, false)];
                       cached_constant := false |}) in
  (forall q, In q (expr_parameters scope_expr_ex) ->
     flag_of st' q
     = flag_of {| is_constant_flag := [(1%Z, true); (2%Z, false)];
                  cached_constant := false |} q) /\
  cached_constant st'
  = negb (expr_has_variables scope_expr_ex)
    && forallb (flag_of {| is_constant_flag := [(1%Z, true); (2%Z, false)];
                           cached_constant := false |})
         (expr_parameters scope_expr_ex).
Proof.
  refine (treat_params_as_affine_normal_exit scope_expr_ex
            (fun st => (set_flag 1 true st, Normal))
            {| is_constant_flag := [(1%Z, true); (2%Z, false)];
               cached_constant := false |} _ _).
  - repeat constructor; simpl; intuition discriminate.
  - reflexivity.
Defined.

Lemma flag_of_check_is_constant (e : scope_expr) (st : store) (q : Z) :
  flag_of (check_is_constant e st) q = flag_of st q.
Proof. reflexivity. Qed.

Lemma save_and_clear_length (ps : list Z) (st : store) :
  length (fst (save_and_clear ps st)) = length ps.
Proof.
  revert st. induction ps as [|p ps IH]; intros st; simpl; [reflexivity|].
  now rewrite IH.
Qed.

(** The flags after a normal exit. *)
Lemma normal_exit_flags (e : scope_expr) (body : store -> store * outcome)
  (st : store) (q : Z) :
  NoDup (expr_parameters e) ->
  snd (body (snd (scope_enter e st))) = Normal ->
  In q (expr_parameters e) ->
  flag_of (fst (treat_params_as_affine e body st)) q = flag_of st q.
Proof.
  intros Hnd Hnormal Hq. unfold treat_params_as_affine. rewrite Hnormal.
  cbv zeta. unfold fst at 1. unfold scope_resume.
  rewrite flag_of_check_is_constant.
  replace (fst (scope_enter e st)) with (map (flag_of st) (expr_parameters e))
    by (symmetry; now apply save_and_clear_saves).
  now apply restore_flags_restores.
Qed.

(** X19. What the block of a [treat_params_as_affine] scope sees: every
    parameter of the expression is non-constant, the flags of other
    parameters are untouched, one old flag has been saved per parameter,
    and the recomputed constancy of an expression that has a parameter is
    false. *)
Theorem scope_enter_view (e : scope_expr) (st : store) :
  let entered := scope_enter e st in
  (forall q, In q (expr_parameters e) -> flag_of (snd entered) q = false) /\
  (forall q, ~ In q (expr_parameters e) ->
             flag_of (snd entered) q = flag_of st q) /\
  length (fst entered) = length (expr_parameters e) /\
  cached_constant (snd entered)
  = negb (expr_has_variables e)
    && match expr_parameters e with [] => true | _ :: _ => false end.
Proof.
  cbv zeta. unfold scope_enter. cbn [fst snd].
  split; [|split; [|split]].
  - intros q Hq. rewrite flag_of_check_is_constant.
    now apply save_and_clear_clears.
  - intros q Hq. rewrite flag_of_check_is_constant.
    now apply save_and_clear_other.
  - apply save_and_clear_length.
  - unfold check_is_constant. cbn [cached_constant]. f_equal.
    destruct (expr_parameters e) as [|p ps] eqn:Hps; [reflexivity|].
    cbn [forallb]. rewrite <- Hps.
    rewrite (save_and_clear_clears (expr_parameters e) st p)
      by (rewrite Hps; now left).
    reflexivity.
Qed.

(** X20. Scopes nest: when a block opens a second scope on the same
    expression and that scope exits normally, the parameters are still
    non-constant afterwards, inside the outer scope, and the exit of the
    outer scope gives them back the flags they had at first. *)
Theorem treat_params_as_affine_nested (e : scope_expr)
  (body : store -> store * outcome) (st : store) :
  NoDup (expr_parameters e) ->
  snd (body (snd (scope_enter e (snd (scope_enter e st))))) = Normal ->
  let inner := treat_params_as_affine e body in
  let between := fst (inner (snd (scope_enter e st))) in
  let r := treat_params_as_affine e inner st in
  snd r = Normal /\
  (forall q, In q (expr_parameters e) -> flag_of between q = false) /\
  (forall q, In q (expr_parameters e) -> flag_of (fst r) q = flag_of st q).
Proof.
  intros Hnd Hnormal inner between r.
  assert (Hinner : snd (inner (snd (scope_enter e st))) = Normal).
  { unfold inner, treat_params_as_affine. now rewrite Hnormal. }
  split; [|split].
  - unfold r, treat_params_as_affine. fold inner. now rewrite Hinner.
  - intros q Hq. unfold between, inner.
    rewrite normal_exit_flags by assumption.
    unfold scope_enter. cbn [snd]. rewrite flag_of_check_is_constant.
    now apply save_and_clear_clears.
  - intros q Hq. unfold r. now apply normal_exit_flags.
Qed.

Lemma treat_params_as_affine_nested_witness :
  let inner := treat_params_as_affine scope_expr_ex
                 (fun st => (st, Normal)) in
  let between := fst (inner (snd (scope_enter scope_expr_ex store_ex))) in
  let r := treat_params_as_affine scope_expr_ex inner store_ex in
  snd r = Normal /\
  (forall q, In q (expr_parameters scope_expr_ex) ->
             flag_of between q = false) /\
  (forall q, In q (expr_parameters scope_expr_ex) ->
             flag_of (fst r) q = flag_of store_ex q).
Proof.
  refine (treat_params_as_affine_nested scope_expr_ex
            (fun st => (st, Normal)) store_ex _ _).
  - repeat constructor; simpl; intuition discriminate.
  - reflexivity.
Defined.

(** ** More on the two [apply] methods *)

Lemma cone_apply_dual_map_witness :
  let inverse_data := snd (fst (cone_apply (-1) affine_ex problem_eq 100)) in
  let cons := cone_lowered problem_eq 100 in
  dv_id_map inverse_data
  = combine (dual_ids cons)
      (flat_map dual_variables (problem_constraints problem_eq)) /\
  length (dual_ids cons)
  = length (flat_map dual_variables (problem_constraints problem_eq)) /\
  NoDup (dual_ids cons).
Proof.
  refine (cone_apply_dual_map (-1) affine_ex problem_eq 100 _ _ _).
  - repeat constructor.
  - repeat constructor; simpl; intuition discriminate.
  - intros i Hi. simpl in Hi. destruct Hi as [<-|[]]. reflexivity.
Defined.

(** *** The rows of the stuffed arguments *)

Lemma stuffed_args_app (a1 a2 : list expr) (offset : nat) :
  fst (stuffed_args (a1 ++ a2) offset)
  = fst (stuffed_args a1 offset)
    ++ fst (stuffed_args a2 (snd (stuffed_args a1 offset))) /\
  snd (stuffed_args (a1 ++ a2) offset)
  = snd (stuffed_args a2 (snd (stuffed_args a1 offset))).
Proof.
  revert offset. induction a1 as [|arg a1 IH]; intros offset; simpl.
  - auto.
  - destruct (IH (offset + expr_size arg)) as [-> ->]. auto.
Qed.

Lemma stuffed_args_nth (a : list expr) (offset i : nat) (arg : expr) :
  nth_error a i = Some arg ->
  nth_error (fst (stuffed_args a offset)) i
  = Some (EStuffed (offset + list_sum (map expr_size (firstn i a)))
            (expr_shape arg)).
Proof.
  revert offset i. induction a as [|arg0 a IH]; intros offset i.
  - destruct i; discriminate.
  - destruct i as [|i]; simpl.
    + intros [= <-]. now rewrite Nat.add_0_r.
    + intros Hi. rewrite (IH _ _ Hi). do 2 f_equal. lia.
Qed.

Lemma stuffed_args_length (a : list expr) (offset : nat) :
  length (fst (stuffed_args a offset)) = length a.
Proof.
  revert offset. induction a as [|arg a IH]; intros offset; simpl;
    [reflexivity|].
  now rewrite IH.
Qed.

Lemma stuffing_copy_loop_args (copy_id : constraint -> Z -> Z * Z)
  (cons new_cons : list constraint)
  (offset : nat) (dv_map : dict variable) (next : Z) :
  let r := fst (fst (stuffing_copy_loop copy_id cons offset new_cons dv_map
                       next)) in
  flat_map args r
  = flat_map args new_cons ++ fst (stuffed_args (flat_map args cons) offset)
  /\
  map (fun c => length (args c)) r
  = map (fun c => length (args c)) new_cons
    ++ map (fun c => length (args c)) cons.
Proof.
  revert new_cons offset dv_map next.
  induction cons as [|con cons IH]; intros new_cons offset dv_map next.
  - simpl. now rewrite !app_nil_r.
  - cbn [stuffing_copy_loop]. cbv zeta.
    set (r := copy copy_id con (fst (stuffed_args (args con) offset))
                next).
    destruct (IH (new_cons ++ [fst r])
                (snd (stuffed_args (args con) offset))
                (record_duals (dual_variables con)
                   (dual_variables (fst r)) dv_map)
                (snd r))
      as [Hargs Hlens].
    cbv zeta in Hargs, Hlens. rewrite Hargs, Hlens.
    rewrite flat_map_app, map_app. subst r.
    cbn [flat_map map copy new_constraint fst args].
    rewrite app_nil_r, <- !app_assoc.
    destruct (stuffed_args_app (args con) (flat_map args cons) offset)
      as [-> _].
    cbn [app]. now rewrite stuffed_args_length.
Qed.

(** X22. [MatrixStuffing.apply] rebuilds the arguments of the lowered
    constraints one for one, constraint by constraint: the argument at
    position [i] of the batch [expr_list] is rebuilt with its own shape
    from the rows of [Afull] and [bfull] that start at the sum of the sizes
    of the arguments before it, which are the rows that the batch gives
    it. *)
Theorem stuffing_apply_rows {R : Type} (CONSTANT_ID : Z)
  (stuffed_objective : Problem R -> Z -> (expr * variable * R) * Z)
  (copy_id : constraint -> Z -> Z * Z)
  (problem : Problem R) (next : Z) :
  let new_prob :=
    fst (fst (stuffing_apply CONSTANT_ID stuffed_objective copy_id problem
                next)) in
  let cons :=
    fst (stuffing_lower_loop (problem_constraints problem) []
           (snd (stuffed_objective problem next))) in
  let expr_list := flat_map args cons in
  map (fun c => length (args c)) (problem_constraints new_prob)
  = map (fun c => length (args c)) cons /\
  forall i arg,
    nth_error expr_list i = Some arg ->
    nth_error (flat_map args (problem_constraints new_prob)) i
    = Some (EStuffed (list_sum (map expr_size (firstn i expr_list)))
              (expr_shape arg)).
Proof.
  intros new_prob cons expr_list.
  destruct (stuffing_copy_loop_args copy_id cons [] 0 []
              (snd (stuffing_lower_loop (problem_constraints problem) []
                      (snd (stuffed_objective problem next)))))
    as [Hargs Hlens].
  cbv zeta in Hargs, Hlens. split.
  - exact Hlens.
  - intros i arg Hi.
    assert (E : flat_map args (problem_constraints new_prob)
                = fst (stuffed_args expr_list 0)) by exact Hargs.
    rewrite E. exact (stuffed_args_nth expr_list 0 i arg Hi).
Qed.

(** *** Second-order cones after lowering *)

Lemma lower_soc_axis (con : constraint) (next : Z) :
  kind (fst (lower con next)) = SOC -> axis (fst (lower con next)) <> 1%Z.
Proof.
  unfold lower. destruct (kind con) eqn:Hk; simpl; try congruence.
  destruct (Z.eqb_spec (axis con) 1); simpl; [discriminate|auto].
Qed.

Lemma cone_lower_loop_soc_axis (cs cons : list constraint)
  (dv_map : dict variable) (next : Z) :
  Forall (fun con => kind con = SOC -> axis con <> 1%Z) cons ->
  Forall (fun con => kind con = SOC -> axis con <> 1%Z)
    (fst (fst (cone_lower_loop cs cons dv_map next))).
Proof.
  revert cons dv_map next. induction cs as [|con cs IH];
    intros cons dv_map next Hcons; simpl; [exact Hcons|].
  apply IH. apply Forall_app. split; [exact Hcons|].
  constructor; [|constructor]. apply lower_soc_axis.
Qed.

(** X23. No second-order cone constraint of the program that
    [ConeMatrixStuffing.apply] returns has axis 1: one of the problem that
    has is replaced by one with axis 0 (and the second argument
    transposed), and no other lowering builds a second-order cone. *)
Theorem cone_apply_soc_axis {R : Type} `{Num R} (CONSTANT_ID : Z)
  (affine : InverseData -> list expr -> matrix R) (problem : Problem R)
  (next : Z) (con : constraint) :
  In con (constraints (fst (fst (cone_apply CONSTANT_ID affine problem
                                   next)))) ->
  kind con = SOC -> axis con <> 1%Z.
Proof.
  cbn [cone_apply fst constraints]. cbv zeta. cbn [constraints].
  rewrite !in_app_iff, !group_constraints_In.
  intros Hin.
  assert (Hcon : In con
            (fst (fst (cone_lower_loop (problem_constraints problem) []
                         (dv_id_map (new_inverse_data CONSTANT_ID problem))
                         (snd (get_id next)))))) by tauto.
  pose proof (cone_lower_loop_soc_axis (problem_constraints problem) []
                (dv_id_map (new_inverse_data CONSTANT_ID problem))
                (snd (get_id next)) (Forall_nil _)) as Hall.
  rewrite Forall_forall in Hall. exact (Hall con Hcon).
Qed.

Lemma cone_apply_soc_axis_witness :
  axis {| kind := SOC; constr_id := 20;
          args := [ELeaf 1 [2]; ETranspose (ELeaf 3 [2; 3])]; axis := 0;
          dual_variables :=
            [{| var_id := 101; var_shape := [2] |};
             {| var_id := 102; var_shape := [3; 2] |}] |} <> 1%Z.
Proof.
  refine (cone_apply_soc_axis (-1) affine_ex problem_soc 100 _ _ _).
  - simpl. left. reflexivity.
  - reflexivity.
Defined.

(** *** [invert] after [ConeMatrixStuffing.apply] *)

Lemma old_ids_combine (inverse_data : InverseData) (dvs olds : list variable) :
  dv_id_map inverse_data = combine (map var_id dvs) olds ->
  NoDup (map var_id dvs) ->
  length dvs = length olds ->
  old_ids inverse_data dvs = map var_id olds.
Proof.
  intros Hmap. unfold old_ids. rewrite Hmap. clear Hmap.
  assert (Hgen : forall (dvs : list variable) (olds : list variable)
                        (m : dict variable),
             NoDup (map var_id dvs) ->
             length dvs = length olds ->
             (forall dv, In dv dvs ->
                dict_get (var_id dv) m
                = dict_get (var_id dv) (combine (map var_id dvs) olds)) ->
             flat_map (fun dv => match dict_get (var_id dv) m with
                                 | Some dv_old => [var_id dv_old]
                                 | None => []
                                 end) dvs
             = map var_id olds).
  { clear. induction dvs as [|dv dvs IH]; intros olds m Hnd Hlen Hm.
    - destruct olds; [reflexivity|discriminate].
    - destruct olds as [|o olds]; [discriminate|].
      inversion Hnd as [|? ? Hnot Hnd']; subst.
      cbn [flat_map map]. rewrite (Hm dv (or_introl eq_refl)).
      cbn [map combine dict_get]. rewrite Z.eqb_refl. cbn [app].
      f_equal. apply IH; [assumption|simpl in Hlen; lia|].
      intros dv' Hdv'. rewrite (Hm dv' (or_intror Hdv')).
      cbn [map combine dict_get].
      destruct (Z.eqb_spec (var_id dv') (var_id dv)) as [E|]; [|reflexivity].
      exfalso. apply Hnot. rewrite <- E. now apply in_map. }
  intros Hnd Hlen. now apply Hgen.
Qed.

(** X24. [invert] after [ConeMatrixStuffing.apply] reports the dual
    values under the ids of the dual variables of the problem: for a
    problem whose constraints are well-formed and whose dual variables are
    distinct, with ids below the next free id, the dual map that [invert]
    returns from the inverse data of [apply] has exactly the ids of the
    dual variables of the constraints of the problem, up to the order of
    the buckets. *)
Theorem cone_apply_invert_dual_ids {R : Type} `{Num R} (CONSTANT_ID : Z)
  (affine : InverseData -> list expr -> matrix R) (problem : Problem R)
  (next : Z) (ERROR SOLUTION_PRESENT : list string)
  (solution r : Solution R) (dvs : dict (ndarray R))
  (dual_var : ndarray R) :
  Forall (fun con => constraint_wf con = true)
    (problem_constraints problem) ->
  NoDup (dual_ids (problem_constraints problem)) ->
  (forall i, In i (dual_ids (problem_constraints problem)) -> (i < next)%Z) ->
  status_in (status solution) SOLUTION_PRESENT = true ->
  dual_vars solution = Some dvs ->
  first_value dvs = Ok dual_var ->
  invert ERROR SOLUTION_PRESENT solution
    (snd (fst (cone_apply CONSTANT_ID affine problem next))) = Ok r ->
  exists duals,
    dual_vars r = Some duals /\
    Permutation (dict_keys duals) (dual_ids (problem_constraints problem)).
Proof.
  intros Hwf Hnd Hlt Hsp Hdvs Hfirst.
  set (inverse_data := snd (fst (cone_apply CONSTANT_ID affine problem next))).
  set (cons := fst (fst (cone_lower_loop (problem_constraints problem) [] []
                           (snd (get_id next))))).
  destruct (cone_lower_loop_dual_map (problem_constraints problem)
              [] [] (snd (get_id next)) Hwf eq_refl Hnd
              (fun i Hi => Z.lt_trans _ _ _ (Hlt i Hi)
                             (Z.lt_succ_diag_r next)))
    as [Hmap [Hlen Hndc]].
  cbv zeta in Hmap, Hlen, Hndc. fold cons in Hmap, Hlen, Hndc.
  cbn [app] in Hmap, Hlen.
  assert (Hperm : Permutation cons (inv_constraints inverse_data)).
  { destruct (cone_lower_loop_cons (problem_constraints problem) [] []
                (snd (get_id next))) as [l [Hl [_ Hkinds]]].
    fold cons in Hl. cbn [app] in Hl. subst l.
    exact (buckets_permutation cons Hkinds). }
  assert (Hold : Permutation (old_dual_ids inverse_data)
                   (dual_ids (problem_constraints problem))).
  { unfold old_dual_ids.
    transitivity (old_ids inverse_data (flat_map dual_variables cons)).
    - unfold old_ids. apply Permutation_flat_map.
      apply Permutation_flat_map. now symmetry.
    - rewrite (old_ids_combine inverse_data (flat_map dual_variables cons)
                 (flat_map dual_variables (problem_constraints problem)));
        [reflexivity|exact Hmap|exact Hndc|].
      unfold dual_ids in Hlen. now rewrite length_map in Hlen. }
  unfold invert.
  destruct (invert_opt_val ERROR solution inverse_data) as [opt|];
    cbn [bind]; [|discriminate].
  rewrite Hsp. cbn [negb].
  destruct (first_value (primal_vars solution)) as [x_opt|]; cbn [bind];
    [|discriminate].
  destruct (invert_primal_loop _ _ _ _) as [primal|]; cbn [bind];
    [|discriminate].
  rewrite Hdvs, Hfirst. cbn [bind].
  destruct (invert_dual_loop inverse_data (flatten dual_var)
              (inv_constraints inverse_data) 0 []) as [duals|] eqn:Hd;
    cbn [bind]; [|discriminate].
  intros [= <-]. cbn [dual_vars]. exists duals. split; [reflexivity|].
  apply invert_dual_loop_concat in Hd; [|lia|].
  - destruct Hd as [Hkeys _]. cbn [dict_keys map app] in Hkeys.
    rewrite Hkeys. exact Hold.
  - cbn [dict_keys map app].
    apply (Permutation_NoDup (l := dual_ids (problem_constraints problem)));
      [now symmetry|exact Hnd].
Qed.

Lemma cone_apply_invert_dual_ids_witness :
  exists duals,
    Some [(11%Z, flat [7; 8]%Z)] = Some duals /\
    Permutation (dict_keys duals) (dual_ids (problem_constraints problem_eq)).
Proof.
  refine (cone_apply_invert_dual_ids (-1) affine_ex problem_eq 100
            ERROR_ex SOLUTION_PRESENT_ex solution_eq
            {| status := "optimal"; opt_val := Some 5%Z;
               primal_vars := [(1%Z, flat [1; 2]%Z); (2%Z, flat [3; 4]%Z)];
               dual_vars := Some [(11%Z, flat [7; 8]%Z)];
               attr := [] |}
            [(101%Z, flat [7; 8]%Z)] (flat [7; 8]%Z) _ _ _ _ _ _ _);
    try reflexivity.
  - repeat constructor.
  - repeat constructor; simpl; intuition discriminate.
  - intros i Hi. simpl in Hi. destruct Hi as [<-|[]]. reflexivity.
Defined.

(** ** The lookup tables of [ParamConeProg.__init__] *)

Lemma find_app_eq {V : Type} (f : V -> bool) (l1 l2 : list V) :
  find f (l1 ++ l2)
  = match find f l1 with
    | Some e => Some e
    | None => find f l2
    end.
Proof.
  induction l1 as [|a l1 IH]; simpl; [reflexivity|].
  now destruct (f a).
Qed.

Lemma dict_of_list_find {V : Type} (key : V -> Z) (l : list V) (d0 : dict V)
  (k : Z) :
  dict_get k (fold_left (fun d e => dict_set (key e) e d) l d0)
  = match find (fun e => Z.eqb (key e) k) (rev l) with
    | Some e => Some e
    | None => dict_get k d0
    end.
Proof.
  revert d0. induction l as [|a l IH]; intros d0; simpl; [reflexivity|].
  rewrite IH, find_app_eq.
  destruct (find (fun e => Z.eqb (key e) k) (rev l)); [reflexivity|].
  simpl. rewrite dict_get_set, (Z.eqb_sym (key a) k).
  now destruct (Z.eqb k (key a)).
Qed.

(** X25. The tables [id_to_param] and [id_to_var] that
    [ParamConeProg.__init__] builds hold, under an id, the last parameter
    (variable) of the list with that id, and nothing under an id that no
    parameter (variable) has. *)
Theorem id_tables_lookup {R : Type} (self : ParamConeProg R) (k : Z) :
  dict_get k (id_to_param self)
  = find (fun p => Z.eqb (param_id p) k) (rev (parameters self)) /\
  dict_get k (id_to_var self)
  = find (fun v => Z.eqb (var_id v) k) (rev (variables self)).
Proof.
  unfold id_to_param, id_to_var. rewrite !dict_of_list_find. simpl.
  split.
  - now destruct (find _ (rev (parameters self))).
  - now destruct (find _ (rev (variables self))).
Qed.

(** ** The names of parameters *)

Lemma append_inj_r (p a b : string) : (p ++ a = p ++ b)%string -> a = b.
Proof.
  induction p as [|c p IH]; simpl; [auto|].
  intros [= E]. auto.
Qed.

Lemma str_of_int_inj (n m : Z) : str_of_int n = str_of_int m -> n = m.
Proof.
  unfold str_of_int. intros E. apply to_int_inj.
  assert (Hs : Some (Z.to_int n) = Some (Z.to_int m))
    by (rewrite <- !NilEmpty.isi; now rewrite E).
  now injection Hs.
Qed.

(** X26. Parameters created without a name are told apart by their names:
    two of them have the same name exactly when they have the same id, and
    two created one after the other without an id have different ids and
    different names. *)
Theorem parameter_default_names (PARAM_PREFIX : string) (id1 id2 : option Z)
  (next : Z) :
  let p1 := Parameter_init PARAM_PREFIX None id1 next in
  let p2 := Parameter_init PARAM_PREFIX None id2 (snd p1) in
  (leaf_name (fst p1) = leaf_name (fst p2)
   <-> leaf_id (fst p1) = leaf_id (fst p2)) /\
  (id1 = None -> id2 = None ->
   leaf_id (fst p1) <> leaf_id (fst p2) /\
   leaf_name (fst p1) <> leaf_name (fst p2)).
Proof.
  cbv zeta. unfold Parameter_init. cbn [fst snd leaf_name leaf_id].
  assert (Hiff : forall a b : Z,
             (PARAM_PREFIX ++ str_of_int a)%string
             = (PARAM_PREFIX ++ str_of_int b)%string <-> a = b).
  { intros a b. split; [|now intros ->].
    intros E. apply str_of_int_inj. now apply append_inj_r in E. }
  split; [apply Hiff|].
  intros -> ->. cbn [get_id fst snd].
  split; [lia|]. rewrite Hiff. lia.
Qed.

(** ** The layouts that [ConeMatrixStuffing.apply] hands on *)

Lemma ranges_from_filter (sizes : list nat) (offset : Z) (i : nat) :
  length (filter (in_range (Z.of_nat i)) (ranges_from sizes offset))
  = if ((offset <=? Z.of_nat i)
        && (Z.of_nat i <? offset + Z.of_nat (list_sum sizes)))%Z
    then 1 else 0.
Proof.
  revert offset. induction sizes as [|n sizes IH]; intros offset.
  - simpl. rewrite Z.add_0_r.
    destruct (Z.leb_spec offset (Z.of_nat i)),
             (Z.ltb_spec (Z.of_nat i) offset); simpl; try reflexivity; lia.
  - cbn [ranges_from filter].
    change (list_sum (n :: sizes)) with (n + list_sum sizes).
    unfold in_range at 1. cbn [fst snd].
    assert (Hlen : forall (c : bool) (r : Z * nat) (F : list (Z * nat)),
               length (if c then r :: F else F)
               = (if c then 1 else 0) + length F)
      by (intros [|] r F; reflexivity).
    rewrite Hlen, IH, Nat2Z.inj_add, Z.add_assoc.
    destruct (Z.leb_spec offset (Z.of_nat i)),
             (Z.ltb_spec (Z.of_nat i) (offset + Z.of_nat n)),
             (Z.leb_spec (offset + Z.of_nat n) (Z.of_nat i)),
             (Z.ltb_spec (Z.of_nat i)
                (offset + Z.of_nat n + Z.of_nat (list_sum sizes)));
      simpl; lia.
Qed.

Lemma ranges_from_partition (sizes : list nat) :
  ranges_partition (list_sum sizes) (ranges_from sizes 0) = true.
Proof.
  unfold ranges_partition. rewrite !andb_true_iff. repeat split.
  - unfold ranges_within. apply forallb_forall.
    assert (Hgen : forall sizes offset r,
               (0 <= offset)%Z -> In r (ranges_from sizes offset) ->
               (0 <= fst r /\
                fst r + Z.of_nat (snd r)
                <= offset + Z.of_nat (list_sum sizes))%Z).
    { clear. induction sizes as [|n sizes IH]; intros offset r Hoff;
        [intros []|].
      cbn [ranges_from].
      change (list_sum (n :: sizes)) with (n + list_sum sizes).
      intros [<-|Hin]; [cbn [fst snd]; lia|].
      assert (Hoff' : (0 <= offset + Z.of_nat n)%Z) by lia.
      specialize (IH _ r Hoff' Hin). lia. }
    intros r Hr. apply range_okb_spec. right.
    specialize (Hgen sizes 0%Z r (Z.le_refl 0) Hr). lia.
  - unfold ranges_cover. apply forallb_forall. intros i Hi.
    apply in_seq in Hi.
    pose proof (ranges_from_filter sizes 0 i) as Hf.
    destruct (Z.leb_spec 0 (Z.of_nat i)); [|lia].
    destruct (Z.ltb_spec (Z.of_nat i) (0 + Z.of_nat (list_sum sizes)));
      [|lia].
    cbn [andb] in Hf.
    destruct (filter (in_range (Z.of_nat i)) (ranges_from sizes 0))
      as [|r l] eqn:E; [discriminate|].
    assert (Hin : In r (filter (in_range (Z.of_nat i))
                          (ranges_from sizes 0)))
      by (rewrite E; now left).
    apply filter_In in Hin. apply existsb_exists. exists r. exact Hin.
  - unfold ranges_disjoint. apply forallb_forall. intros i _.
    apply Nat.leb_le. rewrite ranges_from_filter.
    destruct (_ && _)%bool; lia.
Qed.

Lemma fold_dict_set_fresh {V : Type} (l : list (Z * V)) (d0 : dict V) :
  NoDup (dict_keys d0 ++ map fst l) ->
  fold_left (fun d e => dict_set (fst e) (snd e) d) l d0 = d0 ++ l.
Proof.
  revert d0. induction l as [|[k v] l IH]; intros d0 Hnd; simpl.
  - now rewrite app_nil_r.
  - simpl in Hnd. rewrite IH.
    + rewrite dict_set_fresh; [now rewrite <- app_assoc|].
      apply NoDup_remove_2 in Hnd. intros Hin. apply Hnd.
      apply in_or_app. now left.
    + rewrite dict_set_fresh.
      * unfold dict_keys. rewrite map_app. simpl.
        fold (dict_keys d0). now rewrite <- app_assoc.
      * apply NoDup_remove_2 in Hnd. intros Hin. apply Hnd.
        apply in_or_app. now left.
Qed.

Lemma offsets_from_keys (sizes : list (Z * nat)) (offset : Z) :
  map fst (offsets_from sizes offset) = map fst sizes.
Proof.
  revert offset. induction sizes as [|[i n] sizes IH]; intros offset; simpl;
    [reflexivity|].
  now rewrite IH.
Qed.

(** The ranges of a layout in declaration order, for any way of looking
    the sizes up that finds, for each id, the size it was laid out with. *)
Lemma offsets_from_ranges (range_of : Z * Z -> list (Z * nat))
  (sizes : list (Z * nat)) (offset : Z) :
  (forall i n col, In (i, n) sizes -> range_of (i, col) = [(col, n)]) ->
  flat_map range_of (offsets_from sizes offset)
  = ranges_from (map snd sizes) offset.
Proof.
  revert offset. induction sizes as [|[i n] sizes IH]; intros offset Hr;
    simpl; [reflexivity|].
  rewrite (Hr i n offset) by now left. simpl. f_equal.
  apply IH. intros i' n' col Hin. apply Hr. now right.
Qed.

Lemma dict_of_list_get_NoDup {V : Type} (key : V -> Z) (l : list V) (v : V) :
  NoDup (map key l) -> In v l ->
  dict_get (key v) (fold_left (fun d e => dict_set (key e) e d) l [])
  = Some v.
Proof.
  intros Hnd Hin. rewrite dict_of_list_find.
  assert (Hfind : find (fun e => Z.eqb (key e) (key v)) (rev l) = Some v).
  { assert (Hnd' : NoDup (map key (rev l))).
    { rewrite map_rev. apply NoDup_rev. exact Hnd. }
    apply in_rev in Hin. revert Hnd' Hin. generalize (rev l). clear.
    intros l. induction l as [|a l IH]; intros Hnd Hin; [contradiction|].
    destruct Hin as [->|Hin]; simpl.
    - now rewrite Z.eqb_refl.
    - inversion Hnd as [|? ? Hnot Hnd']; subst.
      destruct (Z.eqb_spec (key a) (key v)) as [E|]; [|auto].
      exfalso. apply Hnot. rewrite E. now apply in_map. }
  now rewrite Hfind.
Qed.

Lemma total_size_list_sum (vs : list variable) :
  total_size vs = list_sum (map var_size vs).
Proof. induction vs as [|v vs IH]; simpl; [reflexivity|]. now rewrite IH. Qed.

(** X27. The layout of the variables that [ConeMatrixStuffing.apply] gives
    its program is one that [split_solution] and [split_adjoint] invert
    each other on: for a problem whose variables have distinct ids,
    [var_id_to_col] has distinct keys and the column ranges of the
    variables cover [[0, x.size)] without gaps or overlaps. *)
Theorem cone_apply_var_layout {R : Type} `{Num R} (CONSTANT_ID : Z)
  (affine : InverseData -> list expr -> matrix R) (problem : Problem R)
  (next : Z) :
  NoDup (map var_id (problem_variables problem)) ->
  let prog := fst (fst (cone_apply CONSTANT_ID affine problem next)) in
  NoDup (dict_keys (var_id_to_col prog)) /\
  ranges_partition (var_size (prog_x prog)) (var_ranges prog) = true.
Proof.
  intros Hnd prog.
  set (vs := problem_variables problem) in *.
  set (sizes := map (fun v => (var_id v, var_size v)) vs).
  assert (Hkeys : map fst sizes = map var_id vs)
    by (unfold sizes; rewrite map_map; reflexivity).
  assert (Hcol : var_id_to_col prog = offsets_from sizes 0).
  { change (var_id_to_col prog)
      with (fold_left (fun d e => dict_set (fst e) (snd e) d)
              (offsets_from sizes 0) (@nil (Z * Z))).
    rewrite fold_dict_set_fresh; [reflexivity|].
    simpl. now rewrite offsets_from_keys, Hkeys. }
  split.
  - rewrite Hcol. unfold dict_keys. now rewrite offsets_from_keys, Hkeys.
  - assert (Hx : var_size (prog_x prog) = list_sum (map snd sizes)).
    { change (var_size (prog_x prog)) with (total_size vs * 1).
      rewrite Nat.mul_1_r, total_size_list_sum. unfold sizes.
      now rewrite map_map. }
    unfold var_ranges. rewrite Hcol, Hx.
    rewrite offsets_from_ranges; [apply ranges_from_partition|].
    intros i n col Hin. cbn [fst snd]. unfold sizes in Hin.
    apply in_map_iff in Hin. destruct Hin as [v [E Hv]].
    injection E as <- <-.
    change (id_to_var prog)
      with (fold_left (fun d v0 => dict_set (var_id v0) v0 d) vs
              (@nil (Z * variable))).
    now rewrite (dict_of_list_get_NoDup var_id vs v Hnd Hv).
Qed.

Lemma cone_apply_var_layout_witness :
  let prog := fst (fst (cone_apply (-1) affine_ex problem_soc 100)) in
  NoDup (dict_keys (var_id_to_col prog)) /\
  ranges_partition (var_size (prog_x prog)) (var_ranges prog) = true.
Proof.
  refine (cone_apply_var_layout (-1) affine_ex problem_soc 100 _).
  repeat constructor; simpl; intuition discriminate.
Defined.

Lemma total_param_size_list_sum {R : Type} (self : ParamConeProg R) :
  total_param_size self
  = list_sum (map (@param_size R) (parameters self)).
Proof.
  unfold total_param_size.
  induction (parameters self) as [|p ps IH]; simpl; [reflexivity|].
  now rewrite IH.
Qed.

(** X28. The layout of the parameters that [ConeMatrixStuffing.apply]
    gives its program is the one that [apply_parameters] and
    [apply_param_jac] work on: for a problem whose parameters have distinct
    ids, none of them the id of the constant term, [param_id_to_col] has
    distinct keys, and the column ranges of the parameters and the one
    column of the constant term cover [[0, total_param_size + 1)] without
    gaps or overlaps. *)
Theorem cone_apply_param_layout {R : Type} `{Num R} (CONSTANT_ID : Z)
  (affine : InverseData -> list expr -> matrix R) (problem : Problem R)
  (next : Z) :
  NoDup (map (@param_id R) (problem_parameters problem) ++ [CONSTANT_ID]) ->
  let prog := fst (fst (cone_apply CONSTANT_ID affine problem next)) in
  NoDup (dict_keys (param_id_to_col prog)) /\
  ranges_partition (total_param_size prog + 1)
    (param_ranges CONSTANT_ID prog) = true.
Proof.
  intros Hnd prog.
  set (ps := problem_parameters problem) in *.
  set (sizes := map (fun p => (param_id p, param_size p)) ps
                ++ [(CONSTANT_ID, 1)]).
  assert (Hkeys : map fst sizes = map (@param_id R) ps ++ [CONSTANT_ID]).
  { unfold sizes. rewrite map_app, map_map. reflexivity. }
  assert (Hcol : param_id_to_col prog = offsets_from sizes 0).
  { change (param_id_to_col prog)
      with (fold_left (fun d e => dict_set (fst e) (snd e) d)
              (offsets_from sizes 0) (@nil (Z * Z))).
    rewrite fold_dict_set_fresh; [reflexivity|].
    simpl. now rewrite offsets_from_keys, Hkeys. }
  split.
  - rewrite Hcol. unfold dict_keys. now rewrite offsets_from_keys, Hkeys.
  - assert (Hx : total_param_size prog + 1 = list_sum (map snd sizes)).
    { rewrite total_param_size_list_sum.
      change (parameters prog) with ps. unfold sizes.
      rewrite map_app, map_map, list_sum_app. reflexivity. }
    unfold param_ranges, item_ranges. rewrite Hcol, Hx.
    rewrite offsets_from_ranges; [apply ranges_from_partition|].
    intros i n col Hin. cbn [fst snd]. unfold sizes in Hin.
    apply in_app_or in Hin. destruct Hin as [Hin|[E|[]]].
    + apply in_map_iff in Hin. destruct Hin as [p [E Hp]].
      injection E as <- <-.
      assert (Hne : param_id p <> CONSTANT_ID).
      { intros E. apply NoDup_remove_2 in Hnd. apply Hnd.
        rewrite app_nil_r, <- E. now apply in_map. }
      destruct (Z.eqb_spec (param_id p) CONSTANT_ID); [contradiction|].
      change (id_to_param prog)
        with (fold_left (fun d p0 => dict_set (param_id p0) p0 d) ps
                (@nil (Z * parameter R))).
      rewrite (dict_of_list_get_NoDup (@param_id R) ps p); auto.
      now apply NoDup_app_remove_r in Hnd.
    + injection E as <- <-. now rewrite Z.eqb_refl.
Qed.

Lemma cone_apply_param_layout_witness :
  let prog := fst (fst (cone_apply (-1) affine_ex problem_params 100)) in
  NoDup (dict_keys (param_id_to_col prog)) /\
  ranges_partition (total_param_size prog + 1) (param_ranges (-1) prog)
  = true.
Proof.
  refine (cone_apply_param_layout (-1) affine_ex problem_params 100 _).
  repeat constructor; simpl; intuition discriminate.
Defined.

(** ** The vector that [split_adjoint] builds *)

(** X29. The vector that [split_adjoint] returns: for a program whose
    variable ranges lie within [[0, x.size)] and do not overlap, and values
    of the shapes of their variables, it has [x.size] entries, holds the
    flattened value of every id of [del_vars] at the column range of its
    variable, and 0 at every column outside these ranges. *)
Theorem split_adjoint_entries {R : Type} `{Num R} (self : ParamConeProg R)
  (del_vars : dict (ndarray R)) :
  ranges_within (var_size (prog_x self)) (var_ranges self) = true ->
  ranges_disjoint (var_size (prog_x self)) (var_ranges self) = true ->
  NoDup (dict_keys del_vars) ->
  Forall (fits_variable self) del_vars ->
  exists v,
    split_adjoint self del_vars = Ok v /\
    length v = var_size (prog_x self) /\
    (forall k delta col var,
        In (k, delta) del_vars ->
        dict_get k (var_id_to_col self) = Some col ->
        dict_get k (id_to_var self) = Some var ->
        py_slice v col (Z.of_nat (var_size var) + col) = data delta) /\
    (forall i,
        i < var_size (prog_x self) ->
        (forall k delta col var,
            In (k, delta) del_vars ->
            dict_get k (var_id_to_col self) = Some col ->
            dict_get k (id_to_var self) = Some var ->
            in_range (Z.of_nat i) (col, var_size var) = false) ->
        nth_error v i = Some zero).
Proof.
  intros Hwithin Hdis Hnd Hfit.
  destruct (split_adjoint_loop_writes self Hwithin Hdis del_vars
              (repeat zero (var_size (prog_x self))))
    as [v [Hadj [Hlen [Hout Hslices]]]];
    [apply repeat_length|assumption|assumption|].
  exists v. split; [exact Hadj|]. split; [exact Hlen|].
  split; [exact Hslices|].
  intros i Hi Hfree. rewrite (Hout i Hfree).
  now apply nth_error_repeat.
Qed.

Lemma split_adjoint_entries_witness :
  exists v,
    split_adjoint prog_split [(3%Z, {| shape := [1; 2]; data := [7; 8]%Z |})]
    = Ok v /\
    length v = var_size (prog_x prog_split) /\
    (forall k delta col var,
        In (k, delta) [(3%Z, {| shape := [1; 2]; data := [7; 8]%Z |})] ->
        dict_get k (var_id_to_col prog_split) = Some col ->
        dict_get k (id_to_var prog_split) = Some var ->
        py_slice v col (Z.of_nat (var_size var) + col) = data delta) /\
    (forall i,
        i < var_size (prog_x prog_split) ->
        (forall k delta col var,
            In (k, delta) [(3%Z, {| shape := [1; 2]; data := [7; 8]%Z |})] ->
            dict_get k (var_id_to_col prog_split) = Some col ->
            dict_get k (id_to_var prog_split) = Some var ->
            in_range (Z.of_nat i) (col, var_size var) = false) ->
        nth_error v i = Some zero).
Proof.
  refine (split_adjoint_entries prog_split
            [(3%Z, {| shape := [1; 2]; data := [7; 8]%Z |})] _ _ _ _).
  - reflexivity.
  - reflexivity.
  - repeat constructor; simpl; intuition discriminate.
  - repeat constructor.
    exists {| var_id := 3; var_shape := [1; 2] |}, 3%Z.
    repeat split; reflexivity.
Defined.

(** ** The constraints that [MatrixStuffing.apply] returns *)

Lemma lower_kind (con : constraint) (next : Z) :
  kind (fst (lower con next))
  = match kind con with
    | Equality => Zero
    | Inequality => NonPos
    | k => k
    end.
Proof.
  unfold lower. destruct (kind con) eqn:Hk; try reflexivity; try exact Hk.
  destruct (Z.eqb (axis con) 1); [reflexivity|exact Hk].
Qed.

Lemma stuffing_lower_loop_kinds (cs cons : list constraint) (next : Z) :
  map kind (fst (stuffing_lower_loop cs cons next))
  = map kind cons
    ++ map (fun con => match kind con with
                       | Equality => Zero
                       | Inequality => NonPos
                       | k => k
                       end) cs.
Proof.
  revert cons next. induction cs as [|con cs IH]; intros cons next; simpl.
  - now rewrite app_nil_r.
  - rewrite IH, map_app, <- app_assoc. cbn [map app].
    now rewrite lower_kind.
Qed.

Lemma stuffing_copy_loop_kinds (copy_id : constraint -> Z -> Z * Z)
  (cons new_cons : list constraint)
  (offset : nat) (dv_map : dict variable) (next : Z) :
  map kind (fst (fst (stuffing_copy_loop copy_id cons offset new_cons
                        dv_map next)))
  = map kind new_cons ++ map kind cons.
Proof.
  revert new_cons offset dv_map next.
  induction cons as [|con cons IH]; intros new_cons offset dv_map next.
  - simpl. now rewrite app_nil_r.
  - cbn [stuffing_copy_loop]. cbv zeta. rewrite IH, map_app.
    cbn [map copy new_constraint fst kind]. now rewrite <- app_assoc.
Qed.

(** X30. [MatrixStuffing.apply] returns one constraint per constraint of
    the problem, in the same order (it does not group them by kind, as
    [ConeMatrixStuffing.apply] does): the constraint at a position is a
    [Zero] constraint if the one of the problem is an equality, a [NonPos]
    constraint if it is an inequality, and of the kind of the one of the
    problem otherwise. The new problem is a minimization, and the inverse
    data records whether the problem was one. *)
Theorem stuffing_apply_constraints {R : Type} (CONSTANT_ID : Z)
  (stuffed_objective : Problem R -> Z -> (expr * variable * R) * Z)
  (copy_id : constraint -> Z -> Z * Z)
  (problem : Problem R) (next : Z) :
  let r := fst (stuffing_apply CONSTANT_ID stuffed_objective copy_id
                  problem next) in
  map kind (problem_constraints (fst r))
  = map (fun con => match kind con with
                    | Equality => Zero
                    | Inequality => NonPos
                    | k => k
                    end) (problem_constraints problem) /\
  objective_is_minimize (fst r) = true /\
  minimize (snd r) = objective_is_minimize problem.
Proof.
  intros r. split; [|split; reflexivity].
  unfold r, stuffing_apply. cbv zeta. cbn [fst snd problem_constraints].
  rewrite stuffing_copy_loop_kinds, stuffing_lower_loop_kinds.
  reflexivity.
Qed.
